(** * FMT (Filament Management Tool): identity allocator, schema migration
      and storage-location tree

    A shallow embedding of the identity and location core of
    [src/index.tsx]:

    - [generateNewIdAndUpdateCounters], the id allocator;
    - [migrateData], the schema migration run on every load and import;
    - [handleAdd], [handleDelete], [handleRename] of the [StorageManager]
      component, and [handleSaveStorageTree] of [App], which commits an
      edited tree and clears the location of the spools it orphans;
    - the handlers of [App] that save, delete and edit a spool, commit the
      printers and react to a scanned label, with the filters and the lists
      that the overview derives from the state;
    - the handlers of [PrinterManager], the printers offered by
      [FilamentForm], and the expansion state of [StorageTreeView];
    - the texts of the labels: the content of the QR codes, the file name,
      the escaping and the wrapping;
    - the reading of the material type in [calculateLength].

    Modelling conventions.
    - JavaScript strings are modelled by [string], that is by sequences of
      8-bit characters; the case mapping and the character classes below are
      the ASCII ones. A property that depends on the case mapping of a text
      is stated for texts that satisfy [ascii_only].
    - Counters are natural numbers, extended with [NaN] and [null], which
      the code can produce or read back. The code counts in doubles: below
      2^53 its [x + 1] is the successor and [toString] writes every digit,
      from 2^53 on neither is so. A property that depends on the value of a
      counter that the caller hands in is stated for counters that satisfy
      [exact_counting].
    - A JavaScript object used as a dictionary is a [gmap string _] holding
      its own properties. Reading a key that the object does not have gives
      what the object inherits under that name, so a property that depends
      on a key being absent is stated for keys that are not [inherited].
    - The pattern of a regular expression is interpreted on a fragment of
      the syntax; a property of a rename that rewrites paths is stated for
      paths that are [plain], where the pattern is read literally.
    - The code joins the segments of a location path with " / "; the paths
      of the scenarios are written that way, as [handleAdd] builds them.
    - Floating-point payload (weights, lengths), the random UUID source and
      the collation order of [localeCompare] are supplied by a [Host]; the
      arithmetic of the length formula is a parameter of its section.
    - A handler of a component maps the state of the render it was created
      in to the state after its updates; what a dialog returns is an
      input. *)

From Stdlib Require Import String Ascii DecimalString Decimal DecimalNat
  DecimalFacts.
From stdpp Require Import gmap strings list fin_maps sorting.

(** [simpl] may unfold an append whose left operand starts with a character. *)
#[local] Arguments String.append !s1 s2 /.

(* ===================================================================== *)
(** * Part I: the embedding                                               *)
(* ===================================================================== *)

(** ** JavaScript strings and numbers *)

Module JS.

(** [c] is one of [A-Z]. *)
Definition is_upper (c : ascii) : bool :=
  let n := nat_of_ascii c in (65 <=? n)%nat && (n <=? 90)%nat.

(** [c] is one of [a-z]. *)
Definition is_lower (c : ascii) : bool :=
  let n := nat_of_ascii c in (97 <=? n)%nat && (n <=? 122)%nat.

(** [c] matches [\d]. *)
Definition is_digit (c : ascii) : bool :=
  let n := nat_of_ascii c in (48 <=? n)%nat && (n <=? 57)%nat.

Definition upper_char (c : ascii) : ascii :=
  if is_lower c then ascii_of_nat (nat_of_ascii c - 32) else c.

(** The text is made of ASCII characters. *)
Fixpoint ascii_only (s : string) : bool :=
  match s with
  | EmptyString => true
  | String c s' => (nat_of_ascii c <? 128)%nat && ascii_only s'
  end.

(** [s.toUpperCase()] of an ASCII text. A character outside ASCII is kept
    by the model, where JavaScript maps it too and may change the length
    (from the sharp s to [SS]). *)
Fixpoint toUpperCase (s : string) : string :=
  match s with
  | EmptyString => EmptyString
  | String c s' => String (upper_char c) (toUpperCase s')
  end.

(** [s.replace(/[^A-Z\d]/g, '')]: every character outside [A-Z0-9] is
    dropped. *)
Fixpoint strip_non_alnum (s : string) : string :=
  match s with
  | EmptyString => EmptyString
  | String c s' =>
      if is_upper c || is_digit c then String c (strip_non_alnum s')
      else strip_non_alnum s'
  end.

(** [s.substring(0, n)] *)
Fixpoint substring0 (n : nat) (s : string) : string :=
  match n, s with
  | S n', String c s' => String c (substring0 n' s')
  | _, _ => EmptyString
  end.

(** A string is truthy when it is not empty. *)
Definition truthy (s : string) : bool :=
  match s with EmptyString => false | String _ _ => true end.

(** [s || d] on strings. *)
Definition or_else (s d : string) : string := if truthy s then s else d.

(** [o[k]] is truthy: the property exists and is a non-empty string. *)
Definition truthy_prop (o : option string) : bool :=
  match o with Some s => truthy s | None => false end.

Fixpoint zeros (n : nat) : string :=
  match n with O => EmptyString | S n' => String "0" (zeros n') end.

(** [s.padStart(n, '0')] *)
Definition padStart (n : nat) (s : string) : string :=
  zeros (n - String.length s) +:+ s.

(** A numeric property as the code can hold it: a number, [NaN], or the
    [null] that [JSON.stringify] writes for [NaN]. *)
Inductive jsnum := JNum (n : nat) | JNaN | JNull.

(** [ToNumber] of a property that may be absent ([undefined]). *)
Definition toNumber (x : option jsnum) : jsnum :=
  match x with
  | Some (JNum n) => JNum n
  | Some JNull => JNum 0
  | Some JNaN | None => JNaN
  end.

(** The first natural number at which [x + 1] on doubles is [x]. *)
Definition exact_limit : N := (2 ^ 53)%N.

(** [x + 1], for [x] below [exact_limit]: there the sum of doubles is the
    successor. *)
Definition succ (x : jsnum) : jsnum :=
  match toNumber (Some x) with JNum n => JNum (S n) | _ => JNaN end.

(** [x++]: the old numeric value, and the value stored back. *)
Definition post_incr (x : option jsnum) : jsnum * jsnum :=
  (toNumber x, succ (toNumber x)).

(** [Math.max(a, b)] on two numbers. *)
Definition math_max (a b : jsnum) : jsnum :=
  match toNumber (Some a), toNumber (Some b) with
  | JNum x, JNum y => JNum (Nat.max x y)
  | _, _ => JNaN
  end.

(** [n.toString()] of a number; the operand is a result of [ToNumber], so
    the case of [null] does not arise. Every digit is written, as the code
    does for numbers below 10^21 and so below [exact_limit]. *)
Definition num_toString (x : jsnum) : string :=
  match x with
  | JNum n => NilEmpty.string_of_uint (Nat.to_uint n)
  | JNaN => "NaN"
  | JNull => "null"
  end.

(** What [JSON.parse(JSON.stringify(_))] makes of a numeric property. *)
Definition json_num (x : jsnum) : jsnum :=
  match x with JNaN => JNull | _ => x end.

End JS.

Export JS.

(** ** The identity allocator *)

Module Allocator.

(** [{ nextSpoolNum: _ }] *)
Record TypeCounter := { nextSpoolNum : jsnum }.

(** The persisted allocator state [idCounters]. A field is [None] when the
    object does not have the property. *)
Record Counters := {
  colorMap : option (gmap string string);
  nextColorNum : option jsnum;
  typeCounters : option (gmap string TypeCounter);
  version : option jsnum
}.

(** [{}] *)
Definition empty_counters : Counters :=
  {| colorMap := None; nextColorNum := None;
     typeCounters := None; version := None |}.

(** [JSON.parse(JSON.stringify(c))] as a value. *)
Definition json_copy (c : Counters) : Counters :=
  {| colorMap := colorMap c;
     nextColorNum := json_num <$> nextColorNum c;
     typeCounters :=
       fmap (M := gmap string)
            (fun t => {| nextSpoolNum := json_num (nextSpoolNum t) |})
         <$> typeCounters c;
     version := json_num <$> version c |}.

(** [(typeStr || 'UNK').toUpperCase().replace(/[^A-Z\d]/g, '').substring(0, 4)] *)
Definition typeCode (typeStr : string) : string :=
  substring0 4 (strip_non_alnum (toUpperCase (or_else typeStr "UNK"))).

(** [mfgColorStr || 'Unknown'] *)
Definition colorKey (mfgColorStr : string) : string :=
  or_else mfgColorStr "Unknown".

(** [`${type}-${spoolNum}-${colorCode}`] *)
Definition compose_id (type spoolNum colorCode : string) : string :=
  type +:+ "-" +:+ spoolNum +:+ "-" +:+ colorCode.

(** The statements of [generateNewIdAndUpdateCounters], each as the
    change it makes to the value of [countersCopy]. *)

(** [if (!countersCopy.colorMap) { countersCopy.colorMap = {};
    countersCopy.nextColorNum = 1; }] *)
Definition ensure_colorMap (c : Counters) : Counters :=
  match colorMap c with
  | Some _ => c
  | None => {| colorMap := Some ∅; nextColorNum := Some (JNum 1);
               typeCounters := typeCounters c; version := version c |}
  end.

(** [if (!countersCopy.typeCounters) { countersCopy.typeCounters = {}; }] *)
Definition ensure_typeCounters (c : Counters) : Counters :=
  match typeCounters c with
  | Some _ => c
  | None => {| colorMap := colorMap c; nextColorNum := nextColorNum c;
               typeCounters := Some ∅; version := version c |}
  end.

(** [if (!countersCopy.typeCounters[type]) {
    countersCopy.typeCounters[type] = { nextSpoolNum: 1 }; }] *)
Definition ensure_typeCounter (type : string) (c : Counters) : Counters :=
  let tcs := default ∅ (typeCounters c) in
  match tcs !! type with
  | Some _ => c
  | None => {| colorMap := colorMap c; nextColorNum := nextColorNum c;
               typeCounters := Some (<[type := {| nextSpoolNum := JNum 1 |}]> tcs);
               version := version c |}
  end.

(** [if (!countersCopy.colorMap[mfgColor]) { countersCopy.colorMap[mfgColor]
    = (countersCopy.nextColorNum++).toString().padStart(3, '0'); }]; the
    lookup is the one among the own properties of the map, which is what the
    code reads for every label but the names that an object inherits. *)
Definition assign_colorCode (mfgColor : string) (c : Counters) : Counters :=
  let cmap := default ∅ (colorMap c) in
  if truthy_prop (cmap !! mfgColor) then c
  else
    let '(old, new) := post_incr (nextColorNum c) in
    {| colorMap := Some (<[mfgColor := padStart 3 (num_toString old)]> cmap);
       nextColorNum := Some new;
       typeCounters := typeCounters c; version := version c |}.

(** [const spoolNum = (countersCopy.typeCounters[type].nextSpoolNum++)
    .toString().padStart(4, '0')] *)
Definition take_spoolNum (type : string) (c : Counters) : string * Counters :=
  let tcs := default ∅ (typeCounters c) in
  let '(old, new) := post_incr (nextSpoolNum <$> tcs !! type) in
  (padStart 4 (num_toString old),
   {| colorMap := colorMap c; nextColorNum := nextColorNum c;
      typeCounters := Some (<[type := {| nextSpoolNum := new |}]> tcs);
      version := version c |}).

(** [const colorCode = countersCopy.colorMap[mfgColor]], as it is written
    into the template string. *)
Definition read_colorCode (mfgColor : string) (c : Counters) : string :=
  default "undefined" (default ∅ (colorMap c) !! mfgColor).

(** [generateNewIdAndUpdateCounters], on values: the pair of [newId] and
    [updatedCounters]. *)
Definition generateNewIdAndUpdateCounters
    (typeStr mfgColorStr : string) (currentCounters : Counters)
  : string * Counters :=
  let type := typeCode typeStr in
  let mfgColor := colorKey mfgColorStr in
  let countersCopy := json_copy currentCounters in
  let countersCopy := ensure_colorMap countersCopy in
  let countersCopy := ensure_typeCounters countersCopy in
  let countersCopy := ensure_typeCounter type countersCopy in
  let countersCopy := assign_colorCode mfgColor countersCopy in
  let r := take_spoolNum type countersCopy in
  let colorCode := read_colorCode mfgColor r.2 in
  (compose_id type r.1 colorCode, r.2).

Definition newId (r : string * Counters) : string := fst r.
Definition updatedCounters (r : string * Counters) : Counters := snd r.

(** A run of the allocator: each call receives the counters returned by
    the previous one. The result lists the ids in call order. *)
Fixpoint allocate_all (calls : list (string * string)) (c : Counters)
  : list string * Counters :=
  match calls with
  | [] => ([], c)
  | (t, col) :: rest =>
      let r := generateNewIdAndUpdateCounters t col c in
      let '(ids, c') := allocate_all rest (updatedCounters r) in
      (newId r :: ids, c')
  end.

End Allocator.

Import Allocator.

(** ** The identity allocator on the heap

    [generateNewIdAndUpdateCounters] receives a reference to the caller's
    counters, copies the object graph behind it with
    [JSON.parse(JSON.stringify(_))], and then assigns to properties of the
    copy. Here the objects live in a heap and the statements are heap
    updates, so that what the call does to the caller's objects can be
    stated. *)

Module HeapAllocator.

(** A reference to an object. *)
Abbreviation loc := positive.

(** The four kinds of objects of a counter state. An object property that
    holds an object holds its reference. *)
Inductive object :=
| OCounters (colorMap : option loc) (nextColorNum : option jsnum)
            (typeCounters : option loc) (version : option jsnum)
| OColorMap (entries : gmap string string)
| OTypeCounters (entries : gmap string loc)
| OTypeCounter (nextSpoolNum : jsnum).

Abbreviation heap := (gmap loc object).

(** A new object: it gets a reference that is not in use. *)
Definition alloc (o : object) (h : heap) : loc * heap :=
  let l := fresh (dom h) in (l, <[l := o]> h).

(** *** The value behind a reference *)

Definition read_typeCounter (h : heap) (l : loc) : option TypeCounter :=
  match h !! l with
  | Some (OTypeCounter n) => Some {| nextSpoolNum := n |}
  | _ => None
  end.

Definition read_typeCounters (h : heap) (l : loc)
  : option (gmap string TypeCounter) :=
  match h !! l with
  | Some (OTypeCounters ml) =>
      if decide (map_Forall (λ _ l', is_Some (read_typeCounter h l')) ml)
      then Some (omap (read_typeCounter h) ml)
      else None
  | _ => None
  end.

Definition read_colorMap (h : heap) (l : loc)
  : option (gmap string string) :=
  match h !! l with
  | Some (OColorMap m) => Some m
  | _ => None
  end.

(** A property that may be absent. *)
Definition read_property {A} (read : loc → option A) (o : option loc)
  : option (option A) :=
  match o with
  | Some l => Some <$> read l
  | None => Some None
  end.

(** The counter state behind [l]; [None] if [l] does not refer to a
    well-formed one. *)
Definition read_counters (h : heap) (l : loc) : option Counters :=
  match h !! l with
  | Some (OCounters cm ncn tcs ver) =>
      cm' ← read_property (read_colorMap h) cm;
      tcs' ← read_property (read_typeCounters h) tcs;
      Some {| colorMap := cm'; nextColorNum := ncn;
              typeCounters := tcs'; version := ver |}
  | _ => None
  end.

(** *** [JSON.stringify] and [JSON.parse] *)

(** The document written for the object behind [l], as the value that
    parsing it gives. *)
Definition JSON_stringify (h : heap) (l : loc) : option Counters :=
  json_copy <$> read_counters h l.

(** Parsing builds every object anew. *)
Definition parse_typeCounters (m : gmap string TypeCounter) (h : heap)
  : gmap string loc * heap :=
  map_fold
    (λ key tc r,
       let a := alloc (OTypeCounter (nextSpoolNum tc)) r.2 in
       (<[key := a.1]> r.1, a.2))
    (∅, h) m.

Definition JSON_parse (c : Counters) (h : heap) : loc * heap :=
  let cm :=
    match colorMap c with
    | Some m => let a := alloc (OColorMap m) h in (Some a.1, a.2)
    | None => (None, h)
    end in
  let tcs :=
    match typeCounters c with
    | Some m =>
        let r := parse_typeCounters m cm.2 in
        let a := alloc (OTypeCounters r.1) r.2 in (Some a.1, a.2)
    | None => (None, cm.2)
    end in
  alloc (OCounters cm.1 (nextColorNum c) tcs.1 (version c)) tcs.2.

(** *** The statements, as heap updates

    [None] stands for the [TypeError] of reading a property of
    [undefined]. *)

(** [if (!countersCopy.colorMap) { countersCopy.colorMap = {};
    countersCopy.nextColorNum = 1; }] *)
Definition ensure_colorMap_h (countersCopy : loc) (h : heap) : option heap :=
  match h !! countersCopy with
  | Some (OCounters (Some _) _ _ _) => Some h
  | Some (OCounters None _ tcs ver) =>
      let a := alloc (OColorMap ∅) h in
      Some (<[countersCopy := OCounters (Some a.1) (Some (JNum 1)) tcs ver]> a.2)
  | _ => None
  end.

(** [if (!countersCopy.typeCounters) { countersCopy.typeCounters = {}; }] *)
Definition ensure_typeCounters_h (countersCopy : loc) (h : heap)
  : option heap :=
  match h !! countersCopy with
  | Some (OCounters _ _ (Some _) _) => Some h
  | Some (OCounters cm ncn None ver) =>
      let a := alloc (OTypeCounters ∅) h in
      Some (<[countersCopy := OCounters cm ncn (Some a.1) ver]> a.2)
  | _ => None
  end.

(** [if (!countersCopy.typeCounters[type]) {
    countersCopy.typeCounters[type] = { nextSpoolNum: 1 }; }] *)
Definition ensure_typeCounter_h (type : string) (countersCopy : loc)
    (h : heap) : option heap :=
  match h !! countersCopy with
  | Some (OCounters _ _ (Some lt) _) =>
      match h !! lt with
      | Some (OTypeCounters ml) =>
          match ml !! type with
          | Some _ => Some h
          | None =>
              let a := alloc (OTypeCounter (JNum 1)) h in
              Some (<[lt := OTypeCounters (<[type := a.1]> ml)]> a.2)
          end
      | _ => None
      end
  | _ => None
  end.

(** [if (!countersCopy.colorMap[mfgColor]) { countersCopy.colorMap[mfgColor]
    = (countersCopy.nextColorNum++).toString().padStart(3, '0'); }] *)
Definition assign_colorCode_h (mfgColor : string) (countersCopy : loc)
    (h : heap) : option heap :=
  match h !! countersCopy with
  | Some (OCounters (Some lm) ncn tcs ver) =>
      match h !! lm with
      | Some (OColorMap m) =>
          if truthy_prop (m !! mfgColor) then Some h
          else
            let '(old, new) := post_incr ncn in
            let h := <[countersCopy := OCounters (Some lm) (Some new) tcs ver]> h in
            Some (<[lm := OColorMap
                           (<[mfgColor := padStart 3 (num_toString old)]> m)]> h)
      | _ => None
      end
  | _ => None
  end.

(** [const spoolNum = (countersCopy.typeCounters[type].nextSpoolNum++)
    .toString().padStart(4, '0')] *)
Definition take_spoolNum_h (type : string) (countersCopy : loc) (h : heap)
  : option (string * heap) :=
  match h !! countersCopy with
  | Some (OCounters _ _ (Some lt) _) =>
      match h !! lt with
      | Some (OTypeCounters ml) =>
          match ml !! type with
          | Some l =>
              match h !! l with
              | Some (OTypeCounter n) =>
                  let '(old, new) := post_incr (Some n) in
                  Some (padStart 4 (num_toString old),
                        <[l := OTypeCounter new]> h)
              | _ => None
              end
          | None => None
          end
      | _ => None
      end
  | _ => None
  end.

(** [const colorCode = countersCopy.colorMap[mfgColor]] *)
Definition read_colorCode_h (mfgColor : string) (countersCopy : loc)
    (h : heap) : option string :=
  match h !! countersCopy with
  | Some (OCounters (Some lm) _ _ _) =>
      match h !! lm with
      | Some (OColorMap m) => Some (default "undefined" (m !! mfgColor))
      | _ => None
      end
  | _ => None
  end.

(** [generateNewIdAndUpdateCounters] on the heap: [currentCounters] is the
    reference the caller passes; the result is [newId], the reference
    [updatedCounters] and the heap after the call. *)
Definition generateNewIdAndUpdateCounters_h
    (typeStr mfgColorStr : string) (currentCounters : loc) (h : heap)
  : option (string * loc * heap) :=
  let type := typeCode typeStr in
  let mfgColor := colorKey mfgColorStr in
  document ← JSON_stringify h currentCounters;
  let parsed := JSON_parse document h in
  let countersCopy := parsed.1 in
  h ← ensure_colorMap_h countersCopy parsed.2;
  h ← ensure_typeCounters_h countersCopy h;
  h ← ensure_typeCounter_h type countersCopy h;
  h ← assign_colorCode_h mfgColor countersCopy h;
  r ← take_spoolNum_h type countersCopy h;
  colorCode ← read_colorCode_h mfgColor countersCopy r.2;
  Some (compose_id type r.1 colorCode, countersCopy, r.2).

(** *** A private copy

    [private_copy caller h l c]: the heap [h] extends the caller's heap
    without changing any of its objects, and behind [l] it holds the value
    [c] in objects that the caller's heap does not have, one object per
    type counter. *)

Definition rep_colorMap (caller h : heap) (o : option loc)
    (v : option (gmap string string)) : Prop :=
  match o, v with
  | Some l, Some m => caller !! l = None ∧ h !! l = Some (OColorMap m)
  | None, None => True
  | _, _ => False
  end.

Definition rep_typeCounter (caller h : heap) (o : option loc)
    (v : option TypeCounter) : Prop :=
  match o, v with
  | Some l, Some tc =>
      caller !! l = None ∧ h !! l = Some (OTypeCounter (nextSpoolNum tc))
  | None, None => True
  | _, _ => False
  end.

Definition rep_typeCounters (caller h : heap) (o : option loc)
    (v : option (gmap string TypeCounter)) : Prop :=
  match o, v with
  | Some l, Some m =>
      caller !! l = None
      ∧ ∃ ml, h !! l = Some (OTypeCounters ml)
              ∧ (∀ key, rep_typeCounter caller h (ml !! key) (m !! key))
              ∧ (∀ key1 key2 l', ml !! key1 = Some l' → ml !! key2 = Some l' →
                                 key1 = key2)
  | None, None => True
  | _, _ => False
  end.

Definition private_copy (caller h : heap) (l : loc) (c : Counters) : Prop :=
  caller ⊆ h ∧ caller !! l = None
  ∧ ∃ cm tcs,
      h !! l = Some (OCounters cm (nextColorNum c) tcs (version c))
      ∧ rep_colorMap caller h cm (colorMap c)
      ∧ rep_typeCounters caller h tcs (typeCounters c).

End HeapAllocator.

Import HeapAllocator.

(** ** The storage-location tree *)

Module LocationTree.

(** [interface StorageNode] *)
#[warnings="-register-all"]
Inductive StorageNode :=
  mkNode { name : string; path : string; children : list StorageNode }.

(** The separator the code writes between the segments of a path. *)
Definition sep : string := " / ".

(** *** String helpers used by the handlers *)

(** [s.startsWith(p)], returning what follows the prefix. *)
Fixpoint strip_prefix (p s : string) : option string :=
  match p, s with
  | EmptyString, _ => Some s
  | String a p', String b s' =>
      if Ascii.eqb a b then strip_prefix p' s' else None
  | String _ _, EmptyString => None
  end.

(** [s.lastIndexOf(p)], [None] standing for [-1]. *)
Fixpoint lastIndexOf_from (i : nat) (p s : string) : option nat :=
  let here := if strip_prefix p s is Some _ then Some i else None in
  match s with
  | EmptyString => here
  | String _ s' =>
      match lastIndexOf_from (S i) p s' with
      | Some j => Some j
      | None => here
      end
  end.

Definition lastIndexOf (p s : string) : option nat := lastIndexOf_from 0 p s.

(** [p.includes(' / ') ? p.substring(0, p.lastIndexOf(' / ')) : ''] *)
Definition parentOf (p : string) : string :=
  match lastIndexOf sep p with
  | Some i => substring0 i p
  | None => ""
  end.

(** [parent ? `${parent} / ${name}` : name] *)
Definition joinPath (parent name : string) : string :=
  if truthy parent then parent +:+ sep +:+ name else name.

(** *** [new RegExp(`^${old}`)] and [String.prototype.replace]

    The pattern is the raw old path, so its characters are read as regular
    expression syntax. The model covers the patterns made of ordinary
    characters, of [.] and of balanced capture groups [( )]; on those a
    match consumes one character per atom. [None] means that the pattern
    (a quantifier, a class, an escape, an unbalanced parenthesis, ...) or
    the replacement (a [$] sequence) is outside this fragment. *)

Inductive atom := AChar (c : ascii) | AAny.

(** The syntax characters of a pattern other than [.], [(] and [)]. *)
Definition is_other_syntax (c : ascii) : bool :=
  existsb (Ascii.eqb c)
    ["\"; "^"; "$"; "*"; "+"; "?"; "["; "]"; "{"; "}"; "|"]%char.

Fixpoint parse_pattern (depth : nat) (s : string) : option (list atom) :=
  match s with
  | EmptyString => if depth is O then Some [] else None
  | String c s' =>
      if Ascii.eqb c "(" then
        match s' with
        | String "?" _ => None
        | _ => parse_pattern (S depth) s'
        end
      else if Ascii.eqb c ")" then
        match depth with
        | O => None
        | S d => parse_pattern d s'
        end
      else if Ascii.eqb c "." then cons AAny <$> parse_pattern depth s'
      else if is_other_syntax c then None
      else cons (AChar c) <$> parse_pattern depth s'
  end.

(** [.] matches every character but a line terminator. *)
Definition atom_matches (a : atom) (c : ascii) : bool :=
  match a with
  | AChar x => Ascii.eqb x c
  | AAny => negb (Ascii.eqb c "010" || Ascii.eqb c "013")
  end.

(** Match the atoms at the start of [s]; the result is what follows. *)
Fixpoint match_start (p : list atom) (s : string) : option string :=
  match p, s with
  | [], _ => Some s
  | a :: p', String c s' =>
      if atom_matches a c then match_start p' s' else None
  | _ :: _, EmptyString => None
  end.

Fixpoint has_dollar (s : string) : bool :=
  match s with
  | EmptyString => false
  | String c s' => Ascii.eqb c "$" || has_dollar s'
  end.

(** [s.replace(new RegExp(`^${old}`), new)] *)
Definition replace_start (old new s : string) : option string :=
  match parse_pattern 0 old with
  | None => None
  | Some p =>
      if has_dollar new then None
      else Some (match match_start p s with
                 | Some rest => new +:+ rest
                 | None => s
                 end)
  end.

(** *** The handlers of [StorageManager]

    Every handler edits a deep copy of the component state [tree] and then
    calls [setTree]; as functions they map the old state to the new one.
    [prompt] and [window.confirm] are inputs. *)

(** [findAndAdd]: the node is pushed under the first node, in pre-order,
    whose path is [p]; the boolean is the function's return value. *)
Fixpoint findAndAdd_node (newNode : StorageNode) (p : string)
    (node : StorageNode) : StorageNode * bool :=
  match node with
  | mkNode nm pth ch =>
      if String.eqb pth p then (mkNode nm pth (ch ++ [newNode])%list, true)
      else
        let '(ch', found) :=
          (fix go (nodes : list StorageNode) : list StorageNode * bool :=
             match nodes with
             | [] => ([], false)
             | n :: rest =>
                 let '(n', found) := findAndAdd_node newNode p n in
                 if found then (n' :: rest, true)
                 else let '(rest', found') := go rest in (n :: rest', found')
             end) ch in
        (mkNode nm pth ch', found)
  end.

Fixpoint findAndAdd (newNode : StorageNode) (p : string)
    (nodes : list StorageNode) : list StorageNode * bool :=
  match nodes with
  | [] => ([], false)
  | n :: rest =>
      let '(n', found) := findAndAdd_node newNode p n in
      if found then (n' :: rest, true)
      else let '(rest', found') := findAndAdd newNode p rest in
           (n :: rest', found')
  end.

(** [handleAdd(path)], [answer] being what [prompt] returned. *)
Definition handleAdd (tree : list StorageNode) (p : string)
    (answer : option string) : list StorageNode :=
  match answer with
  | None => tree
  | Some nm =>
      if negb (truthy nm) then tree
      else
        let newNode := mkNode nm (joinPath p nm) [] in
        if String.eqb p "" then (tree ++ [newNode])%list
        else fst (findAndAdd newNode p tree)
  end.

(** [findAndDelete]: at every level the nodes whose path is [p] are
    filtered out, and the survivors' children are treated alike. *)
Fixpoint findAndDelete_node (p : string) (node : StorageNode) : StorageNode :=
  match node with
  | mkNode nm pth ch =>
      mkNode nm pth
        ((fix go (nodes : list StorageNode) : list StorageNode :=
            match nodes with
            | [] => []
            | n :: rest =>
                if String.eqb (path n) p then go rest
                else findAndDelete_node p n :: go rest
            end) ch)
  end.

Fixpoint findAndDelete (nodes : list StorageNode) (p : string)
  : list StorageNode :=
  match nodes with
  | [] => []
  | n :: rest =>
      if String.eqb (path n) p then findAndDelete rest p
      else findAndDelete_node p n :: findAndDelete rest p
  end.

(** [handleDelete(path)], [confirmed] being what [window.confirm]
    returned. *)
Definition handleDelete (tree : list StorageNode) (p : string)
    (confirmed : bool) : list StorageNode :=
  if confirmed then findAndDelete tree p else tree.

(** [updateChildPaths]: every descendant's path goes through
    [replace_start]. *)
Fixpoint updateChildPaths_node (oldParentPath newParentPath : string)
    (child : StorageNode) : option StorageNode :=
  match child with
  | mkNode nm pth ch =>
      pth' ← replace_start oldParentPath newParentPath pth;
      ch' ← (fix go (nodes : list StorageNode) : option (list StorageNode) :=
               match nodes with
               | [] => Some []
               | n :: rest =>
                   n' ← updateChildPaths_node oldParentPath newParentPath n;
                   rest' ← go rest;
                   Some (n' :: rest')
               end) ch;
      Some (mkNode nm pth' ch')
  end.

Fixpoint updateChildPaths (children : list StorageNode)
    (oldParentPath newParentPath : string) : option (list StorageNode) :=
  match children with
  | [] => Some []
  | n :: rest =>
      n' ← updateChildPaths_node oldParentPath newParentPath n;
      rest' ← updateChildPaths rest oldParentPath newParentPath;
      Some (n' :: rest')
  end.

(** The body of [findAndRename] for the node whose path is [p]. *)
Definition renameNode (newName p : string) (node : StorageNode)
  : option StorageNode :=
  let parentPath := parentOf p in
  let oldPathPrefix := path node in
  let newPath := joinPath parentPath newName in
  ch' ← updateChildPaths (children node) oldPathPrefix newPath;
  Some (mkNode newName newPath ch').

(** [findAndRename]: the first node, in pre-order, whose path is [p] is
    renamed; the boolean is the function's return value. *)
Fixpoint findAndRename_node (newName p : string) (node : StorageNode)
  : option (StorageNode * bool) :=
  if String.eqb (path node) p then
    node' ← renameNode newName p node; Some (node', true)
  else
    match node with
    | mkNode nm pth ch =>
        '(ch', found) ←
          (fix go (nodes : list StorageNode)
             : option (list StorageNode * bool) :=
             match nodes with
             | [] => Some ([], false)
             | n :: rest =>
                 '(n', found) ← findAndRename_node newName p n;
                 if (found : bool) then Some (n' :: rest, true)
                 else '(rest', found') ← go rest;
                      Some (n :: rest', found')
             end) ch;
        Some (mkNode nm pth ch', found)
    end.

Fixpoint findAndRename (newName : string) (nodes : list StorageNode)
    (p : string) : option (list StorageNode * bool) :=
  match nodes with
  | [] => Some ([], false)
  | n :: rest =>
      '(n', found) ← findAndRename_node newName p n;
      if (found : bool) then Some (n' :: rest, true)
      else '(rest', found') ← findAndRename newName rest p;
           Some (n :: rest', found')
  end.

(** [handleRename(path, oldName)], [answer] being what [prompt] returned.
    [None] is returned only when [replace_start] leaves the fragment: the
    code then either rewrites the paths with a pattern that the model does
    not interpret, or throws a [SyntaxError] and keeps the tree. *)
Definition handleRename (tree : list StorageNode) (p oldName : string)
    (answer : option string) : option (list StorageNode) :=
  match answer with
  | None => Some tree
  | Some newName =>
      if negb (truthy newName) || String.eqb newName oldName then Some tree
      else fst <$> findAndRename newName tree p
  end.

(** [traverse]: the paths of a forest in pre-order. *)
Fixpoint traverse_node (n : StorageNode) : list string :=
  match n with
  | mkNode _ pth ch =>
      pth :: (fix go (nodes : list StorageNode) : list string :=
                match nodes with
                | [] => []
                | c :: rest => (traverse_node c ++ go rest)%list
                end) ch
  end.

Fixpoint traverse (nodes : list StorageNode) : list string :=
  match nodes with
  | [] => []
  | n :: rest => (traverse_node n ++ traverse rest)%list
  end.

(** [l.includes(p)] *)
Definition includes (l : list string) (p : string) : bool :=
  existsb (String.eqb p) l.

End LocationTree.

Import LocationTree.

(** Induction over a node and over a forest at once. *)
Section StorageNode_induction.
Variables (P : StorageNode → Prop) (Q : list StorageNode → Prop).
Hypothesis Hnode : ∀ nm pth ch, Q ch → P (mkNode nm pth ch).
Hypothesis Hnil : Q [].
Hypothesis Hcons : ∀ n rest, P n → Q rest → Q (n :: rest).

Fixpoint node_ind2 (n : StorageNode) : P n :=
  match n with
  | mkNode nm pth ch =>
      Hnode nm pth ch
        ((fix go (l : list StorageNode) : Q l :=
            match l with
            | [] => Hnil
            | c :: r => Hcons c r (node_ind2 c) (go r)
            end) ch)
  end.

Fixpoint forest_ind2 (l : list StorageNode) : Q l :=
  match l with
  | [] => Hnil
  | c :: r => Hcons c r (node_ind2 c) (forest_ind2 r)
  end.
End StorageNode_induction.

(** ** The inventory: spools, printers and the persisted bundle *)

Module Inventory.

(** A property holding a value of type [A], [null], or nothing. *)
Inductive value (A : Type) := Undefined | Null | Val (a : A).
Arguments Undefined {A}.
Arguments Null {A}.
Arguments Val {A} a.

(** What the embedding takes from the JavaScript host: the doubles of the
    descriptive payload with the two computations [migrateData] runs on
    them, the random UUID source and the collation order. *)
Class Host := {
  (** IEEE doubles *)
  num : Type;
  (** the descriptive fields this core never reads *)
  extra : Type;
  (** a number other than [0] and [NaN] *)
  num_is_truthy : num → bool;
  lit_1000 : num;
  lit_1_75 : num;
  (** [a + b] *)
  js_add : value num → value num → num;
  (** [calculateLength(filamentWeight, diameter, type)] *)
  calculateLength : num → num → string → num;
  (** [parseFloat(x.toFixed(2))] *)
  toFixed2 : num → num;
  (** the [n]-th string returned by [crypto.randomUUID()] *)
  randomUUID : nat → string;
  (** a UUID is a string of 36 characters *)
  randomUUID_truthy : ∀ n, truthy (randomUUID n) = true;
  (** [a.localeCompare(b)] *)
  localeCompare : string → string → comparison
}.

Section WithHost.
Context `{Host}.

(** [interface Filament], with the legacy properties that [migrateData]
    reads from older bundles. *)
Record Filament := {
  id : string;
  type : string;
  manufacturerColor : string;
  madeDate : string;
  locationPath : option string;
  spoolLength : value num;
  spoolSize : value num;
  totalWeight : value num;
  spoolWeight : value num;
  diameter : value num;
  netWeight : value num;
  storageLocation : option string;
  storageZone : option string;
  storagePosition : option string;
  other : extra
}.

(** [interface Printer]; [id] may be missing in older bundles. *)
Record Printer := {
  printer_id : option string;
  filamentDiameter : value num;
  printer_other : extra
}.

(** The parsed document handed to [migrateData]. *)
Record Bundle := {
  filaments : option (list Filament);
  storageTree : option (list StorageNode);
  idCounters : option Counters;
  printers : option (list Printer)
}.

(** What [migrateData] returns. *)
Record Migrated := {
  m_filaments : list Filament;
  m_storageTree : list StorageNode;
  m_idCounters : Counters;
  m_printers : list Printer
}.

(** The returned object, read as a bundle again. *)
Definition as_bundle (m : Migrated) : Bundle :=
  {| filaments := Some (m_filaments m);
     storageTree := Some (m_storageTree m);
     idCounters := Some (m_idCounters m);
     printers := Some (m_printers m) |}.

(** [{ ...f, id: newId }] *)
Definition with_id (f : Filament) (newId : string) : Filament :=
  {| id := newId; type := type f;
     manufacturerColor := manufacturerColor f; madeDate := madeDate f;
     locationPath := locationPath f; spoolLength := spoolLength f;
     spoolSize := spoolSize f; totalWeight := totalWeight f;
     spoolWeight := spoolWeight f; diameter := diameter f;
     netWeight := netWeight f; storageLocation := storageLocation f;
     storageZone := storageZone f; storagePosition := storagePosition f;
     other := other f |}.

(** [{ ...f, locationPath: p }] *)
Definition with_locationPath (f : Filament) (p : string) : Filament :=
  {| id := id f; type := type f;
     manufacturerColor := manufacturerColor f; madeDate := madeDate f;
     locationPath := Some p; spoolLength := spoolLength f;
     spoolSize := spoolSize f; totalWeight := totalWeight f;
     spoolWeight := spoolWeight f; diameter := diameter f;
     netWeight := netWeight f; storageLocation := storageLocation f;
     storageZone := storageZone f; storagePosition := storagePosition f;
     other := other f |}.

End WithHost.

End Inventory.

Import Inventory.

(** ** The schema migration *)

Module Migrator.

(** *** [String.prototype.split] and [parseInt] *)

(** [s.split('-')] *)
Fixpoint split_dash (s : string) : list string :=
  match s with
  | EmptyString => [EmptyString]
  | String c s' =>
      if Ascii.eqb c "-" then EmptyString :: split_dash s'
      else match split_dash s' with
           | [] => [String c EmptyString]
           | w :: ws => String c w :: ws
           end
  end.

Definition is_space (c : ascii) : bool :=
  let n := nat_of_ascii c in
  ((9 <=? n)%nat && (n <=? 13)%nat) || (n =? 32)%nat.

Fixpoint skip_spaces (s : string) : string :=
  match s with
  | String c s' => if is_space c then skip_spaces s' else s
  | EmptyString => s
  end.

Definition digit_value (radix : nat) (c : ascii) : option nat :=
  let n := nat_of_ascii c in
  let v := if is_digit c then Some (n - 48)
           else if is_upper c then Some (n - 55)
           else if is_lower c then Some (n - 87)
           else None in
  match v with
  | Some d => if (d <? radix)%nat then Some d else None
  | None => None
  end.

(** The longest prefix of digits of [s] in the radix, read as a number
    after the digits [acc] already seen; [None] if there is no digit. *)
Fixpoint parse_digits (radix : nat) (acc : option nat) (s : string)
  : option nat :=
  match s with
  | EmptyString => acc
  | String c s' =>
      match digit_value radix c with
      | Some d => parse_digits radix (Some (radix * default 0 acc + d)) s'
      | None => acc
      end
  end.

(** [parseInt(s)] for a string without [-], as the pieces of a split at
    [-] are: leading white space and a [+] are skipped, [0x] selects
    radix 16, and a string without digits gives [NaN]. *)
Definition parseInt (s : string) : jsnum :=
  let s := skip_spaces s in
  let s := match s with String "+" s' => s' | _ => s end in
  let r := match s with
           | String "0" (String "x" s') | String "0" (String "X" s') =>
               parse_digits 16 None s'
           | _ => parse_digits 10 None s
           end in
  match r with Some n => JNum n | None => JNaN end.

Section WithHost.
Context `{Host}.

(** *** Printers *)

(** [printers.map(p => ({ ...p, id: p.id || crypto.randomUUID(),
    filamentDiameter: p.filamentDiameter ?? 1.75 }))]; [k] UUIDs have
    been drawn before. *)
Fixpoint migratePrinters (k : nat) (ps : list Printer) : list Printer :=
  match ps with
  | [] => []
  | p :: rest =>
      let fd := match filamentDiameter p with
                | Val x => Val x
                | Undefined | Null => Val lit_1_75
                end in
      if truthy_prop (printer_id p) then
        {| printer_id := printer_id p; filamentDiameter := fd;
           printer_other := printer_other p |} :: migratePrinters k rest
      else
        {| printer_id := Some (randomUUID k); filamentDiameter := fd;
           printer_other := printer_other p |}
          :: migratePrinters (S k) rest
  end.

(** *** Legacy spool records *)

Definition is_undefined {A} (v : value A) : bool :=
  match v with Undefined => true | _ => false end.

(** [rawFilaments.length > 0 && rawFilaments.some(f =>
    f.locationPath === undefined || f.spoolLength === undefined)] *)
Definition needsLegacyMigration (rawFilaments : list Filament) : bool :=
  (0 <? length rawFilaments)%nat
  && existsb (fun f => negb (bool_decide (is_Some (locationPath f)))
                       || is_undefined (spoolLength f)) rawFilaments.

(** [v || d] on a numeric property. *)
Definition num_or (v : value num) (d : num) : num :=
  match v with
  | Val x => if num_is_truthy x then x else d
  | Undefined | Null => d
  end.

(** [[a, b, c].filter(Boolean).join(' / ')] *)
Fixpoint join_sep (parts : list string) : string :=
  match parts with
  | [] => ""
  | [x] => x
  | x :: rest => x +:+ sep +:+ join_sep rest
  end.

Definition legacyLocation (f : Filament) : string :=
  join_sep
    (omap (fun o => match o with
                    | Some s => if truthy s then Some s else None
                    | None => None
                    end)
       [storageLocation f; storageZone f; storagePosition f]).

(** The function mapped over the spools by the legacy migration. *)
Definition migrateLegacy (f : Filament) : Filament :=
  (* if (newF.netWeight !== undefined) { ... } *)
  let '(size1, total1, net1) :=
    if is_undefined (netWeight f)
    then (spoolSize f, totalWeight f, netWeight f)
    else (netWeight f,
          match totalWeight f with
          | Val x => Val x
          | Undefined | Null => Val (js_add (netWeight f) (spoolWeight f))
          end,
          Undefined) in
  (* if (newF.spoolLength === undefined) { ... } *)
  let length1 :=
    if is_undefined (spoolLength f)
    then Val (toFixed2 (calculateLength (num_or size1 lit_1000)
                          (num_or (diameter f) lit_1_75)
                          (or_else (type f) "pla")))
    else spoolLength f in
  (* if (newF.locationPath === undefined) { ... } *)
  let '(loc1, sl, sz, sp) :=
    match locationPath f with
    | Some p => (Some p, storageLocation f, storageZone f, storagePosition f)
    | None => (Some (legacyLocation f), None, None, None)
    end in
  {| id := id f; type := type f;
     manufacturerColor := manufacturerColor f; madeDate := madeDate f;
     locationPath := loc1; spoolLength := length1;
     spoolSize := size1; totalWeight := total1;
     spoolWeight := spoolWeight f; diameter := diameter f;
     netWeight := net1; storageLocation := sl;
     storageZone := sz; storagePosition := sp;
     other := other f |}.

(** *** Regenerating the ids (bundles older than version 3) *)

(** [(a.madeDate || '').localeCompare(b.madeDate || '')
     || (a.id || '').localeCompare(b.id || '')] *)
Definition compareFilaments (a b : Filament) : comparison :=
  match localeCompare (or_else (madeDate a) "") (or_else (madeDate b) "") with
  | Eq => localeCompare (or_else (id a) "") (or_else (id b) "")
  | c => c
  end.

(** [Array.prototype.sort] is stable: an element is placed after the
    elements that do not compare greater than it. *)
Fixpoint insert_sorted (x : Filament) (l : list Filament) : list Filament :=
  match l with
  | [] => [x]
  | y :: l' =>
      match compareFilaments x y with
      | Lt => x :: y :: l'
      | _ => y :: insert_sorted x l'
      end
  end.

Definition sortFilaments (l : list Filament) : list Filament :=
  fold_left (fun acc x => insert_sorted x acc) l [].

(** [Object.assign(target, source)] on counters: every property of the
    source overwrites the target's. *)
Definition object_assign (target source : Counters) : Counters :=
  {| colorMap := match colorMap source with
                 | Some m => Some m | None => colorMap target end;
     nextColorNum := match nextColorNum source with
                     | Some n => Some n | None => nextColorNum target end;
     typeCounters := match typeCounters source with
                     | Some m => Some m | None => typeCounters target end;
     version := match version source with
                | Some v => Some v | None => version target end |}.

(** [{ colorMap: {}, nextColorNum: 1, typeCounters: {} }] *)
Definition fresh_counters : Counters :=
  {| colorMap := Some ∅; nextColorNum := Some (JNum 1);
     typeCounters := Some ∅; version := None |}.

(** [sortedFilaments.map(f => ...)], threading [newCounters]. *)
Fixpoint regenerateIds (fs : list Filament) (newCounters : Counters)
  : list Filament * Counters :=
  match fs with
  | [] => ([], newCounters)
  | f :: rest =>
      let r := generateNewIdAndUpdateCounters
                 (type f) (manufacturerColor f) newCounters in
      let newCounters := object_assign newCounters (updatedCounters r) in
      let '(rest', c) := regenerateIds rest newCounters in
      (with_id f (newId r) :: rest', c)
  end.

(** *** Rebuilding the counters from version 3 ids *)

(** The body of the [forEach] of the backfill, for one spool. *)
Definition backfillOne (newCounters : Counters) (f : Filament) : Counters :=
  match split_dash (id f) with
  | type :: spoolNumStr :: colorCode :: _ =>
      if negb (truthy type) || negb (truthy spoolNumStr)
         || negb (truthy colorCode)
      then newCounters
      else
        let tcs := default ∅ (typeCounters newCounters) in
        let tc := default {| nextSpoolNum := JNum 1 |} (tcs !! type) in
        let spoolNum := parseInt spoolNumStr in
        let tcs :=
          <[type := {| nextSpoolNum :=
                         math_max (nextSpoolNum tc) (succ spoolNum) |}]> tcs in
        let cmap := default ∅ (colorMap newCounters) in
        let mfgColor := or_else (manufacturerColor f) "Unknown" in
        if truthy_prop (cmap !! mfgColor) then
          {| colorMap := Some cmap; nextColorNum := nextColorNum newCounters;
             typeCounters := Some tcs; version := version newCounters |}
        else
          let colorNum := parseInt colorCode in
          {| colorMap := Some (<[mfgColor := colorCode]> cmap);
             nextColorNum :=
               Some (math_max (toNumber (nextColorNum newCounters))
                              (succ colorNum));
             typeCounters := Some tcs; version := version newCounters |}
  | _ => newCounters
  end.

Definition backfill (fs : list Filament) : Counters :=
  fold_left backfillOne fs fresh_counters.

(** A record of the current shape: neither [locationPath] nor
    [spoolLength] is [undefined]. *)
Definition is_current (f : Filament) : bool :=
  bool_decide (is_Some (locationPath f))
  && negb (is_undefined (spoolLength f)).

(** *** [migrateData] *)

(** [Object.keys(idCounters).length === 0] *)
Definition no_keys (c : Counters) : bool :=
  match colorMap c, nextColorNum c, typeCounters c, version c with
  | None, None, None, None => true
  | _, _, _, _ => false
  end.

(** [data?.idCounters?.version || 1] *)
Definition dataVersion (data : Bundle) : nat :=
  match idCounters data with
  | Some c => match version c with
              | Some (JNum (S n)) => S n
              | _ => 1
              end
  | None => 1
  end.

(** Which of the two id branches of [migrateData] runs. *)
Inductive idBranch := RegenerateIds | BackfillCounters | KeepCounters.

Definition chooseBranch (data : Bundle) (finalFilaments : list Filament)
  : idBranch :=
  if (dataVersion data <? 3)%nat && (0 <? length finalFilaments)%nat
  then RegenerateIds
  else if no_keys (default empty_counters (idCounters data))
          && (0 <? length finalFilaments)%nat
  then BackfillCounters
  else KeepCounters.

(** [idCounters.version = 3] *)
Definition stamp (c : Counters) : Counters :=
  {| colorMap := colorMap c; nextColorNum := nextColorNum c;
     typeCounters := typeCounters c; version := Some (JNum 3) |}.

(** [migrateData(data)]; [k] UUIDs have been drawn before the call. *)
Definition migrateData (k : nat) (data : Bundle) : Migrated :=
  let rawFilaments := default [] (filaments data) in
  let storageTree := default [] (storageTree data) in
  let idCounters0 := default empty_counters (idCounters data) in
  let printers := migratePrinters k (default [] (printers data)) in
  let legacyMigratedFilaments :=
    if needsLegacyMigration rawFilaments
    then map migrateLegacy rawFilaments
    else rawFilaments in
  let final : list Filament * Counters :=
    match chooseBranch data legacyMigratedFilaments with
    | RegenerateIds =>
        regenerateIds (sortFilaments legacyMigratedFilaments) fresh_counters
    | BackfillCounters =>
        (legacyMigratedFilaments, backfill legacyMigratedFilaments)
    | KeepCounters => (legacyMigratedFilaments, idCounters0)
    end in
  {| m_filaments := final.1; m_storageTree := storageTree;
     m_idCounters := stamp final.2; m_printers := printers |}.

End WithHost.

End Migrator.

Import Migrator.

(** ** The application state and the commit of an edited tree *)

Module App.

Section WithHost.
Context `{Host}.

(** The part of the state of [App] the tree commit works on. *)
Record State := {
  st_filaments : list Filament;
  st_storageTree : list StorageNode
}.

(** [oldPaths.filter(p => !newPaths.includes(p))] *)
Definition deletedPaths (oldTree newTree : list StorageNode) : list string :=
  filter (fun p => includes (traverse newTree) p = false) (traverse oldTree).

(** [deletedPaths.includes(f.locationPath)] *)
Definition is_deleted (deleted : list string) (f : Filament) : bool :=
  match locationPath f with
  | Some p => includes deleted p
  | None => false
  end.

(** [handleSaveStorageTree(newTree)] *)
Definition handleSaveStorageTree (st : State) (newTree : list StorageNode)
  : State :=
  let deleted := deletedPaths (st_storageTree st) newTree in
  let fs :=
    if (0 <? length deleted)%nat
    then map (fun f => if is_deleted deleted f
                       then with_locationPath f "" else f)
           (st_filaments st)
    else st_filaments st in
  {| st_filaments := fs; st_storageTree := newTree |}.

(** The spool refers to a path of the old tree that the new tree
    lacks. *)
Definition orphaned (oldTree newTree : list StorageNode) (f : Filament)
  : Prop :=
  ∃ p, locationPath f = Some p ∧ p ∈ traverse oldTree ∧ p ∉ traverse newTree.

End WithHost.

End App.

Import App.

(** ** Observations used to state the properties *)

Module Observe.

(** The number a counter property stands for once it has gone through the
    allocator's deep copy. *)
Definition spoolOf (x : jsnum) : nat :=
  match toNumber (Some (json_num x)) with JNum n => n | _ => 0 end.

(** The spool number the next call for the type code [T] issues. *)
Definition nextSpool (T : string) (c : Counters) : nat :=
  match typeCounters c ≫= (.!! T) with
  | Some tc => spoolOf (nextSpoolNum tc)
  | None => 1
  end.

(** [n.toString()] of a natural number. *)
Definition dec (n : nat) : string := num_toString (JNum n).

(** The number written by a string of decimal digits. *)
Definition dec_value (s : string) : option nat :=
  Nat.of_uint <$> NilEmpty.uint_of_string s.

Fixpoint no_dash (s : string) : bool :=
  match s with
  | EmptyString => true
  | String c s' => negb (Ascii.eqb c "-") && no_dash s'
  end.

(** Every character is one of [A-Z0-9]. *)
Fixpoint alnum_upper (s : string) : bool :=
  match s with
  | EmptyString => true
  | String c s' => (is_upper c || is_digit c) && alnum_upper s'
  end.

(** A character that a regular expression reads as itself. *)
Definition plain_char (c : ascii) : bool :=
  negb (is_other_syntax c || Ascii.eqb c "(" || Ascii.eqb c ")"
        || Ascii.eqb c ".").

(** A path without regular-expression syntax. *)
Fixpoint plain (s : string) : bool :=
  match s with
  | EmptyString => true
  | String c s' => plain_char c && plain s'
  end.

(** The literal rewriting of a prefix: [old] at the start of [q] is
    replaced by [new]; a string that does not start with [old] is kept. *)
Definition replace_prefix (old new q : string) : string :=
  match strip_prefix old q with
  | Some rest => new +:+ rest
  | None => q
  end.

(** A forest with every path mapped through [f]. *)
Fixpoint map_paths_node (f : string → string) (n : StorageNode) : StorageNode :=
  match n with
  | mkNode nm pth ch =>
      mkNode nm (f pth)
        ((fix go (l : list StorageNode) : list StorageNode :=
            match l with
            | [] => []
            | c :: r => map_paths_node f c :: go r
            end) ch)
  end.

Fixpoint map_paths (f : string → string) (l : list StorageNode)
  : list StorageNode :=
  match l with
  | [] => []
  | c :: r => map_paths_node f c :: map_paths f r
  end.

(** The node that [findAndAdd] and [findAndRename] work on: the first
    node, in pre-order, whose path is [p]. *)
Fixpoint find_node_in (p : string) (n : StorageNode) : option StorageNode :=
  match n with
  | mkNode nm pth ch =>
      if String.eqb pth p then Some n
      else (fix go (l : list StorageNode) : option StorageNode :=
              match l with
              | [] => None
              | c :: r =>
                  match find_node_in p c with
                  | Some m => Some m
                  | None => go r
                  end
              end) ch
  end.

Fixpoint find_node (p : string) (nodes : list StorageNode)
  : option StorageNode :=
  match nodes with
  | [] => None
  | c :: r =>
      match find_node_in p c with
      | Some m => Some m
      | None => find_node p r
      end
  end.

(** Where a node stands in a forest: the paths of the nodes above it, from
    the root down to its parent, with its own name and path. *)
Record Position := {
  ancestors : list string;
  node_name : string;
  node_path : string
}.

(** The positions of a forest in pre-order, [anc] being the paths above the
    forest. The list determines the forest: the nodes, their names and
    paths, their order and their nesting. *)
Fixpoint positions_node (anc : list string) (n : StorageNode)
  : list Position :=
  match n with
  | mkNode nm pth ch =>
      {| ancestors := anc; node_name := nm; node_path := pth |}
      :: (fix go (l : list StorageNode) : list Position :=
            match l with
            | [] => []
            | c :: r => (positions_node (anc ++ [pth]) c ++ go r)%list
            end) ch
  end.

Fixpoint positions (anc : list string) (nodes : list StorageNode)
  : list Position :=
  match nodes with
  | [] => []
  | n :: r => (positions_node anc n ++ positions anc r)%list
  end.

(** Neither the node at the position nor a node above it has the path
    [p]. *)
Definition outside (p : string) (e : Position) : bool :=
  negb (includes (ancestors e) p) && negb (String.eqb (node_path e) p).

(** The forest with its first node, in pre-order, whose path is [p]
    replaced by [g] of that node; the boolean tells whether there is one. *)
Fixpoint replace_first_node (p : string) (g : StorageNode → StorageNode)
    (n : StorageNode) : StorageNode * bool :=
  match n with
  | mkNode nm pth ch =>
      if String.eqb pth p then (g n, true)
      else
        let '(ch', found) :=
          (fix go (l : list StorageNode) : list StorageNode * bool :=
             match l with
             | [] => ([], false)
             | c :: r =>
                 let '(c', found) := replace_first_node p g c in
                 if found then (c' :: r, true)
                 else let '(r', found') := go r in (c :: r', found')
             end) ch in
        (mkNode nm pth ch', found)
  end.

Fixpoint replace_first (p : string) (g : StorageNode → StorageNode)
    (l : list StorageNode) : list StorageNode * bool :=
  match l with
  | [] => ([], false)
  | c :: r =>
      let '(c', found) := replace_first_node p g c in
      if found then (c' :: r, true)
      else let '(r', found') := replace_first p g r in (c :: r', found')
  end.

(** The node with one more child, after the children it has. *)
Definition with_child (newNode m : StorageNode) : StorageNode :=
  mkNode (name m) (path m) (children m ++ [newNode]).

(** The node with the name [newName] and the path [newPath], and with the
    prefix [path m] of every path below it replaced by [newPath]. *)
Definition renamed (newName newPath : string) (m : StorageNode)
  : StorageNode :=
  mkNode newName newPath
    (map_paths (replace_prefix (path m) newPath) (children m)).

(** The names that every object inherits from [Object.prototype]: reading
    one of them from a map that does not have the key gives a value that is
    not [undefined]. *)
Definition inherited (key : string) : bool :=
  existsb (String.eqb key)
    [ "constructor"; "__proto__"; "hasOwnProperty"; "isPrototypeOf";
      "propertyIsEnumerable"; "toLocaleString"; "toString"; "valueOf";
      "__defineGetter__"; "__defineSetter__"; "__lookupGetter__";
      "__lookupSetter__" ].

(** The next [k] increments of every spool counter are exact: [k] calls of
    the allocator leave every counter at [exact_limit] at most. *)
Definition exact_counting (k : nat) (c : Counters) : Prop :=
  (N.of_nat k < exact_limit)%N
  ∧ map_Forall
      (λ _ tc,
         (N.of_nat (spoolOf (nextSpoolNum tc)) + N.of_nat k ≤ exact_limit)%N)
      (default ∅ (typeCounters c)).

(** Scenarios C and D: Shelf1 holds BoxA, which holds Bin1, and BoxA2. *)
Definition scenarioTree : list StorageNode :=
  [ mkNode "Shelf1" "Shelf1"
      [ mkNode "BoxA" "Shelf1 / BoxA"
          [ mkNode "Bin1" "Shelf1 / BoxA / Bin1" [] ];
        mkNode "BoxA2" "Shelf1 / BoxA2" [] ] ].

(** A location whose name holds a parenthesis, with one bin in it. *)
Definition parenTree : list StorageNode :=
  [ mkNode "Box (1)" "Box (1)" [ mkNode "Bin1" "Box (1) / Bin1" [] ] ].

End Observe.

Import Observe.

(** ** A host and the data of the scenarios *)

Module Reference.

(** A host to run the scenarios on. Its payload numbers are fixed-point
    numbers with three decimals, kept as binary naturals, and its collation is
    the
    order of the character codes, with which [localeCompare] agrees on
    strings of digits, dashes and upper-case letters. No scenario has a
    legacy record, so the length formula is never evaluated there; the host
    returns the weight for it. *)
#[export] Instance refHost : Host := {|
  num := N;
  extra := string;
  num_is_truthy := λ n, negb (n =? 0)%N;
  lit_1000 := 1000000%N;
  lit_1_75 := 1750%N;
  js_add := λ a b, match a, b with Val x, Val y => (x + y)%N | _, _ => 0%N end;
  calculateLength := λ w _ _, w;
  toFixed2 := λ x, x;
  randomUUID := λ n, "uuid-" +:+ dec n;
  randomUUID_truthy := λ n, eq_refl;
  localeCompare := String.compare
|}.

(** A spool of the current shape with the given id, material type, color
    label and location: 1 kg of 1.75 mm filament, 330 m long, on a spool of
    200 g. *)
Definition spool (i t col loc : string) : Filament :=
  {| id := i; type := t; manufacturerColor := col; madeDate := "2025-01-01";
     locationPath := Some loc; spoolLength := Val 330000%N;
     spoolSize := Val 1000000%N; totalWeight := Val 1200000%N;
     spoolWeight := Val 200000%N; diameter := Val 1750%N;
     netWeight := Undefined; storageLocation := None; storageZone := None;
     storagePosition := None; other := "" |}.

(** Scenario E: two spools with version 3 ids and no counter state. *)
Definition bundleE : Bundle :=
  {| filaments := Some [ spool "PLA-0003-002" "PLA" "Galaxy Black" "";
                         spool "ABS-0001-001" "ABS" "Arctic White" "" ];
     storageTree := None; idCounters := None; printers := None |}.

(** The same bundle with an empty counter object. *)
Definition bundleE_empty : Bundle :=
  {| filaments := filaments bundleE; storageTree := None;
     idCounters := Some empty_counters; printers := None |}.

(** Scenarios C and D: a spool in BoxA, one in Bin1, one in the sibling
    BoxA2, and one whose location is below BoxA but is no node of the
    tree. *)
Definition stateCD : State :=
  {| st_filaments :=
       [ spool "PLA-0001-001" "PLA" "Galaxy Black" "Shelf1 / BoxA";
         spool "PLA-0002-001" "PLA" "Galaxy Black" "Shelf1 / BoxA / Bin1";
         spool "PLA-0003-001" "PLA" "Galaxy Black" "Shelf1 / BoxA2";
         spool "PLA-0004-001" "PLA" "Galaxy Black" "Shelf1 / BoxA / Bin2" ];
     st_storageTree := scenarioTree |}.

(** A heap that holds one counter state, and the reference to it. *)
Definition callerCounters : Counters :=
  {| colorMap := Some {[ "Galaxy Black" := "001" ]};
     nextColorNum := Some (JNum 2);
     typeCounters := Some {[ "PLA" := {| nextSpoolNum := JNum 2 |} ]};
     version := Some (JNum 3) |}.

Definition callerHeap : heap := (JSON_parse callerCounters ∅).2.

Definition callerRef : loc := (JSON_parse callerCounters ∅).1.

End Reference.

Import Reference.

(** ** More of the JavaScript string library *)

Module Text.

Definition lower_char (c : ascii) : ascii :=
  if is_upper c then ascii_of_nat (nat_of_ascii c + 32) else c.

(** [s.toLowerCase()] of an ASCII text; a character outside ASCII is kept
    by the model. *)
Fixpoint toLowerCase (s : string) : string :=
  match s with
  | EmptyString => EmptyString
  | String c s' => String (lower_char c) (toLowerCase s')
  end.

(** [s.startsWith(p)] *)
Definition startsWith (s p : string) : bool :=
  if strip_prefix p s is Some _ then true else false.

(** [s.includes(k)] on strings: [k] starts at some position of [s]. *)
Fixpoint str_includes (s k : string) : bool :=
  startsWith s k
  || match s with
     | EmptyString => false
     | String _ s' => str_includes s' k
     end.

(** [s.split(sep)] for a separator that is not empty. The occurrences of
    [sep] are found from left to right and do not overlap; [skip] counts the
    characters of the occurrence found last that are still to be passed
    over. The head of the result is the piece being read. *)
Fixpoint split_from (sep : string) (skip : nat) (s : string) : list string :=
  match s with
  | EmptyString => [EmptyString]
  | String c s' =>
      match skip with
      | S k => split_from sep k s'
      | O =>
          if startsWith s sep
          then EmptyString :: split_from sep (String.length sep - 1) s'
          else match split_from sep 0 s' with
               | w :: ws => String c w :: ws
               | [] => [String c EmptyString]
               end
      end
  end.

Definition split (sep s : string) : list string := split_from sep 0 s.

(** [parts.join(sep)] *)
Fixpoint join (sep : string) (parts : list string) : string :=
  match parts with
  | [] => ""
  | [x] => x
  | x :: rest => x +:+ sep +:+ join sep rest
  end.

(** [s.replace(/[...]/g, r)] for a class of single characters: every
    character of the class is replaced by the character [r]. *)
Fixpoint replace_class (cls : ascii → bool) (r : ascii) (s : string) : string :=
  match s with
  | EmptyString => EmptyString
  | String c s' =>
      String (if cls c then r else c) (replace_class cls r s')
  end.

(** The comparison behind [Array.prototype.sort()] without a comparator:
    the order of the character codes. *)
Fixpoint insert_string (x : string) (l : list string) : list string :=
  match l with
  | [] => [x]
  | y :: l' =>
      match String.compare x y with
      | Lt => x :: y :: l'
      | _ => y :: insert_string x l'
      end
  end.

(** [l.sort()] on strings. *)
Definition sort (l : list string) : list string :=
  fold_left (fun acc x => insert_string x acc) l [].

(** [[...new Set(l)]]: the first occurrence of every element, in order. *)
Fixpoint unique_from (seen l : list string) : list string :=
  match l with
  | [] => []
  | x :: rest =>
      if includes seen x then unique_from seen rest
      else x :: unique_from (x :: seen) rest
  end.

Definition unique (l : list string) : list string := unique_from [] l.

End Text.

Import Text.

(** ** Spools and printers of the running application

    The handlers of the running application work on values of the
    interfaces [Filament] and [Printer] as they are declared; the legacy
    properties that only [migrateData] reads are no part of them. *)

Module Spool.

Section WithHost.
Context `{Host}.

#[local] Set Implicit Arguments.
#[local] Set Maximal Implicit Insertion.

(** [interface Filament], with [id] of type [I]: [string] for a spool of the
    inventory, [option string] for the [Omit<Filament, 'id'> & { id?:
    string }] that the form hands to [saveFilament]. *)
Record FilamentOf (I : Type) := {
  id : I;
  status : string;
  manufacturer : string;
  manufacturerColor : string;
  type : string;
  color : string;
  colorHex : string;
  madeDate : string;
  totalWeight : num;
  spoolWeight : num;
  length : num;
  diameter : num;
  diameterTolerance : num;
  standardDeviation : num;
  ovality : num;
  price : num;
  spoolSize : num;
  spoolLength : num;
  techSheetUrl : string;
  madeIn : string;
  extruderTemp : string;
  heatbedTemp : string;
  barcode : string;
  assignedPrinterId : option string;
  locationPath : string;
  notes : string
}.


(** [{ ...f, id: i }] *)
Definition with_id {I J} (f : FilamentOf I) (i : J) : FilamentOf J :=
  {| id := i; status := status f; manufacturer := manufacturer f;
     manufacturerColor := manufacturerColor f; type := type f;
     color := color f; colorHex := colorHex f; madeDate := madeDate f;
     totalWeight := totalWeight f; spoolWeight := spoolWeight f;
     length := length f; diameter := diameter f;
     diameterTolerance := diameterTolerance f;
     standardDeviation := standardDeviation f; ovality := ovality f;
     price := price f; spoolSize := spoolSize f;
     spoolLength := spoolLength f; techSheetUrl := techSheetUrl f;
     madeIn := madeIn f; extruderTemp := extruderTemp f;
     heatbedTemp := heatbedTemp f; barcode := barcode f;
     assignedPrinterId := assignedPrinterId f;
     locationPath := locationPath f; notes := notes f |}.

(** [{ ...f, status: s, assignedPrinterId: p }] *)
Definition with_status_printer {I} (f : FilamentOf I) (s : string)
    (p : option string) : FilamentOf I :=
  {| id := id f; status := s; manufacturer := manufacturer f;
     manufacturerColor := manufacturerColor f; type := type f;
     color := color f; colorHex := colorHex f; madeDate := madeDate f;
     totalWeight := totalWeight f; spoolWeight := spoolWeight f;
     length := length f; diameter := diameter f;
     diameterTolerance := diameterTolerance f;
     standardDeviation := standardDeviation f; ovality := ovality f;
     price := price f; spoolSize := spoolSize f;
     spoolLength := spoolLength f; techSheetUrl := techSheetUrl f;
     madeIn := madeIn f; extruderTemp := extruderTemp f;
     heatbedTemp := heatbedTemp f; barcode := barcode f;
     assignedPrinterId := p;
     locationPath := locationPath f; notes := notes f |}.

(** [{ ...f, status: 'Angebrochen', assignedPrinterId: undefined }] *)
Definition unassign {I} (f : FilamentOf I) : FilamentOf I :=
  with_status_printer f "Angebrochen" None.

(** [{ ...f, totalWeight: w }] *)
Definition with_totalWeight {I} (f : FilamentOf I) (w : num) : FilamentOf I :=
  {| id := id f; status := status f; manufacturer := manufacturer f;
     manufacturerColor := manufacturerColor f; type := type f;
     color := color f; colorHex := colorHex f; madeDate := madeDate f;
     totalWeight := w; spoolWeight := spoolWeight f;
     length := length f; diameter := diameter f;
     diameterTolerance := diameterTolerance f;
     standardDeviation := standardDeviation f; ovality := ovality f;
     price := price f; spoolSize := spoolSize f;
     spoolLength := spoolLength f; techSheetUrl := techSheetUrl f;
     madeIn := madeIn f; extruderTemp := extruderTemp f;
     heatbedTemp := heatbedTemp f; barcode := barcode f;
     assignedPrinterId := assignedPrinterId f;
     locationPath := locationPath f; notes := notes f |}.

(** [status === 'Auf Drucker'] *)
Definition onPrinter {I} (f : FilamentOf I) : bool :=
  String.eqb (status f) "Auf Drucker".

End WithHost.

(** A spool of the inventory, and the data of the form. *)
Abbreviation Filament := (FilamentOf string).
Abbreviation FilamentData := (FilamentOf (option string)).

End Spool.

Module Device.

Section WithHost.
Context `{Host}.

(** [interface Printer] *)
Record Printer := {
  id : string;
  name : string;
  manufacturer : string;
  nozzle : string;
  filamentDiameter : num
}.

End WithHost.

End Device.

(** ** The handlers of [App]

    The component state is a record with one field for each [useState]
    cell the handlers below read or write; a handler maps the state of the
    render it was created in to the state after its updates. What
    [window.confirm] returns is an input, the text of an [alert] an
    output. *)

Module AppHandlers.

Section WithHost.
Context `{Host}.

Abbreviation Filament := Spool.Filament.
Abbreviation FilamentData := Spool.FilamentData.
Abbreviation Printer := Device.Printer.

Inductive AppStatus := LOADING | FIRST_RUN | READY.

(** ['list' | 'detail' | 'add' | 'edit' | 'storage_manager' |
    'printer_manager'] *)
Inductive AppMode :=
  | mode_list | mode_detail | mode_add | mode_edit
  | mode_storage_manager | mode_printer_manager.

Record AppState := {
  appStatus : AppStatus;
  filaments : list Filament;
  storageTree : list StorageNode;
  printers : list Printer;
  idCounters : Counters;
  mode : AppMode;
  currentFilamentId : option string;
  initialDataForForm : option FilamentData;
  hasUnsavedChanges : bool;
  isDirty : bool;
  locationFilter : string;
  typeFilter : string;
  colorFilter : string;
  printingFilament : option Filament;
  printingLocation : option string;
  isScanning : bool
}.

(** *** The state setters *)

Definition setHasUnsavedChanges (b : bool) (s : AppState) : AppState :=
  {| appStatus := appStatus s; filaments := filaments s;
     storageTree := storageTree s; printers := printers s;
     idCounters := idCounters s; mode := mode s;
     currentFilamentId := currentFilamentId s;
     initialDataForForm := initialDataForForm s;
     hasUnsavedChanges := b; isDirty := isDirty s;
     locationFilter := locationFilter s; typeFilter := typeFilter s;
     colorFilter := colorFilter s; printingFilament := printingFilament s;
     printingLocation := printingLocation s; isScanning := isScanning s |}.

(** [appStatus === 'READY' && setHasUnsavedChanges(true)] *)
Definition markUnsaved (s : AppState) : AppState :=
  match appStatus s with
  | READY => setHasUnsavedChanges true s
  | _ => s
  end.

Definition setFilamentsInternal (fs : list Filament) (s : AppState)
  : AppState :=
  {| appStatus := appStatus s; filaments := fs;
     storageTree := storageTree s; printers := printers s;
     idCounters := idCounters s; mode := mode s;
     currentFilamentId := currentFilamentId s;
     initialDataForForm := initialDataForForm s;
     hasUnsavedChanges := hasUnsavedChanges s; isDirty := isDirty s;
     locationFilter := locationFilter s; typeFilter := typeFilter s;
     colorFilter := colorFilter s; printingFilament := printingFilament s;
     printingLocation := printingLocation s; isScanning := isScanning s |}.

Definition setPrintersInternal (ps : list Printer) (s : AppState)
  : AppState :=
  {| appStatus := appStatus s; filaments := filaments s;
     storageTree := storageTree s; printers := ps;
     idCounters := idCounters s; mode := mode s;
     currentFilamentId := currentFilamentId s;
     initialDataForForm := initialDataForForm s;
     hasUnsavedChanges := hasUnsavedChanges s; isDirty := isDirty s;
     locationFilter := locationFilter s; typeFilter := typeFilter s;
     colorFilter := colorFilter s; printingFilament := printingFilament s;
     printingLocation := printingLocation s; isScanning := isScanning s |}.

Definition setIdCountersInternal (c : Counters) (s : AppState) : AppState :=
  {| appStatus := appStatus s; filaments := filaments s;
     storageTree := storageTree s; printers := printers s;
     idCounters := c; mode := mode s;
     currentFilamentId := currentFilamentId s;
     initialDataForForm := initialDataForForm s;
     hasUnsavedChanges := hasUnsavedChanges s; isDirty := isDirty s;
     locationFilter := locationFilter s; typeFilter := typeFilter s;
     colorFilter := colorFilter s; printingFilament := printingFilament s;
     printingLocation := printingLocation s; isScanning := isScanning s |}.

(** [setFilaments], [setPrinters], [setIdCounters]: the cell is updated,
    then [markUnsaved] runs. An updater function is applied to the value of
    the cell. *)
Definition setFilaments (upd : list Filament → list Filament) (s : AppState)
  : AppState :=
  markUnsaved (setFilamentsInternal (upd (filaments s)) s).

Definition setPrinters (ps : list Printer) (s : AppState) : AppState :=
  markUnsaved (setPrintersInternal ps s).

Definition setIdCounters (c : Counters) (s : AppState) : AppState :=
  markUnsaved (setIdCountersInternal c s).

Definition setMode (m : AppMode) (s : AppState) : AppState :=
  {| appStatus := appStatus s; filaments := filaments s;
     storageTree := storageTree s; printers := printers s;
     idCounters := idCounters s; mode := m;
     currentFilamentId := currentFilamentId s;
     initialDataForForm := initialDataForForm s;
     hasUnsavedChanges := hasUnsavedChanges s; isDirty := isDirty s;
     locationFilter := locationFilter s; typeFilter := typeFilter s;
     colorFilter := colorFilter s; printingFilament := printingFilament s;
     printingLocation := printingLocation s; isScanning := isScanning s |}.

Definition setCurrentFilamentId (i : option string) (s : AppState)
  : AppState :=
  {| appStatus := appStatus s; filaments := filaments s;
     storageTree := storageTree s; printers := printers s;
     idCounters := idCounters s; mode := mode s;
     currentFilamentId := i;
     initialDataForForm := initialDataForForm s;
     hasUnsavedChanges := hasUnsavedChanges s; isDirty := isDirty s;
     locationFilter := locationFilter s; typeFilter := typeFilter s;
     colorFilter := colorFilter s; printingFilament := printingFilament s;
     printingLocation := printingLocation s; isScanning := isScanning s |}.

Definition setInitialDataForForm (d : option FilamentData) (s : AppState)
  : AppState :=
  {| appStatus := appStatus s; filaments := filaments s;
     storageTree := storageTree s; printers := printers s;
     idCounters := idCounters s; mode := mode s;
     currentFilamentId := currentFilamentId s;
     initialDataForForm := d;
     hasUnsavedChanges := hasUnsavedChanges s; isDirty := isDirty s;
     locationFilter := locationFilter s; typeFilter := typeFilter s;
     colorFilter := colorFilter s; printingFilament := printingFilament s;
     printingLocation := printingLocation s; isScanning := isScanning s |}.

Definition setIsDirty (b : bool) (s : AppState) : AppState :=
  {| appStatus := appStatus s; filaments := filaments s;
     storageTree := storageTree s; printers := printers s;
     idCounters := idCounters s; mode := mode s;
     currentFilamentId := currentFilamentId s;
     initialDataForForm := initialDataForForm s;
     hasUnsavedChanges := hasUnsavedChanges s; isDirty := b;
     locationFilter := locationFilter s; typeFilter := typeFilter s;
     colorFilter := colorFilter s; printingFilament := printingFilament s;
     printingLocation := printingLocation s; isScanning := isScanning s |}.

Definition setLocationFilter (p : string) (s : AppState) : AppState :=
  {| appStatus := appStatus s; filaments := filaments s;
     storageTree := storageTree s; printers := printers s;
     idCounters := idCounters s; mode := mode s;
     currentFilamentId := currentFilamentId s;
     initialDataForForm := initialDataForForm s;
     hasUnsavedChanges := hasUnsavedChanges s; isDirty := isDirty s;
     locationFilter := p; typeFilter := typeFilter s;
     colorFilter := colorFilter s; printingFilament := printingFilament s;
     printingLocation := printingLocation s; isScanning := isScanning s |}.

Definition setIsScanning (b : bool) (s : AppState) : AppState :=
  {| appStatus := appStatus s; filaments := filaments s;
     storageTree := storageTree s; printers := printers s;
     idCounters := idCounters s; mode := mode s;
     currentFilamentId := currentFilamentId s;
     initialDataForForm := initialDataForForm s;
     hasUnsavedChanges := hasUnsavedChanges s; isDirty := isDirty s;
     locationFilter := locationFilter s; typeFilter := typeFilter s;
     colorFilter := colorFilter s; printingFilament := printingFilament s;
     printingLocation := printingLocation s; isScanning := b |}.

(** *** Saving, deleting and editing a spool *)

(** [f.id === cleanFilamentData.id] *)
Definition same_id (f : Filament) (i : option string) : bool :=
  bool_decide (Some (Spool.id f) = i).

(** [filaments.find(f => f.id === i)] *)
Definition find_by_id (fs : list Filament) (i : option string)
  : option Filament :=
  List.find (fun f => same_id f i) fs.

(** [const cleanFilamentData = { ...filamentData };
    if (cleanFilamentData.status !== 'Auf Drucker')
      cleanFilamentData.assignedPrinterId = undefined;] *)
Definition cleanFilamentData (filamentData : FilamentData) : FilamentData :=
  if Spool.onPrinter filamentData then filamentData
  else Spool.with_status_printer filamentData (Spool.status filamentData) None.

(** The updater of the edit that leaves type and manufacturer color as
    they are. The data come from [handleSubmit] of the form, which writes
    every property of the interface, so in [{ ...f, ...cleanFilamentData }]
    every property comes from [cleanFilamentData], whose [id] is the one of
    [f]. *)
Definition editInPlace (clean : FilamentData) (f : Filament) : Filament :=
  if Spool.onPrinter clean
     && bool_decide (Spool.assignedPrinterId f = Spool.assignedPrinterId clean)
     && negb (same_id f (Spool.id clean))
  then Spool.unassign f
  else if same_id f (Spool.id clean)
  then Spool.with_id clean (default (Spool.id f) (Spool.id clean))
  else f.

(** The updater of the branch that adds a spool. *)
Definition appendNew (newFilament : Filament) (prev : list Filament)
  : list Filament :=
  let updatedList :=
    if Spool.onPrinter newFilament
       && truthy_prop (Spool.assignedPrinterId newFilament)
    then map (fun f =>
                if bool_decide (Spool.assignedPrinterId f
                                = Spool.assignedPrinterId newFilament)
                then Spool.unassign f else f) prev
    else prev in
  (updatedList ++ [newFilament])%list.

(** [saveFilament(filamentData)]; [confirmed] is what [window.confirm]
    returns when it is asked. *)
Definition saveFilament (s : AppState) (filamentData : FilamentData)
    (confirmed : bool) : AppState :=
  let isEditing := truthy_prop (Spool.id filamentData) in
  let clean := cleanFilamentData filamentData in
  let finish (s : AppState) :=
    setIsDirty true (setInitialDataForForm None s) in
  if isEditing then
    match find_by_id (filaments s) (Spool.id clean) with
    | None => s
    | Some originalFilament =>
        let hasCoreChange :=
          negb (String.eqb (Spool.type originalFilament) (Spool.type clean))
          || negb (String.eqb (Spool.manufacturerColor originalFilament)
                              (Spool.manufacturerColor clean)) in
        if hasCoreChange then
          if negb confirmed then s
          else
            let r := generateNewIdAndUpdateCounters
                       (Spool.type clean) (Spool.manufacturerColor clean)
                       (idCounters s) in
            let updatedFilamentWithNewId : Filament :=
              Spool.with_id clean (newId r) in
            let s := setIdCounters (updatedCounters r) s in
            let s :=
              setFilaments
                (map (fun f =>
                        if String.eqb (Spool.id f) (Spool.id originalFilament)
                        then updatedFilamentWithNewId else f)) s in
            let s := setCurrentFilamentId (Some (newId r)) s in
            finish (setMode mode_detail s)
        else
          let s := setFilaments (map (editInPlace clean)) s in
          let s := setCurrentFilamentId (Spool.id clean) s in
          finish (setMode mode_detail s)
    end
  else
    let r := generateNewIdAndUpdateCounters
               (Spool.type clean) (Spool.manufacturerColor clean)
               (idCounters s) in
    let newFilament : Filament := Spool.with_id clean (newId r) in
    let s := setIdCounters (updatedCounters r) s in
    let s := setFilaments (appendNew newFilament) s in
    let s := setCurrentFilamentId (Some (newId r)) s in
    finish (setMode mode_detail s).

(** [deleteFilament(id)] *)
Definition deleteFilament (s : AppState) (i : string) (confirmed : bool)
  : AppState :=
  if confirmed then
    let s :=
      setFilaments
        (fun _ => filter (fun f => Spool.id f ≠ i) (filaments s)) s in
    setIsDirty true (setCurrentFilamentId None (setMode mode_list s))
  else s.

(** [handleStartEdit(id)] *)
Definition handleStartEdit (s : AppState) (i : string) : AppState :=
  let found := find_by_id (filaments s) (Some i) in
  let s :=
    setInitialDataForForm
      ((fun f : Filament => Spool.with_id f (Some (Spool.id f))) <$> found) s in
  setMode mode_edit (setCurrentFilamentId (Some i) s).

(** [handleUpdateWeight(id, newTotalWeight)] *)
Definition handleUpdateWeight (s : AppState) (i : string)
    (newTotalWeight : num) : AppState :=
  setIsDirty true
    (setFilaments
       (map (fun f => if String.eqb (Spool.id f) i
                      then Spool.with_totalWeight f newTotalWeight else f)) s).

(** [handleCopy(id)]: the form is opened on the spool without its id. *)
Definition handleCopy (s : AppState) (i : string) : AppState :=
  match find_by_id (filaments s) (Some i) with
  | Some toCopy =>
      let copyData : FilamentData := Spool.with_id toCopy None in
      setMode mode_add
        (setCurrentFilamentId None (setInitialDataForForm (Some copyData) s))
  | None => s
  end.

Definition handleViewDetail (s : AppState) (i : string) : AppState :=
  setMode mode_detail (setCurrentFilamentId (Some i) s).

Definition handleGoToOverview (s : AppState) : AppState :=
  setCurrentFilamentId None (setMode mode_list s).

(** [handleSelectLocation(path)] *)
Definition handleSelectLocation (s : AppState) (p : string) : AppState :=
  handleGoToOverview (setLocationFilter p s).

(** *** Committing the printers *)

(** [printers.filter(oldP => !newPrinters.some(newP => newP.id ===
    oldP.id)).map(p => p.id)] *)
Definition deletedPrinterIds (oldPrinters newPrinters : list Printer)
  : list string :=
  map Device.id
    (filter (fun oldP =>
               existsb (fun newP => String.eqb (Device.id newP)
                                               (Device.id oldP))
                 newPrinters = false)
       oldPrinters).

(** [f.assignedPrinterId && deletedPrinterIds.includes(f.assignedPrinterId)] *)
Definition on_deleted_printer (deleted : list string) (f : Filament) : bool :=
  match Spool.assignedPrinterId f with
  | Some p => truthy p && includes deleted p
  | None => false
  end.

(** [handleSavePrinters(newPrinters)] *)
Definition handleSavePrinters (s : AppState) (newPrinters : list Printer)
  : AppState :=
  let deleted := deletedPrinterIds (printers s) newPrinters in
  let s :=
    if (0 <? List.length deleted)%nat
    then setFilaments
           (map (fun f => if on_deleted_printer deleted f
                          then Spool.unassign f else f)) s
    else s in
  setIsDirty true (setMode mode_list (setPrinters newPrinters s)).

(** *** The derived lists and the filters *)

(** [allLocationPaths] *)
Definition allLocationPaths (s : AppState) : list string :=
  sort (traverse (storageTree s)).

(** [[...new Set(filaments.map(f => f.type).filter(Boolean))].sort()] *)
Definition allTypes (s : AppState) : list string :=
  sort (unique (filter (fun t => truthy t = true)
                  (map Spool.type (filaments s)))).

(** [[...new Set(filaments.flatMap(f => [f.color, f.manufacturerColor])
    .filter(Boolean))].sort()] *)
Definition allColors (s : AppState) : list string :=
  sort (unique (filter (fun t => truthy t = true)
                  (flat_map (fun f : Filament =>
                               [Spool.color f; Spool.manufacturerColor f])
                     (filaments s)))).

(** The first filter of [filteredFilaments]. *)
Definition matchesLocation (locationFilter : string) (f : Filament) : bool :=
  if negb (truthy locationFilter) then true
  else if String.eqb locationFilter "__UNSORTED__"
  then negb (truthy (Spool.locationPath f))
  else truthy (Spool.locationPath f)
       && startsWith (Spool.locationPath f) locationFilter.

(** The second filter. *)
Definition matchesType (typeFilter : string) (f : Filament) : bool :=
  negb (truthy typeFilter)
  || str_includes (toLowerCase (Spool.type f)) (toLowerCase typeFilter).

(** The third filter. *)
Definition matchesColor (colorFilter : string) (f : Filament) : bool :=
  negb (truthy colorFilter)
  || (truthy (Spool.manufacturerColor f)
      && str_includes (toLowerCase (Spool.manufacturerColor f))
           (toLowerCase colorFilter))
  || (truthy (Spool.color f)
      && str_includes (toLowerCase (Spool.color f))
           (toLowerCase colorFilter)).

(** [filteredFilaments] *)
Definition filteredFilaments (s : AppState) : list Filament :=
  filter (fun f => matchesColor (colorFilter s) f = true)
    (filter (fun f => matchesType (typeFilter s) f = true)
       (filter (fun f => matchesLocation (locationFilter s) f = true)
          (filaments s))).

(** *** Scanning a label *)

(** What a scan leaves on the screen besides the new state. *)
Inductive ScanAlert :=
  | UnknownFormat (scannedText : string)
  | SpoolNotFound
  | LocationNotFound.

(** [handleGlobalScan(scannedText)] *)
Definition handleGlobalScan (s : AppState) (scannedText : string)
  : AppState * option ScanAlert :=
  let s := setIsScanning false s in
  let parts := split "::" scannedText in
  if (List.length parts <? 2)%nat then (s, Some (UnknownFormat scannedText))
  else
    let type := default "" (head parts) in
    let data := join "::" (tail parts) in
    if String.eqb type "FMT_SPOOL" then
      if existsb (fun f => String.eqb (Spool.id f) data) (filaments s)
      then (handleViewDetail s data, None)
      else (s, Some SpoolNotFound)
    else if String.eqb type "FMT_LOCATION" then
      if includes (allLocationPaths s) data || String.eqb data ""
      then (handleGoToOverview (setLocationFilter data s), None)
      else (s, Some LocationNotFound)
    else (s, Some (UnknownFormat scannedText)).

End WithHost.

End AppHandlers.

(** ** The labels *)

Module Labels.

(** [`FMT_SPOOL::${filament.id}`], the content of the QR code that
    [PrintLabelView] draws. *)
Definition spoolQrContent (id : string) : string := "FMT_SPOOL::" +:+ id.

(** [`FMT_LOCATION::${locationPath}`], the content of the QR code that
    [LocationLabelPreview] draws. *)
Definition locationQrContent (locationPath : string) : string :=
  "FMT_LOCATION::" +:+ locationPath.

(** A character of the class that [svgFilename] replaces: slash,
    backslash, question mark, percent sign, asterisk, colon, bar, double
    quote, angle brackets and ampersand. *)
Definition is_reserved (c : ascii) : bool :=
  existsb (Ascii.eqb c)
    ["/"; "\"; "?"; "%"; "*"; ":"; "|"; "034"; "<"; ">"; "&"]%char.

(** [(s || '').replace(/[...]/g, '_')] with that class. *)
Definition fileNamePart (s : string) : string :=
  replace_class is_reserved "_" s.

(** [svgFilename] of [PrintLabelView] *)
Definition svgFilename (type manufacturer manufacturerColor : string)
  : string :=
  fileNamePart type +:+ "_" +:+ fileNamePart manufacturer +:+ "_"
  +:+ fileNamePart manufacturerColor +:+ ".svg".

(** [escape]: the five characters that XML reserves are written as
    entities. *)
Definition escape_char (c : ascii) : string :=
  if Ascii.eqb c "<" then "&lt;"
  else if Ascii.eqb c ">" then "&gt;"
  else if Ascii.eqb c "&" then "&amp;"
  else if Ascii.eqb c "'" then "&apos;"
  else if Ascii.eqb c "034" then "&quot;"
  else String c EmptyString.

Fixpoint escape (s : string) : string :=
  match s with
  | EmptyString => EmptyString
  | String c s' => escape_char c +:+ escape s'
  end.

End Labels.

(** ** The printer manager *)

Module PrinterManager.

Section WithHost.
Context `{Host}.

Abbreviation Printer := Device.Printer.

(** The property names that [handleUpdate] accepts:
    [keyof Omit<Printer, 'id'>]. *)
Inductive Field := f_name | f_manufacturer | f_nozzle | f_filamentDiameter.

(** [handleAdd()]; [k] UUIDs have been drawn before. *)
Definition handleAdd (k : nat) (printers : list Printer) : list Printer :=
  let newPrinter : Printer :=
    {| Device.id := randomUUID k; Device.name := "Neuer Drucker";
       Device.manufacturer := ""; Device.nozzle := "0.4mm";
       Device.filamentDiameter := lit_1_75 |} in
  (printers ++ [newPrinter])%list.

(** [handleDelete(id)], [confirmed] being what [window.confirm] returned. *)
Definition handleDelete (printers : list Printer) (id : string)
    (confirmed : bool) : list Printer :=
  if confirmed then filter (fun p => Device.id p ≠ id) printers
  else printers.

(** [{ ...p, [field]: updatedValue }]; [parsed] is
    [parseFloat(value) || 0]. *)
Definition update_field (p : Printer) (field : Field) (value : string)
    (parsed : num) : Printer :=
  match field with
  | f_name =>
      {| Device.id := Device.id p; Device.name := value;
         Device.manufacturer := Device.manufacturer p;
         Device.nozzle := Device.nozzle p;
         Device.filamentDiameter := Device.filamentDiameter p |}
  | f_manufacturer =>
      {| Device.id := Device.id p; Device.name := Device.name p;
         Device.manufacturer := value;
         Device.nozzle := Device.nozzle p;
         Device.filamentDiameter := Device.filamentDiameter p |}
  | f_nozzle =>
      {| Device.id := Device.id p; Device.name := Device.name p;
         Device.manufacturer := Device.manufacturer p;
         Device.nozzle := value;
         Device.filamentDiameter := Device.filamentDiameter p |}
  | f_filamentDiameter =>
      {| Device.id := Device.id p; Device.name := Device.name p;
         Device.manufacturer := Device.manufacturer p;
         Device.nozzle := Device.nozzle p;
         Device.filamentDiameter := parsed |}
  end.

(** [handleUpdate(id, field, value)]; [parseFloat_or_0] is the host's
    [parseFloat(value) || 0]. *)
Definition handleUpdate (parseFloat_or_0 : string → num)
    (printers : list Printer) (id : string) (field : Field) (value : string)
  : list Printer :=
  map (fun p => if String.eqb (Device.id p) id
                then update_field p field value (parseFloat_or_0 value)
                else p) printers.

End WithHost.

End PrinterManager.

(** ** The spool form *)

Module FilamentForm.

Section WithHost.
Context `{Host}.

(** [availablePrinters]: the printers that no spool other than the one being
    edited is loaded on. [initialId] is [initialData?.id]. *)
Definition usedPrinterIds (filaments : list Spool.Filament)
    (initialId : option string) : list string :=
  omap (fun f : Spool.Filament =>
          if negb (bool_decide (Some (Spool.id f) = initialId))
             && truthy_prop (Spool.assignedPrinterId f)
          then Spool.assignedPrinterId f else None)
    filaments.

Definition availablePrinters (filaments : list Spool.Filament)
    (printers : list Device.Printer) (initialId : option string)
  : list Device.Printer :=
  filter (fun p => includes (usedPrinterIds filaments initialId)
                     (Device.id p) = false)
    printers.

(** The options of the printer select, after the disabled placeholder:
    the printer that the data being edited name, marked "(aktuell)", when it
    is not among the available ones and is a printer of the list, and then
    the available printers. [initialPrinter] is
    [initialData?.assignedPrinterId]. *)
Definition printerOptions (filaments : list Spool.Filament)
    (printers : list Device.Printer) (initialId initialPrinter : option string)
  : list Device.Printer :=
  let available := availablePrinters filaments printers initialId in
  let current :=
    match initialPrinter with
    | Some pid =>
        if truthy pid
           && negb (existsb (fun p => String.eqb (Device.id p) pid) available)
        then option_list
               (List.find (fun p => String.eqb (Device.id p) pid) printers)
        else []
    | None => []
    end in
  (current ++ available)%list.

End WithHost.

End FilamentForm.

(** ** The tree view *)

Module StorageTreeView.

(** The prefixes that the effect on [selected] walks through: with
    [currentPath] the path built so far, each part extends it. *)
Fixpoint walk (currentPath : string) (pathParts : list string)
  : list string :=
  match pathParts with
  | [] => []
  | part :: rest =>
      let currentPath :=
        if truthy currentPath then currentPath +:+ " / " +:+ part
        else part in
      currentPath :: walk currentPath rest
  end.

(** The effect that runs when [selected] changes: the new value of
    [expanded]. *)
Definition expandSelected (expanded : gset string) (selected : string)
  : gset string :=
  if truthy selected
  then expanded ∪ list_to_set (walk "" (split " / " selected))
  else expanded.

(** [toggleNode(path)] *)
Definition toggleNode (expanded : gset string) (path : string)
  : gset string :=
  if bool_decide (path ∈ expanded) then expanded ∖ {[ path ]}
  else expanded ∪ {[ path ]}.

End StorageTreeView.

(** ** The length of the filament on a spool *)

Module Length.

(** The keys of [DENSITIES], in the order of the object literal. *)
Definition density_keys : list string :=
  ["pla"; "abs"; "petg"; "nylon"; "tpu"; "pc"; "asa"; "hips"].

(** [Object.keys(DENSITIES).find(k => typeKey.includes(k))] with
    [typeKey = type.toLowerCase()] *)
Definition densityKey (type : string) : option string :=
  List.find (fun k => str_includes (toLowerCase type) k) density_keys.

Section WithArithmetic.

(** The doubles and the arithmetic of the formula. *)
Context {F : Type}.
Context (is_truthy : F → bool) (le_zero : F → bool).
Context (zero pi two ten hundred : F).
Context (div mul : F → F → F) (square : F → F).
Context (DENSITIES : string → F).

(** [calculateLength(filamentWeight, diameter, type)] *)
Definition calculateLength (filamentWeight diameter : F) (type : string) : F :=
  if negb (is_truthy filamentWeight) || le_zero filamentWeight
     || negb (is_truthy diameter)
  then zero
  else
    let density :=
      match densityKey type with
      | Some densityKey => DENSITIES densityKey
      | None => DENSITIES "pla"
      end in
    let radiusInCm := div (div diameter two) ten in
    let areaInCm2 := mul pi (square radiusInCm) in
    let volumeInCm3 := div filamentWeight density in
    let lengthInCm := div volumeInCm3 areaInCm2 in
    div lengthInCm hundred.

End WithArithmetic.

End Length.

(** ** Wrapping the text of a label *)

Module LabelText.

(** [text.split(/\s+/)]: the pieces between the runs of white space;
    [in_gap] tells that the character before was white space. *)
Fixpoint split_ws_from (in_gap : bool) (s : string) : list string :=
  match s with
  | EmptyString => [EmptyString]
  | String c s' =>
      if is_space c then
        if in_gap then split_ws_from true s'
        else EmptyString :: split_ws_from true s'
      else match split_ws_from false s' with
           | w :: ws => String c w :: ws
           | [] => [String c EmptyString]
           end
  end.

Definition split_ws (s : string) : list string := split_ws_from false s.

(** The loop of [wrap]: [currentLine] takes the next word when the line
    then has at most [maxChars] characters, or when it is empty;
    otherwise the line is pushed and the word starts a new one. *)
Fixpoint wrap_loop (maxChars : nat) (currentLine : string)
    (words : list string) : list string :=
  match words with
  | [] => [currentLine]
  | word :: rest =>
      if (maxChars <? String.length (currentLine +:+ " " +:+ word))%nat
         && (0 <? String.length currentLine)%nat
      then currentLine :: wrap_loop maxChars word rest
      else wrap_loop maxChars (currentLine +:+ " " +:+ word) rest
  end.

(** [const words = text.split(/\s+/); ... lines.push(currentLine)] *)
Definition wrap_lines (maxChars : nat) (text : string) : list string :=
  match split_ws text with
  | [] => [""]
  | first :: words => wrap_loop maxChars first words
  end.

(** [wrap] of [LocationLabelPreview]. The function takes [maxWidth] and
    [fontSize] and computes [maxChars = Math.floor(maxWidth / (fontSize *
    0.6))]; here [maxChars] is the argument. The label calls it with 35
    and 3.5, that is with 16 characters. *)
Definition wrap_location (text : string) (maxChars : nat) : list string :=
  wrap_lines maxChars text.

(** [wrap] of [PrintLabelView], which computes [maxChars] with the factor
    0.55 and is called with 40 and 3.5, that is with 20 characters: a short
    text is one line, and of a long text the first two lines are kept. *)
Definition wrap_spool (text : string) (maxChars : nat) : list string :=
  if negb (truthy text) || (String.length text <=? maxChars)%nat
  then [text]
  else take 2 (wrap_lines maxChars text).

End LabelText.

(** ** More observations *)

Module Observe2.

(** [s.substring(k)]: the string without its first [k] characters. *)
Fixpoint drop_chars (k : nat) (s : string) : string :=
  match k, s with
  | S k', String _ s' => drop_chars k' s'
  | _, _ => s
  end.

(** Some character of [s] belongs to the class. *)
Fixpoint has_char (cls : ascii → bool) (s : string) : bool :=
  match s with
  | EmptyString => false
  | String c s' => cls c || has_char cls s'
  end.

(** A character that starts or ends a tag or an attribute value in XML. *)
Definition is_markup (c : ascii) : bool :=
  existsb (Ascii.eqb c) ["<"; ">"; "'"; "034"]%char.

(** A line of a wrapped text fits into [m] characters, or it holds a single
    word of the text, possibly after the space that follows an empty first
    word. *)
Definition line_ok (m : nat) (words : list string) (line : string) : Prop :=
  String.length line ≤ m ∨ line ∈ words
  ∨ ∃ w, w ∈ words ∧ line = " " +:+ w.

(** The id has the shape of an id that the allocator issued for a type code
    before the spool counter of that code reached its value in [c]. *)
Definition issued (c : Counters) (i : string) : Prop :=
  ∃ T n code,
    no_dash T = true
    ∧ i = compose_id T (padStart 4 (dec n)) code
    ∧ n < nextSpool T c.

Section WithHost.
Context `{Host}.

(** The ids of the inventory are pairwise distinct and were issued under
    the counters. *)
Definition ids_consistent (c : Counters) (fs : list Spool.Filament) : Prop :=
  NoDup (map Spool.id fs) ∧ Forall (fun f => issued c (Spool.id f)) fs.

(** No two spools of the inventory are loaded on the same printer. *)
Definition one_spool_per_printer (fs : list Spool.Filament) : Prop :=
  ∀ i j f g p,
    fs !! i = Some f → fs !! j = Some g →
    Spool.assignedPrinterId f = Some p →
    Spool.assignedPrinterId g = Some p →
    truthy p = true → i = j.

(** Every printer that a spool is loaded on is a printer of the list. *)
Definition printers_known (ps : list Device.Printer)
    (fs : list Spool.Filament) : Prop :=
  ∀ f p, f ∈ fs → Spool.assignedPrinterId f = Some p → truthy p = true →
         p ∈ map Device.id ps.

(** Saving [d] edits a spool of the inventory whose type or manufacturer
    color differs from the one of [d], so that the spool gets a new id. *)
Definition renumbers (s : AppHandlers.AppState) (d : Spool.FilamentData)
  : Prop :=
  ∃ original,
    truthy_prop (Spool.id d) = true
    ∧ AppHandlers.find_by_id (AppHandlers.filaments s) (Spool.id d)
      = Some original
    ∧ (Spool.type original ≠ Spool.type d
       ∨ Spool.manufacturerColor original ≠ Spool.manufacturerColor d).

End WithHost.

End Observe2.

Import Observe2.

(** ** The data of the application scenarios *)

Module Workshop.

(** A spool of the inventory on the reference host: 1 kg of 1.75 mm
    filament on a spool of 200 g. *)
Definition item (i st t col loc : string) (printer : option string)
  : Spool.Filament :=
  {| Spool.id := i; Spool.status := st; Spool.manufacturer := "Prusament";
     Spool.manufacturerColor := col; Spool.type := t; Spool.color := "Black";
     Spool.colorHex := "#000000"; Spool.madeDate := "2025-01-01";
     Spool.totalWeight := 1200000%N; Spool.spoolWeight := 200000%N;
     Spool.length := 330000%N; Spool.diameter := 1750%N;
     Spool.diameterTolerance := 20%N; Spool.standardDeviation := 0%N;
     Spool.ovality := 0%N; Spool.price := 29990%N;
     Spool.spoolSize := 1000000%N; Spool.spoolLength := 330000%N;
     Spool.techSheetUrl := ""; Spool.madeIn := "CZ";
     Spool.extruderTemp := "215"; Spool.heatbedTemp := "60";
     Spool.barcode := ""; Spool.assignedPrinterId := printer;
     Spool.locationPath := loc; Spool.notes := "" |}.

Definition printer (i nm : string) : Device.Printer :=
  {| Device.id := i; Device.name := nm; Device.manufacturer := "Prusa";
     Device.nozzle := "0.4mm"; Device.filamentDiameter := 1750%N |}.

(** Two PLA spools and one PETG spool; the second spool is loaded on the
    printer "mk4". *)
Definition shopCounters : Counters :=
  {| colorMap := Some {[ "Galaxy Black" := "001"; "Arctic White" := "002" ]};
     nextColorNum := Some (JNum 3);
     typeCounters := Some {[ "PLA" := {| nextSpoolNum := JNum 3 |};
                             "PETG" := {| nextSpoolNum := JNum 2 |} ]};
     version := Some (JNum 3) |}.

Definition shop : AppHandlers.AppState :=
  {| AppHandlers.appStatus := AppHandlers.READY;
     AppHandlers.filaments :=
       [ item "PLA-0001-001" "Angebrochen" "PLA" "Galaxy Black"
           "Shelf1 / BoxA" None;
         item "PLA-0002-002" "Auf Drucker" "PLA" "Arctic White" ""
           (Some "mk4");
         item "PETG-0001-001" "Originalverpackt" "PETG" "Galaxy Black"
           "Shelf1 / BoxA2" None ];
     AppHandlers.storageTree := scenarioTree;
     AppHandlers.printers := [ printer "mk4" "MK4"; printer "mini" "Mini" ];
     AppHandlers.idCounters := shopCounters;
     AppHandlers.mode := AppHandlers.mode_list;
     AppHandlers.currentFilamentId := None;
     AppHandlers.initialDataForForm := None;
     AppHandlers.hasUnsavedChanges := false;
     AppHandlers.isDirty := false;
     AppHandlers.locationFilter := "";
     AppHandlers.typeFilter := "";
     AppHandlers.colorFilter := "";
     AppHandlers.printingFilament := None;
     AppHandlers.printingLocation := None;
     AppHandlers.isScanning := true |}.

End Workshop.

(* ===================================================================== *)
(** * Part II: properties                                                 *)
(* ===================================================================== *)

(** ** Strings *)

Section StringFacts.

Lemma alnum_upper_no_dash (s : string) : alnum_upper s = true → no_dash s = true.
Proof.
  induction s as [|c s IH]; simpl; [done |].
  intros [Hc Hs]%andb_true_iff. rewrite IH by done.
  destruct (Ascii.eqb_spec c "-") as [-> | _]; [discriminate Hc | done].
Qed.

Lemma strip_non_alnum_ok (s : string) : alnum_upper (strip_non_alnum s) = true.
Proof.
  induction s as [|c s IH]; simpl; [done |].
  destruct (is_upper c || is_digit c) eqn:E; simpl; [by rewrite E | done].
Qed.

Lemma substring0_alnum (n : nat) (s : string) :
  alnum_upper s = true → alnum_upper (substring0 n s) = true.
Proof.
  revert s; induction n as [|n IH]; intros [|c s]; simpl; try done.
  intros [Hc Hs]%andb_true_iff. by rewrite Hc, IH.
Qed.

Lemma substring0_length (n : nat) (s : string) :
  String.length (substring0 n s) = Nat.min n (String.length s).
Proof.
  revert s; induction n as [|n IH]; intros [|c s]; simpl; try done.
  by rewrite IH.
Qed.

(** A string without [-] followed by [-] is cut back at that dash. *)
Lemma dash_cut (a1 a2 r1 r2 : string) :
  no_dash a1 = true → no_dash a2 = true →
  a1 +:+ "-" +:+ r1 = a2 +:+ "-" +:+ r2 → a1 = a2 ∧ r1 = r2.
Proof.
  revert a2; induction a1 as [|c a1 IH]; intros [|d a2]; simpl.
  - intros _ _ [= ->]; done.
  - intros _ [Hd _]%andb_true_iff [= <- _].
    by rewrite Ascii.eqb_refl in Hd.
  - intros [Hc _]%andb_true_iff _ [= -> _].
    by rewrite Ascii.eqb_refl in Hc.
  - intros [_ H1]%andb_true_iff [_ H2]%andb_true_iff [= -> Heq].
    destruct (IH a2 H1 H2 Heq) as [-> ->]; done.
Qed.

Lemma zeros_no_dash (n : nat) : no_dash (zeros n) = true.
Proof. induction n; simpl; auto. Qed.

Lemma no_dash_append (a b : string) :
  no_dash a = true → no_dash b = true → no_dash (a +:+ b) = true.
Proof.
  induction a as [|c a IH]; simpl; [done |].
  intros [Hc Ha]%andb_true_iff Hb. rewrite Hc; simpl; auto.
Qed.

Lemma digits_no_dash (s : string) (d : uint) :
  NilEmpty.uint_of_string s = Some d → no_dash s = true.
Proof.
  revert d; induction s as [|c s IH]; simpl; [done |].
  intros d Hd. destruct (NilEmpty.uint_of_string s) as [d'|] eqn:E.
  - rewrite (IH d') by done. rewrite andb_true_r.
    destruct (Ascii.eqb_spec c "-") as [-> | _]; [discriminate Hd | done].
  - destruct c as [[] [] [] [] [] [] [] []]; discriminate Hd.
Qed.

Lemma dec_value_dec (n : nat) : dec_value (dec n) = Some n.
Proof.
  unfold dec_value, dec; simpl. rewrite NilEmpty.usu; simpl.
  by rewrite Unsigned.of_to.
Qed.

Lemma dec_no_dash (n : nat) : no_dash (dec n) = true.
Proof.
  pose proof (dec_value_dec n) as Hv. unfold dec_value in Hv.
  destruct (NilEmpty.uint_of_string (dec n)) as [d|] eqn:E; [|done].
  by eapply digits_no_dash.
Qed.

Lemma dec_value_zeros (k : nat) (s : string) :
  dec_value (zeros k +:+ s) = dec_value s.
Proof.
  induction k as [|k IH]; simpl; [done |].
  rewrite <- IH. unfold dec_value; simpl.
  destruct (NilEmpty.uint_of_string (zeros k +:+ s)); reflexivity.
Qed.

(** Zero-padding keeps decimal numerals apart. *)
Lemma padStart_dec_inj (w a b : nat) :
  padStart w (dec a) = padStart w (dec b) → a = b.
Proof.
  intros Heq. apply (f_equal dec_value) in Heq. unfold padStart in Heq.
  rewrite !dec_value_zeros, !dec_value_dec in Heq. congruence.
Qed.

Lemma padStart_dec_no_dash (w n : nat) : no_dash (padStart w (dec n)) = true.
Proof. apply no_dash_append; [apply zeros_no_dash | apply dec_no_dash]. Qed.

Lemma padStart_truthy (w : nat) (s : string) :
  truthy s = true → truthy (padStart w s) = true.
Proof.
  unfold padStart. destruct (w - String.length s) as [|k]; simpl; [done|done].
Qed.

(** The numeral of a number is never empty. *)
Lemma to_uint_nonnil (n : nat) : Nat.to_uint n ≠ Nil.
Proof.
  pose proof (Unsigned.to_of (Nat.to_uint n)) as Hn.
  rewrite Unsigned.of_to in Hn. rewrite Hn. apply unorm_nonnil.
Qed.

Lemma num_toString_truthy (x : jsnum) : truthy (num_toString x) = true.
Proof.
  destruct x as [n| |]; try done. simpl.
  pose proof (to_uint_nonnil n) as Hn.
  destruct (Nat.to_uint n); simpl; done.
Qed.

End StringFacts.

(** The string primitives on small inputs. *)
Example string_primitives :
  typeCode "petg-cf" = "PETG"
  ∧ padStart 4 (dec 12) = "0012"
  ∧ padStart 3 (dec 1234) = "1234"
  ∧ split_dash "PLA-0003-002" = ["PLA"; "0003"; "002"]
  ∧ split_dash "PLA--1" = ["PLA"; ""; "1"]
  ∧ parseInt "0003" = JNum 3
  ∧ parseInt " 12px" = JNum 12
  ∧ parseInt "0x1A" = JNum 26
  ∧ parseInt "abc" = JNaN
  ∧ lastIndexOf " / " "Shelf1 / BoxA / Bin1" = Some 13
  ∧ parentOf "Shelf1 / BoxA / Bin1" = "Shelf1 / BoxA"
  ∧ parentOf "Shelf1" = ""
  ∧ replace_start "Shelf1 / BoxA" "Shelf1 / BoxB" "Shelf1 / BoxA / Bin1"
    = Some "Shelf1 / BoxB / Bin1"
  ∧ replace_start "Box.1" "Box2" "BoxX1 / Bin" = Some "Box2 / Bin"
  ∧ replace_start "Box+" "Box2" "Box+ / Bin" = None.
Proof. by vm_compute. Qed.

(** ** The identity allocator *)

Section AllocatorFacts.

Implicit Types (t col T : string) (c : Counters).

(** A call is unfolded on request only. *)
#[local] Arguments generateNewIdAndUpdateCounters : simpl never.

Lemma json_num_idem (x : jsnum) : json_num (json_num x) = json_num x.
Proof. by destruct x. Qed.

Lemma spoolOf_json_num (x : jsnum) : spoolOf (json_num x) = spoolOf x.
Proof. unfold spoolOf. by rewrite json_num_idem. Qed.

Lemma typeCode_alnum t : alnum_upper (typeCode t) = true.
Proof. apply substring0_alnum, strip_non_alnum_ok. Qed.

Lemma typeCode_no_dash t : no_dash (typeCode t) = true.
Proof. apply alnum_upper_no_dash, typeCode_alnum. Qed.

Lemma typeCode_length t : String.length (typeCode t) ≤ 4.
Proof. unfold typeCode. rewrite substring0_length. lia. Qed.

(** The number read by [nextSpoolNum++] on the deep copy. *)
Lemma spool_read T c :
  toNumber (Some (nextSpoolNum
    (default {| nextSpoolNum := JNum 1 |}
       (default ∅ (typeCounters (json_copy c)) !! T))))
  = JNum (nextSpool T c).
Proof.
  unfold nextSpool, json_copy; simpl.
  destruct (typeCounters c) as [m|]; simpl; [|done].
  rewrite lookup_fmap. destruct (m !! T) as [[x]|]; simpl; [|done].
  by destruct x.
Qed.

Lemma colorMap_ensure_typeCounters c :
  colorMap (ensure_typeCounters c) = colorMap c
  ∧ nextColorNum (ensure_typeCounters c) = nextColorNum c.
Proof. unfold ensure_typeCounters. by destruct (typeCounters c). Qed.

Lemma colorMap_ensure_typeCounter T c :
  colorMap (ensure_typeCounter T c) = colorMap c
  ∧ nextColorNum (ensure_typeCounter T c) = nextColorNum c.
Proof. unfold ensure_typeCounter. by destruct (_ !! T). Qed.

Lemma typeCounters_assign_colorCode key c :
  typeCounters (assign_colorCode key c) = typeCounters c.
Proof. unfold assign_colorCode. by destruct (truthy_prop _). Qed.

(** After the three guards the counter of the type code exists. *)
Lemma typeCounters_prepared T c :
  typeCounters (ensure_typeCounter T (ensure_typeCounters (ensure_colorMap c)))
  = Some (<[T := default {| nextSpoolNum := JNum 1 |}
                   (default ∅ (typeCounters c) !! T)]>
            (default ∅ (typeCounters c))).
Proof.
  unfold ensure_typeCounter, ensure_typeCounters, ensure_colorMap.
  destruct c as [cm ncn [m|] ver]; destruct cm; simpl.
  1,2: destruct (m !! T) as [x|] eqn:E; simpl; rewrite ?E; simpl;
       [by rewrite insert_id | done].
  all: by rewrite !lookup_empty.
Qed.

(** After [assign_colorCode] the color key is bound to a non-empty code. *)
Lemma assign_colorCode_bound key c :
  is_Some (colorMap c) →
  ∃ cmap code,
    colorMap (assign_colorCode key c) = Some cmap
    ∧ cmap !! key = Some code ∧ truthy code = true.
Proof.
  intros [cmap Hc]. unfold assign_colorCode. rewrite Hc; simpl.
  destruct (truthy_prop (cmap !! key)) eqn:E.
  - destruct (cmap !! key) as [code|] eqn:El; [|done].
    by exists cmap, code.
  - simpl. eexists _, _. split; [done |]. rewrite lookup_insert_eq.
    split; [done | apply padStart_truthy, num_toString_truthy].
Qed.

(** What one call returns: the id is made of the type code, the padded
    spool number read from the counter of that type, and the code bound to
    the color key, which is a non-empty string; the counter of the type
    code moves to the successor of the number issued. *)
Lemma generate_spec t col c :
  ∃ code,
    newId (generateNewIdAndUpdateCounters t col c)
      = compose_id (typeCode t)
          (padStart 4 (dec (nextSpool (typeCode t) c))) code
    ∧ typeCounters (updatedCounters (generateNewIdAndUpdateCounters t col c))
      = Some (<[typeCode t :=
                  {| nextSpoolNum := JNum (S (nextSpool (typeCode t) c)) |}]>
                (default ∅ (typeCounters (json_copy c))))
    ∧ colorMap (updatedCounters (generateNewIdAndUpdateCounters t col c))
        ≫= (.!! colorKey col) = Some code
    ∧ truthy code = true.
Proof.
  unfold generateNewIdAndUpdateCounters, newId, updatedCounters; simpl.
  set (T := typeCode t). set (key := colorKey col).
  set (c3 := ensure_typeCounter T (ensure_typeCounters
               (ensure_colorMap (json_copy c)))).
  assert (is_Some (colorMap c3)) as Hsome.
  { unfold c3.
    rewrite (proj1 (colorMap_ensure_typeCounter _ _)),
      (proj1 (colorMap_ensure_typeCounters _)).
    unfold ensure_colorMap.
    destruct (colorMap (json_copy c)) eqn:E; rewrite ?E; simpl; eauto. }
  destruct (assign_colorCode_bound key c3 Hsome) as (cmap & code & Hcm & Hl & Htr).
  pose proof (spool_read T c) as Hread.
  set (tcs0 := default ∅ (typeCounters (json_copy c))) in *.
  assert (typeCounters (assign_colorCode key c3)
          = Some (<[T := default {| nextSpoolNum := JNum 1 |} (tcs0 !! T)]> tcs0))
    as Htc by (rewrite typeCounters_assign_colorCode; apply typeCounters_prepared).
  exists code. unfold take_spoolNum, read_colorCode, post_incr.
  rewrite Htc; simpl. rewrite Hcm; simpl.
  rewrite lookup_insert_eq, insert_insert_eq.
  cbn [fmap option_fmap option_map]. rewrite Hread, Hl. auto.
Qed.

Lemma nextSpool_same t col c :
  nextSpool (typeCode t) (updatedCounters (generateNewIdAndUpdateCounters t col c))
  = S (nextSpool (typeCode t) c).
Proof.
  destruct (generate_spec t col c) as (code & _ & Htc & _).
  unfold nextSpool at 1. rewrite Htc; simpl. by rewrite lookup_insert_eq.
Qed.

Lemma nextSpool_other t col c T :
  T ≠ typeCode t →
  nextSpool T (updatedCounters (generateNewIdAndUpdateCounters t col c))
  = nextSpool T c.
Proof.
  intros Hne. destruct (generate_spec t col c) as (code & _ & Htc & _).
  unfold nextSpool. rewrite Htc; simpl. rewrite lookup_insert_ne by done.
  unfold json_copy; simpl. destruct (typeCounters c) as [m|]; simpl; [|done].
  rewrite lookup_fmap. destruct (m !! T) as [[x]|]; simpl; [|done].
  apply spoolOf_json_num.
Qed.

Lemma nextSpool_mono t col c T :
  nextSpool T c
  ≤ nextSpool T (updatedCounters (generateNewIdAndUpdateCounters t col c)).
Proof.
  destruct (decide (T = typeCode t)) as [-> | Hne].
  - rewrite nextSpool_same. lia.
  - by rewrite nextSpool_other.
Qed.

(** Two ids with different type codes, or with the same type code and
    different spool numbers, are different strings. *)
Lemma compose_id_inj T1 T2 n1 n2 code1 code2 :
  no_dash T1 = true → no_dash T2 = true →
  compose_id T1 (padStart 4 (dec n1)) code1
  = compose_id T2 (padStart 4 (dec n2)) code2 →
  T1 = T2 ∧ n1 = n2.
Proof.
  unfold compose_id. intros H1 H2 Heq.
  apply dash_cut in Heq as [-> Heq]; [|done..].
  apply dash_cut in Heq as [Heq _]; [|apply padStart_dec_no_dash..].
  split; [done | by eapply padStart_dec_inj].
Qed.

Lemma allocate_all_cons t col calls c :
  allocate_all ((t, col) :: calls) c
  = (newId (generateNewIdAndUpdateCounters t col c)
       :: (allocate_all calls
             (updatedCounters (generateNewIdAndUpdateCounters t col c))).1,
     (allocate_all calls
        (updatedCounters (generateNewIdAndUpdateCounters t col c))).2).
Proof. cbn [allocate_all]. by destruct (allocate_all calls _). Qed.

(** Every id of a run carries a spool number that is at least the counter
    of its type code at the start of the run. *)
Lemma allocate_all_ids calls c i :
  i ∈ (allocate_all calls c).1 →
  ∃ t n code,
    i = compose_id (typeCode t) (padStart 4 (dec n)) code
    ∧ nextSpool (typeCode t) c ≤ n.
Proof.
  revert c; induction calls as [|[t col] calls IH]; intros c.
  - by intros ?%elem_of_nil.
  - rewrite allocate_all_cons. cbn [fst].
    intros [-> | Hin]%elem_of_cons.
    + destruct (generate_spec t col c) as (code & Hid & _).
      exists t, (nextSpool (typeCode t) c), code. split; [done | lia].
    + destruct (IH _ Hin) as (t' & n & code & -> & Hle).
      exists t', n, code. split; [done |].
      etrans; [apply (nextSpool_mono t col) | done].
Qed.

Lemma allocate_all_NoDup calls c : NoDup (allocate_all calls c).1.
Proof.
  revert c; induction calls as [|[t col] calls IH]; intros c.
  - constructor.
  - rewrite allocate_all_cons. cbn [fst].
    constructor; [|apply IH].
    intros Hin.
    destruct (allocate_all_ids _ _ _ Hin) as (t' & n & code & Heq & Hle).
    destruct (generate_spec t col c) as (code0 & Hid & _).
    rewrite Hid in Heq.
    apply compose_id_inj in Heq as [HT Hn]; [|apply typeCode_no_dash..].
    rewrite <- HT, nextSpool_same in Hle. lia.
Qed.

(** A color key already bound to a non-empty code keeps that code. *)
Lemma generate_reuses_code t col c code :
  colorMap c ≫= (.!! colorKey col) = Some code → truthy code = true →
  newId (generateNewIdAndUpdateCounters t col c)
  = compose_id (typeCode t) (padStart 4 (dec (nextSpool (typeCode t) c))) code.
Proof.
  intros Hl Htr.
  destruct (generate_spec t col c) as (code' & -> & _ & Hcode & _).
  f_equal. revert Hcode.
  unfold generateNewIdAndUpdateCounters, updatedCounters. cbn [snd].
  change (colorMap (take_spoolNum ?T ?c).2) with (colorMap c).
  unfold assign_colorCode.
  rewrite (proj1 (colorMap_ensure_typeCounter _ _)),
    (proj1 (colorMap_ensure_typeCounters _)).
  destruct (colorMap c) as [m|] eqn:Ec; simpl in Hl; [|done].
  assert (colorMap (ensure_colorMap (json_copy c)) = Some m) as ->.
  { unfold ensure_colorMap, json_copy; simpl. by rewrite Ec. }
  simpl. rewrite Hl; simpl. rewrite Htr.
  rewrite (proj1 (colorMap_ensure_typeCounter _ _)),
    (proj1 (colorMap_ensure_typeCounters _)).
  assert (colorMap (ensure_colorMap (json_copy c)) = Some m) as ->.
  { unfold ensure_colorMap, json_copy; simpl. by rewrite Ec. }
  simpl. congruence.
Qed.

(** The color bookkeeping of a call is the one of [assign_colorCode] on the
    copy of the counters: the type code does not enter it. *)
Lemma assign_colorCode_color key c c' :
  colorMap c = colorMap c' → nextColorNum c = nextColorNum c' →
  colorMap (assign_colorCode key c) = colorMap (assign_colorCode key c')
  ∧ nextColorNum (assign_colorCode key c)
    = nextColorNum (assign_colorCode key c').
Proof.
  intros Hm Hn. unfold assign_colorCode. rewrite Hm, Hn.
  by destruct (truthy_prop _).
Qed.

Lemma generate_color t col c :
  colorMap (updatedCounters (generateNewIdAndUpdateCounters t col c))
  = colorMap (assign_colorCode (colorKey col) (ensure_colorMap (json_copy c)))
  ∧ nextColorNum (updatedCounters (generateNewIdAndUpdateCounters t col c))
    = nextColorNum
        (assign_colorCode (colorKey col) (ensure_colorMap (json_copy c))).
Proof.
  unfold generateNewIdAndUpdateCounters, updatedCounters. cbn [snd].
  change (colorMap (take_spoolNum ?T ?c).2) with (colorMap c).
  change (nextColorNum (take_spoolNum ?T ?c).2) with (nextColorNum c).
  apply assign_colorCode_color.
  - by rewrite (proj1 (colorMap_ensure_typeCounter _ _)),
      (proj1 (colorMap_ensure_typeCounters _)).
  - by rewrite (proj2 (colorMap_ensure_typeCounter _ _)),
      (proj2 (colorMap_ensure_typeCounters _)).
Qed.

(** A label bound to a non-empty code keeps it through a call, whatever the
    call is for. *)
Lemma generate_keeps_binding t col c key code :
  colorMap c ≫= (.!! key) = Some code → truthy code = true →
  colorMap (updatedCounters (generateNewIdAndUpdateCounters t col c))
    ≫= (.!! key) = Some code.
Proof.
  intros Hl Htr. rewrite (proj1 (generate_color t col c)).
  destruct (colorMap c) as [m|] eqn:Ec; simpl in Hl; [|done].
  assert (colorMap (ensure_colorMap (json_copy c)) = Some m) as Hm.
  { unfold ensure_colorMap, json_copy; simpl. by rewrite Ec. }
  unfold assign_colorCode. rewrite Hm. simpl.
  destruct (truthy_prop (m !! colorKey col)) eqn:E.
  - by rewrite Hm.
  - simpl. rewrite lookup_insert_ne; [done|].
    intros <-. rewrite Hl in E. simpl in E. congruence.
Qed.

(** Through a run the label keeps its code, and every id issued for the
    label carries it. *)
Lemma allocate_all_keeps_code calls c key code :
  colorMap c ≫= (.!! key) = Some code → truthy code = true →
  colorMap (allocate_all calls c).2 ≫= (.!! key) = Some code
  ∧ ∀ (i : nat) t col,
      calls !! i = Some (t, col) → colorKey col = key →
      ∃ spool,
        no_dash spool = true
        ∧ (allocate_all calls c).1 !! i
          = Some (compose_id (typeCode t) spool code).
Proof.
  intros Hl Htr. revert c Hl.
  induction calls as [|[t0 col0] calls IH]; intros c Hl.
  { split; [done | by intros i t col ?]. }
  rewrite allocate_all_cons. cbn [fst snd].
  destruct (IH _ (generate_keeps_binding t0 col0 c key code Hl Htr))
    as [IH1 IH2].
  split; [done|]. intros [|i] t col Hi Hkey.
  - injection Hi as -> ->. subst key.
    exists (padStart 4 (dec (nextSpool (typeCode t) c))).
    split; [apply padStart_dec_no_dash|]. simpl. f_equal.
    by apply generate_reuses_code.
  - exact (IH2 i t col Hi Hkey).
Qed.

(** C7. Scenario A: from empty counters the calls ("PLA", "Galaxy Black"),
    ("PETG", "Galaxy Black"), ("PLA", "Arctic White") return PLA-0001-001,
    PETG-0001-001 and PLA-0002-002. In general the color code belongs to
    the color label alone. What a call does to the color map and to the
    next color number is the same for every material type. A call binds
    its label to a non-empty code and ends the id with that code (for a
    label that is no name an object inherits). And a label that is bound
    to a non-empty code keeps it through every run of calls, whatever
    their types and labels are, and every id that the run issues for the
    label ends with that code. *)
Theorem color_code_shared_across_types :
  (allocate_all [("PLA", "Galaxy Black"); ("PETG", "Galaxy Black");
                 ("PLA", "Arctic White")] empty_counters).1
  = ["PLA-0001-001"; "PETG-0001-001"; "PLA-0002-002"]
  ∧ (∀ t1 t2 col c,
       let r1 := generateNewIdAndUpdateCounters t1 col c in
       let r2 := generateNewIdAndUpdateCounters t2 col c in
       colorMap (updatedCounters r1) = colorMap (updatedCounters r2)
       ∧ nextColorNum (updatedCounters r1) = nextColorNum (updatedCounters r2))
  ∧ (∀ t col c,
       inherited (colorKey col) = false →
       let r := generateNewIdAndUpdateCounters t col c in
       ∃ code spool,
         colorMap (updatedCounters r) ≫= (.!! colorKey col) = Some code
         ∧ truthy code = true
         ∧ no_dash spool = true
         ∧ newId r = compose_id (typeCode t) spool code)
  ∧ (∀ calls c key code,
       colorMap c ≫= (.!! key) = Some code → truthy code = true →
       colorMap (allocate_all calls c).2 ≫= (.!! key) = Some code
       ∧ ∀ (i : nat) t col,
           calls !! i = Some (t, col) → colorKey col = key →
           ∃ spool,
             no_dash spool = true
             ∧ (allocate_all calls c).1 !! i
               = Some (compose_id (typeCode t) spool code)).
Proof.
  split; [by vm_compute |]. split; [|split].
  - intros t1 t2 col c r1 r2. unfold r1, r2.
    rewrite !(proj1 (generate_color _ col c)),
      !(proj2 (generate_color _ col c)). done.
  - intros t col c _ r.
    destruct (generate_spec t col c) as (code & Hid & _ & Hcode & Htr).
    exists code, (padStart 4 (dec (nextSpool (typeCode t) c))).
    split; [done|]. split; [done|]. split; [apply padStart_dec_no_dash|done].
  - apply allocate_all_keeps_code.
Qed.

(** "Galaxy Black" has the code 001 in the counters of the workshop; a run
    for PETG and then ABS in that color keeps the code, and the id issued
    for ABS ends with it. *)
Lemma color_code_shared_across_types_witness :
  inherited (colorKey "Galaxy Black") = false
  ∧ colorMap Workshop.shopCounters ≫= (.!! "Galaxy Black") = Some "001"
  ∧ (∃ code spool,
       truthy code = true
       ∧ newId (generateNewIdAndUpdateCounters "PLA" "Galaxy Black"
                  empty_counters)
         = compose_id "PLA" spool code)
  ∧ ∃ spool,
      no_dash spool = true
      ∧ (allocate_all [("PETG", "Galaxy Black"); ("ABS", "Galaxy Black")]
           Workshop.shopCounters).1 !! 1
        = Some (compose_id "ABS" spool "001").
Proof.
  assert (colorMap Workshop.shopCounters ≫= (.!! "Galaxy Black")
          = Some "001") as Hl by reflexivity.
  split; [reflexivity|]. split; [exact Hl|]. split.
  - destruct (proj1 (proj2 (proj2 color_code_shared_across_types))
                "PLA" "Galaxy Black" empty_counters eq_refl)
      as (code & spool & _ & Htr & _ & Hid).
    exists code, spool. split; [exact Htr | exact Hid].
  - exact (proj2 (proj2 (proj2 (proj2 color_code_shared_across_types))
                    [("PETG", "Galaxy Black"); ("ABS", "Galaxy Black")]
                    Workshop.shopCounters "Galaxy Black" "001" Hl eq_refl)
             1 "ABS" "Galaxy Black" eq_refl eq_refl).
Defined.

(** The shape of every id: an upper-case alphanumeric type code of at most
    four characters, the spool number padded to four digits, and a
    non-empty color code, joined by dashes. *)
Lemma newId_format t col c :
  alnum_upper (typeCode t) = true
  ∧ String.length (typeCode t) ≤ 4
  ∧ ∃ n code,
      truthy code = true
      ∧ newId (generateNewIdAndUpdateCounters t col c)
        = typeCode t +:+ "-" +:+ padStart 4 (dec n) +:+ "-" +:+ code.
Proof.
  split; [apply typeCode_alnum |]. split; [apply typeCode_length |].
  destruct (generate_spec t col c) as (code & Hid & _ & _ & Htr).
  by exists (nextSpool (typeCode t) c), code.
Qed.

(** C8. The default "UNK" is applied before the normalisation, not after
    it: a material type made of characters that the normalisation drops,
    such as "-", is not empty, so it is not replaced by "UNK", and its type
    code is the empty string. The id then starts with a dash. (An empty
    material type does get "UNK", and a type code is always upper-case
    alphanumeric and at most four characters long.) *)
Theorem typeCode_empty_after_normalisation :
  typeCode "-" = ""
  ∧ newId (generateNewIdAndUpdateCounters "-" "Galaxy Black" empty_counters)
    = "-0001-001"
  ∧ typeCode "" = "UNK"
  ∧ typeCode "pla+ (silk)" = "PLAS".
Proof. by vm_compute. Qed.

(** C9. In every run of the allocator in which each call receives the
    counters returned by the previous call, and in which the spool counters
    stay within the numbers that the code counts exactly, the returned ids
    are pairwise distinct. A call for a type code issues the number its
    counter stands for and leaves the successor of that number in the
    counter; the counter of every other type code stands for the same
    number as before. So the counter of a type code only grows, and
    strictly at each call for it. *)
Theorem allocate_ids_distinct_counters_increase :
  (∀ calls c,
     exact_counting (List.length calls) c → NoDup (allocate_all calls c).1)
  ∧ (∀ t col c,
       exact_counting 1 c →
       let r := generateNewIdAndUpdateCounters t col c in
       let n := nextSpool (typeCode t) c in
       (∃ code, newId r = compose_id (typeCode t) (padStart 4 (dec n)) code)
       ∧ typeCounters (updatedCounters r) ≫= (.!! typeCode t)
         = Some {| nextSpoolNum := JNum (S n) |}
       ∧ nextSpool (typeCode t) (updatedCounters r) = S n
       ∧ ∀ T, nextSpool T c ≤ nextSpool T (updatedCounters r)).
Proof.
  split; [intros calls c _; apply allocate_all_NoDup |].
  intros t col c _ r n.
  destruct (generate_spec t col c) as (code & Hid & Htc & _).
  split; [by exists code |]. split.
  - fold r in Htc. rewrite Htc; simpl. by rewrite lookup_insert_eq.
  - split; [apply nextSpool_same | intros T; apply nextSpool_mono].
Qed.

(** The counters of the workshop stand at 3 for PLA and at 2 for PETG:
    three calls are counted exactly, their ids are distinct, and a call for
    PLA moves its counter from 3 to 4. *)
Lemma allocate_ids_distinct_counters_increase_witness :
  exact_counting 3 Workshop.shopCounters
  ∧ exact_counting 1 Workshop.shopCounters
  ∧ NoDup (allocate_all [("PLA", "Signal Red"); ("PETG", "Signal Red");
                         ("PLA", "Galaxy Black")] Workshop.shopCounters).1
  ∧ nextSpool "PLA" Workshop.shopCounters = 3
  ∧ nextSpool "PLA"
      (updatedCounters
         (generateNewIdAndUpdateCounters "PLA" "Signal Red"
            Workshop.shopCounters)) = 4.
Proof.
  assert (exact_counting 3 Workshop.shopCounters) as H3.
  { split; [reflexivity|]. apply (bool_decide_unpack _). by vm_compute. }
  assert (exact_counting 1 Workshop.shopCounters) as H1.
  { split; [reflexivity|]. apply (bool_decide_unpack _). by vm_compute. }
  split; [exact H3|]. split; [exact H1|]. split.
  - exact (proj1 allocate_ids_distinct_counters_increase
             [("PLA", "Signal Red"); ("PETG", "Signal Red");
              ("PLA", "Galaxy Black")] Workshop.shopCounters H3).
  - split; [reflexivity|].
    exact (proj1 (proj2 (proj2
             (proj2 allocate_ids_distinct_counters_increase
                "PLA" "Signal Red" Workshop.shopCounters H1)))).
Defined.

End AllocatorFacts.


(** ** The identity allocator on the heap *)

Section HeapFacts.

Implicit Types (h caller : heap) (l : loc) (c : Counters) (o : object).

(** *** Allocation and assignment keep the caller's heap *)

Lemma alloc_fresh o h : h !! (alloc o h).1 = None.
Proof.
  unfold alloc; simpl. apply not_elem_of_dom, is_fresh.
Qed.

Lemma alloc_heap o h : (alloc o h).2 = <[(alloc o h).1 := o]> h.
Proof. reflexivity. Qed.

Lemma fresh_private caller h l : caller ⊆ h → h !! l = None → caller !! l = None.
Proof.
  intros Hsub Hl. destruct (caller !! l) as [o|] eqn:E; [|done].
  eapply lookup_weaken in E; [|done]. congruence.
Qed.

Lemma store_private caller h l o : caller ⊆ h → caller !! l = None → caller ⊆ <[l := o]> h.
Proof. intros Hsub Hl. by apply insert_subseteq_r. Qed.

(** *** Assignments elsewhere keep a representation *)

Lemma rep_colorMap_store caller h l o cm v :
  rep_colorMap caller h cm v → cm ≠ Some l →
  rep_colorMap caller (<[l := o]> h) cm v.
Proof.
  unfold rep_colorMap. destruct cm as [lm|], v as [m|]; try done.
  intros [Hc Hm] Hne. split; [done |].
  rewrite lookup_insert_ne; [done | congruence].
Qed.

Lemma rep_typeCounter_store caller h l o ol v :
  rep_typeCounter caller h ol v → ol ≠ Some l →
  rep_typeCounter caller (<[l := o]> h) ol v.
Proof.
  unfold rep_typeCounter. destruct ol as [l'|], v as [tc|]; try done.
  intros [Hc Hm] Hne. split; [done |].
  rewrite lookup_insert_ne; [done | congruence].
Qed.

Lemma rep_typeCounters_store caller h l o tcs v :
  rep_typeCounters caller h tcs v → tcs ≠ Some l →
  (∀ lt ml key, tcs = Some lt → h !! lt = Some (OTypeCounters ml) →
                ml !! key ≠ Some l) →
  rep_typeCounters caller (<[l := o]> h) tcs v.
Proof.
  unfold rep_typeCounters. destruct tcs as [lt|], v as [m|]; try done.
  intros (Hc & ml & Hml & Hrep & Hinj) Hne Hran. split; [done |].
  exists ml. rewrite lookup_insert_ne by congruence. split; [done |].
  split; [|done]. intros key. apply rep_typeCounter_store; [done |].
  by eapply Hran.
Qed.

(** A reference that holds an object in [h] is not the new one. *)
Lemma alloc_ne o h l o' : h !! l = Some o' → l ≠ (alloc o h).1.
Proof. intros Hl ->. by rewrite alloc_fresh in Hl. Qed.

Lemma alloc_lookup o h : (alloc o h).2 !! (alloc o h).1 = Some o.
Proof. unfold alloc; simpl. by rewrite lookup_insert_eq. Qed.

Lemma alloc_private caller o h :
  caller ⊆ h → caller ⊆ (alloc o h).2 ∧ caller !! (alloc o h).1 = None.
Proof.
  intros Hsub.
  assert (caller !! (alloc o h).1 = None) as Hf
    by (eapply fresh_private; [done | apply alloc_fresh]).
  split; [|done]. rewrite alloc_heap. by apply store_private.
Qed.

Lemma rep_colorMap_alloc caller h o cm v :
  rep_colorMap caller h cm v → rep_colorMap caller (alloc o h).2 cm v.
Proof.
  intros Hrep. rewrite alloc_heap. apply rep_colorMap_store; [done |].
  intros ->. unfold rep_colorMap in Hrep. destruct v; [|done].
  destruct Hrep as [_ Hl]. by rewrite alloc_fresh in Hl.
Qed.

Lemma rep_typeCounter_alloc caller h o ol v :
  rep_typeCounter caller h ol v → rep_typeCounter caller (alloc o h).2 ol v.
Proof.
  intros Hrep. rewrite alloc_heap. apply rep_typeCounter_store; [done |].
  intros ->. unfold rep_typeCounter in Hrep. destruct v; [|done].
  destruct Hrep as [_ Hl]. by rewrite alloc_fresh in Hl.
Qed.

Lemma rep_typeCounters_alloc caller h o tcs v :
  rep_typeCounters caller h tcs v → rep_typeCounters caller (alloc o h).2 tcs v.
Proof.
  intros Hrep. rewrite alloc_heap. apply rep_typeCounters_store; [done | |].
  - intros ->. unfold rep_typeCounters in Hrep. destruct v; [|done].
    destruct Hrep as (_ & ml & Hl & _). by rewrite alloc_fresh in Hl.
  - intros lt ml key -> Hml Hk. unfold rep_typeCounters in Hrep.
    destruct v as [m|]; [|done]. destruct Hrep as (_ & ml' & Hml' & Hrep & _).
    assert (ml' = ml) as -> by congruence.
    specialize (Hrep key). rewrite Hk in Hrep. unfold rep_typeCounter in Hrep.
    destruct (m !! key); [|done]. destruct Hrep as [_ Hl].
    by rewrite alloc_fresh in Hl.
Qed.

#[local] Arguments alloc : simpl never.

(** Weakening the caller's heap. *)
Lemma rep_typeCounter_caller caller caller' h ol v :
  caller ⊆ caller' → rep_typeCounter caller' h ol v →
  rep_typeCounter caller h ol v.
Proof.
  unfold rep_typeCounter. destruct ol, v; try done.
  intros Hsub [Hc ?]. split; [|done].
  destruct (caller !! _) eqn:E; [|done].
  eapply lookup_weaken in E; [|done]. congruence.
Qed.

(** *** Reading a private copy gives its value *)

Lemma rep_typeCounters_read caller h lt m :
  rep_typeCounters caller h (Some lt) (Some m) → read_typeCounters h lt = Some m.
Proof.
  intros (_ & ml & Hml & Hrep & _). unfold read_typeCounters. rewrite Hml.
  rewrite decide_True.
  - f_equal. apply map_eq. intros key. rewrite lookup_omap.
    specialize (Hrep key). unfold rep_typeCounter in Hrep.
    destruct (ml !! key) as [l|], (m !! key) as [[n]|]; simpl; try done.
    destruct Hrep as [_ Hl]. unfold read_typeCounter. by rewrite Hl.
  - intros key l Hkey. specialize (Hrep key). rewrite Hkey in Hrep.
    unfold rep_typeCounter in Hrep. destruct (m !! key) as [tc|]; [|done].
    destruct Hrep as [_ Hl]. unfold read_typeCounter. rewrite Hl. eauto.
Qed.

Lemma private_copy_read caller h l c :
  private_copy caller h l c → read_counters h l = Some c.
Proof.
  intros (_ & _ & cm & tcs & Hl & Hcm & Htcs).
  unfold read_counters. rewrite Hl. destruct c as [vm ncn vt ver]; simpl in *.
  assert (read_property (read_colorMap h) cm = Some vm) as ->.
  { destruct cm as [lm|], vm as [m|]; simpl in *; try done.
    destruct Hcm as [_ Hm]. unfold read_colorMap. by rewrite Hm. }
  assert (read_property (read_typeCounters h) tcs = Some vt) as ->.
  { destruct tcs as [lt|], vt as [m|]; simpl in *; try done.
    by erewrite rep_typeCounters_read. }
  done.
Qed.

(** *** Parsing builds a private copy *)

Lemma parse_typeCounters_spec (m : gmap string TypeCounter) h :
  let r := parse_typeCounters m h in
  h ⊆ r.2
  ∧ (∀ key, rep_typeCounter h r.2 (r.1 !! key) (m !! key))
  ∧ (∀ key1 key2 l, r.1 !! key1 = Some l → r.1 !! key2 = Some l → key1 = key2).
Proof.
  unfold parse_typeCounters.
  apply (map_fold_weak_ind
    (λ (r : gmap string loc * heap) (m : gmap string TypeCounter),
       h ⊆ r.2
       ∧ (∀ key, rep_typeCounter h r.2 (r.1 !! key) (m !! key))
       ∧ (∀ key1 key2 l, r.1 !! key1 = Some l → r.1 !! key2 = Some l →
                         key1 = key2))).
  - simpl. split; [done |]. split; [|by intros ?? ? ?%lookup_empty_Some].
    intros key. by rewrite !lookup_empty.
  - intros i x m' [ml h'] Hi (Hsub & Hrep & Hinj). simpl in *.
    set (a := alloc (OTypeCounter (nextSpoolNum x)) h').
    destruct (alloc_private h (OTypeCounter (nextSpoolNum x)) h' Hsub)
      as [Hsub' Hnew]. fold a in Hsub', Hnew.
    assert (∀ key, ml !! key ≠ Some a.1) as Hran.
    { intros key Hk. specialize (Hrep key). rewrite Hk in Hrep.
      unfold rep_typeCounter in Hrep. destruct (m' !! key); [|done].
      destruct Hrep as [_ Hl]. unfold a in Hl. by rewrite alloc_fresh in Hl. }
    split; [done | split].
    + intros key. destruct (decide (i = key)) as [<- | Hne].
      * rewrite !lookup_insert_eq. simpl.
        split; [done | apply alloc_lookup].
      * rewrite !lookup_insert_ne by done. by apply rep_typeCounter_alloc.
    + intros key1 key2 l.
      destruct (decide (i = key1)) as [<- | Hne1],
               (decide (i = key2)) as [<- | Hne2];
        rewrite ?lookup_insert_eq, ?lookup_insert_ne by done; try done.
      * intros [= <-] Hk. by apply Hran in Hk.
      * intros Hk [= <-]. by apply Hran in Hk.
      * apply Hinj.
Qed.

Lemma JSON_parse_private c h :
  private_copy h (JSON_parse c h).2 (JSON_parse c h).1 c.
Proof.
  unfold JSON_parse.
  set (cm := match colorMap c with
             | Some m => let a := alloc (OColorMap m) h in (Some a.1, a.2)
             | None => (None, h)
             end).
  assert (h ⊆ cm.2 ∧ rep_colorMap h cm.2 cm.1 (colorMap c)) as [Hsub1 Hcm].
  { unfold cm. destruct (colorMap c) as [m|]; simpl; [|done].
    destruct (alloc_private h (OColorMap m) h) as [? ?]; [done |].
    split; [done |]. split; [done | apply alloc_lookup]. }
  set (tcs := match typeCounters c with
              | Some m =>
                  let r := parse_typeCounters m cm.2 in
                  let a := alloc (OTypeCounters r.1) r.2 in (Some a.1, a.2)
              | None => (None, cm.2)
              end).
  assert (h ⊆ tcs.2 ∧ rep_colorMap h tcs.2 cm.1 (colorMap c)
          ∧ rep_typeCounters h tcs.2 tcs.1 (typeCounters c))
    as (Hsub2 & Hcm2 & Htcs).
  { unfold tcs. destruct (typeCounters c) as [m|]; simpl; [|done].
    destruct (parse_typeCounters_spec m cm.2) as (Hsub & Hrep & Hinj).
    set (r := parse_typeCounters m cm.2) in *.
    assert (h ⊆ r.2) as Hsubr by (by etrans).
    destruct (alloc_private h (OTypeCounters r.1) r.2 Hsubr) as [Hsub' Hnew].
    split; [done |]. split.
    - apply rep_colorMap_alloc.
      unfold rep_colorMap in *. destruct cm.1, (colorMap c); try done.
      destruct Hcm as [? Hlm]. split; [done |]. by eapply lookup_weaken.
    - split; [done |]. exists r.1. split; [apply alloc_lookup |].
      split; [|done]. intros key. apply rep_typeCounter_alloc.
      eapply (rep_typeCounter_caller _ cm.2); [exact Hsub1 | apply Hrep]. }
  destruct (alloc_private h (OCounters cm.1 (nextColorNum c) tcs.1 (version c))
              tcs.2 Hsub2) as [Hsub3 Hnew].
  split; [done |]. split; [done |].
  exists cm.1, tcs.1. split; [apply alloc_lookup |]. split.
  - by apply rep_colorMap_alloc.
  - by apply rep_typeCounters_alloc.
Qed.

(** *** The statements keep the copy private and change its value as
    their value-level versions say *)

(** An assignment to an object of another kind keeps a representation. *)
Lemma rep_colorMap_store_other caller h l o cm v :
  rep_colorMap caller h cm v → (∀ m, h !! l ≠ Some (OColorMap m)) →
  rep_colorMap caller (<[l := o]> h) cm v.
Proof.
  intros Hrep Hkind. apply rep_colorMap_store; [done |]. intros ->.
  unfold rep_colorMap in Hrep. destruct v as [m|]; [|done].
  destruct Hrep as [_ Hl]. by apply Hkind in Hl.
Qed.

Lemma rep_typeCounters_store_other caller h l o tcs v :
  rep_typeCounters caller h tcs v →
  (∀ ml, h !! l ≠ Some (OTypeCounters ml)) →
  (∀ n, h !! l ≠ Some (OTypeCounter n)) →
  rep_typeCounters caller (<[l := o]> h) tcs v.
Proof.
  intros Hrep Hk1 Hk2. apply rep_typeCounters_store; [done | |].
  - intros ->. unfold rep_typeCounters in Hrep. destruct v; [|done].
    destruct Hrep as (_ & ml & Hl & _). by apply Hk1 in Hl.
  - intros lt ml key -> Hml Hk. unfold rep_typeCounters in Hrep.
    destruct v as [m|]; [|done]. destruct Hrep as (_ & ml' & Hml' & Hrep & _).
    assert (ml' = ml) as -> by congruence.
    specialize (Hrep key). rewrite Hk in Hrep. unfold rep_typeCounter in Hrep.
    destruct (m !! key); [|done]. destruct Hrep as [_ Hl]. by apply Hk2 in Hl.
Qed.

Lemma ensure_colorMap_h_spec caller h l c :
  private_copy caller h l c →
  ∃ h', ensure_colorMap_h l h = Some h'
        ∧ private_copy caller h' l (ensure_colorMap c).
Proof.
  intros (Hsub & Hc & cm & tcs & Hl & Hcm & Htcs).
  unfold ensure_colorMap_h, ensure_colorMap. rewrite Hl.
  unfold rep_colorMap in Hcm.
  destruct cm as [lm|], (colorMap c) as [m|] eqn:Ecm; try done.
  - eexists. split; [done |]. split; [done |]. split; [done |].
    exists (Some lm), tcs. rewrite Ecm. split; [done |]. split; [exact Hcm | done].
  - set (a := alloc (OColorMap ∅) h).
    destruct (alloc_private caller (OColorMap ∅) h Hsub) as [Hsub' Hnew].
    fold a in Hsub', Hnew.
    assert (a.2 !! l = Some (OCounters None (nextColorNum c) tcs (version c)))
      as Hl'.
    { unfold a. rewrite alloc_heap, lookup_insert_ne; [done |].
      symmetry. by eapply alloc_ne. }
    eexists. split; [done |]. split; [by apply store_private |].
    split; [done |]. exists (Some a.1), tcs.
    cbn [colorMap nextColorNum typeCounters version].
    rewrite lookup_insert_eq. split; [done |]. split.
    + split; [done |]. rewrite lookup_insert_ne.
      * apply alloc_lookup.
      * by eapply alloc_ne.
    + apply rep_typeCounters_store_other; [by apply rep_typeCounters_alloc | |];
        intros ?; by rewrite Hl'.
Qed.

Lemma ensure_typeCounters_h_spec caller h l c :
  private_copy caller h l c →
  ∃ h', ensure_typeCounters_h l h = Some h'
        ∧ private_copy caller h' l (ensure_typeCounters c).
Proof.
  intros (Hsub & Hc & cm & tcs & Hl & Hcm & Htcs).
  unfold ensure_typeCounters_h, ensure_typeCounters. rewrite Hl.
  unfold rep_typeCounters in Htcs.
  destruct tcs as [lt|], (typeCounters c) as [m|] eqn:Etc; try done.
  - eexists. split; [done |]. split; [done |]. split; [done |].
    exists cm, (Some lt). rewrite Etc. split; [done |]. split; [done | exact Htcs].
  - set (a := alloc (OTypeCounters ∅) h).
    destruct (alloc_private caller (OTypeCounters ∅) h Hsub) as [Hsub' Hnew].
    fold a in Hsub', Hnew.
    assert (a.2 !! l = Some (OCounters cm (nextColorNum c) None (version c)))
      as Hl'.
    { unfold a. rewrite alloc_heap, lookup_insert_ne; [done |].
      symmetry. by eapply alloc_ne. }
    eexists. split; [done |]. split; [by apply store_private |].
    split; [done |]. exists cm, (Some a.1).
    cbn [colorMap nextColorNum typeCounters version].
    rewrite lookup_insert_eq. split; [done |]. split.
    + apply rep_colorMap_store_other; [by apply rep_colorMap_alloc |].
      intros ?; by rewrite Hl'.
    + split; [done |]. exists ∅. split.
      * rewrite lookup_insert_ne; [apply alloc_lookup | by eapply alloc_ne].
      * split; [|by intros ??? ?%lookup_empty_Some].
        intros key. by rewrite !lookup_empty.
Qed.

Lemma default_Some {A} (d x : A) : default d (Some x) = x.
Proof. reflexivity. Qed.

Lemma ensure_typeCounter_h_spec type caller h l c :
  private_copy caller h l c → is_Some (typeCounters c) →
  ∃ h', ensure_typeCounter_h type l h = Some h'
        ∧ private_copy caller h' l (ensure_typeCounter type c).
Proof.
  intros (Hsub & Hc & cm & tcs & Hl & Hcm & Htcs) [m Etc].
  unfold ensure_typeCounter_h, ensure_typeCounter. rewrite Hl, Etc in *.
  rewrite default_Some.
  unfold rep_typeCounters in Htcs. destruct tcs as [lt|]; [|done].
  destruct Htcs as (Hclt & ml & Hlt & Hrep & Hinj). rewrite Hlt.
  pose proof (Hrep type) as Hty. unfold rep_typeCounter in Hty.
  destruct (ml !! type) as [l'|] eqn:Eml, (m !! type) as [tc|] eqn:Em;
    try done.
  - eexists. split; [done |]. split; [done |]. split; [done |].
    exists cm, (Some lt). rewrite Etc. split; [done |]. split; [done |].
    split; [done |]. by exists ml.
  - set (a := alloc (OTypeCounter (JNum 1)) h).
    destruct (alloc_private caller (OTypeCounter (JNum 1)) h Hsub)
      as [Hsub' Hnew]. fold a in Hsub', Hnew.
    assert (lt ≠ a.1) as Hne by (by eapply alloc_ne).
    assert (a.2 !! lt = Some (OTypeCounters ml)) as Hlt'.
    { unfold a. by rewrite alloc_heap, lookup_insert_ne. }
    assert (∀ key, ml !! key ≠ Some a.1) as Hran.
    { intros key Hk. specialize (Hrep key). rewrite Hk in Hrep.
      unfold rep_typeCounter in Hrep. destruct (m !! key); [|done].
      destruct Hrep as [_ Hl']. unfold a in Hl'. by rewrite alloc_fresh in Hl'. }
    eexists. split; [done |]. split; [by apply store_private |].
    split; [done |]. exists cm, (Some lt).
    cbn [colorMap nextColorNum typeCounters version]. split; [|split].
    + rewrite lookup_insert_ne by congruence.
      unfold a. rewrite alloc_heap, lookup_insert_ne; [done |].
      symmetry. by eapply alloc_ne.
    + apply rep_colorMap_store_other; [by apply rep_colorMap_alloc |].
      intros ?; by rewrite Hlt'.
    + split; [done |]. exists (<[type := a.1]> ml).
      rewrite lookup_insert_eq. split; [done |]. split.
      * intros key. destruct (decide (type = key)) as [<- | Hk].
        -- rewrite !lookup_insert_eq. split; [done |].
           rewrite lookup_insert_ne by done. apply alloc_lookup.
        -- rewrite !lookup_insert_ne by done.
           apply rep_typeCounter_store; [by apply rep_typeCounter_alloc |].
           intros Heq. specialize (Hrep key). rewrite Heq in Hrep.
           unfold rep_typeCounter in Hrep. destruct (m !! key); [|done].
           destruct Hrep as [_ ?]. congruence.
      * intros key1 key2 l'.
        destruct (decide (type = key1)) as [<- | Hne1],
                 (decide (type = key2)) as [<- | Hne2];
          rewrite ?lookup_insert_eq, ?lookup_insert_ne by done; try done.
        -- intros [= <-] Hk. by apply Hran in Hk.
        -- intros Hk [= <-]. by apply Hran in Hk.
        -- apply Hinj.
Qed.

Lemma assign_colorCode_h_spec key caller h l c :
  private_copy caller h l c → is_Some (colorMap c) →
  ∃ h', assign_colorCode_h key l h = Some h'
        ∧ private_copy caller h' l (assign_colorCode key c).
Proof.
  intros (Hsub & Hc & cm & tcs & Hl & Hcm & Htcs) [m Ecm].
  unfold assign_colorCode_h, assign_colorCode. rewrite Hl, Ecm in *.
  rewrite default_Some.
  unfold rep_colorMap in Hcm. destruct cm as [lm|]; [|done].
  destruct Hcm as [Hclm Hlm]. rewrite Hlm.
  destruct (truthy_prop (m !! key)).
  - eexists. split; [done |]. split; [done |]. split; [done |].
    exists (Some lm), tcs. rewrite Ecm. by split.
  - unfold post_incr.
    assert (l ≠ lm) as Hne by congruence.
    eexists. split; [done |]. split.
    { apply store_private; [by apply store_private | done]. }
    split; [done |]. exists (Some lm), tcs.
    cbn [colorMap nextColorNum typeCounters version]. split; [|split].
    + by rewrite lookup_insert_ne, lookup_insert_eq.
    + split; [done | by rewrite lookup_insert_eq].
    + apply rep_typeCounters_store_other; [|intros ?..].
      * apply rep_typeCounters_store_other; [done | |]; intros ?; by rewrite Hl.
      * by rewrite lookup_insert_ne, Hlm.
      * by rewrite lookup_insert_ne, Hlm.
Qed.

Lemma take_spoolNum_h_spec type caller h l c m :
  private_copy caller h l c →
  typeCounters c = Some m → is_Some (m !! type) →
  ∃ h', take_spoolNum_h type l h = Some ((take_spoolNum type c).1, h')
        ∧ private_copy caller h' l (take_spoolNum type c).2.
Proof.
  intros (Hsub & Hc & cm & tcs & Hl & Hcm & Htcs) Etc [tc Em].
  unfold take_spoolNum_h, take_spoolNum. rewrite Hl, Etc in *.
  rewrite default_Some, Em. cbn [fmap option_fmap option_map].
  unfold rep_typeCounters in Htcs. destruct tcs as [lt|]; [|done].
  destruct Htcs as (Hclt & ml & Hlt & Hrep & Hinj). rewrite Hlt.
  pose proof (Hrep type) as Hty. unfold rep_typeCounter in Hty. rewrite Em in Hty.
  destruct (ml !! type) as [l'|] eqn:Eml; [|done].
  destruct Hty as [Hcl' Hl']. rewrite Hl'. unfold post_incr.
  cbn [fst snd].
  eexists. split; [done |]. split; [by apply store_private |].
  split; [done |]. exists cm, (Some lt).
  cbn [colorMap nextColorNum typeCounters version]. split; [|split].
  - rewrite lookup_insert_ne; [done | congruence].
  - apply rep_colorMap_store_other; [done |]. intros ?; by rewrite Hl'.
  - split; [done |]. exists ml.
    rewrite lookup_insert_ne by congruence. split; [done |]. split; [|done].
    intros key. destruct (decide (type = key)) as [<- | Hk].
    + rewrite Eml, lookup_insert_eq. split; [done |].
      by rewrite lookup_insert_eq.
    + rewrite lookup_insert_ne by done.
      apply rep_typeCounter_store; [done |]. intros Heq.
      apply Hk. by eapply Hinj.
Qed.

Lemma read_colorCode_h_spec key caller h l c :
  private_copy caller h l c → is_Some (colorMap c) →
  read_colorCode_h key l h = Some (read_colorCode key c).
Proof.
  intros (Hsub & Hc & cm & tcs & Hl & Hcm & Htcs) [m Ecm].
  unfold read_colorCode_h, read_colorCode. rewrite Hl, Ecm in *.
  rewrite default_Some. unfold rep_colorMap in Hcm. destruct cm as [lm|]; [|done].
  destruct Hcm as [_ Hlm]. by rewrite Hlm.
Qed.

(** *** The call *)

(** A larger heap with the same objects gives the same value. *)
Lemma read_counters_weaken h h' l c :
  h ⊆ h' → read_counters h l = Some c → read_counters h' l = Some c.
Proof.
  intros Hsub. unfold read_counters.
  destruct (h !! l) as [[cm ncn tcs ver| | |]|] eqn:Hl; try done.
  rewrite (lookup_weaken _ _ _ _ Hl Hsub).
  assert (∀ ol v, read_property (read_colorMap h) ol = Some v →
                  read_property (read_colorMap h') ol = Some v) as Hcm.
  { intros [lm|] v; simpl; [|done]. unfold read_colorMap.
    destruct (h !! lm) as [[]|] eqn:E; try done.
    by rewrite (lookup_weaken _ _ _ _ E Hsub). }
  assert (∀ l' x, read_typeCounter h l' = Some x →
                  read_typeCounter h' l' = Some x) as Htc.
  { intros l' x. unfold read_typeCounter.
    destruct (h !! l') as [[]|] eqn:E; try done.
    by rewrite (lookup_weaken _ _ _ _ E Hsub). }
  assert (∀ ol v, read_property (read_typeCounters h) ol = Some v →
                  read_property (read_typeCounters h') ol = Some v) as Htcs.
  { intros [lt|] v; simpl; [|done]. unfold read_typeCounters.
    destruct (h !! lt) as [[| |ml|]|] eqn:E; try done.
    rewrite (lookup_weaken _ _ _ _ E Hsub).
    destruct (decide (map_Forall _ ml)) as [Hall|]; [|done].
    rewrite decide_True.
    - intros [= <-].
      assert (omap (read_typeCounter h') ml = omap (read_typeCounter h) ml)
        as ->; [|done].
      apply map_eq. intros key.
      rewrite !lookup_omap. destruct (ml !! key) as [l'|] eqn:Ek; simpl; [|done].
      destruct (Hall _ _ Ek) as [x Hx]. by rewrite Hx, (Htc _ _ Hx).
    - intros key l' Ek. destruct (Hall _ _ Ek) as [x Hx].
      rewrite (Htc _ _ Hx). eauto. }
  destruct (read_property (read_colorMap h) cm) as [vm|] eqn:E1; simpl; [|done].
  destruct (read_property (read_typeCounters h) tcs) as [vt|] eqn:E2; simpl; [|done].
  by rewrite (Hcm _ _ E1), (Htcs _ _ E2).
Qed.

Lemma colorMap_ensure_colorMap c : is_Some (colorMap (ensure_colorMap c)).
Proof.
  unfold ensure_colorMap. destruct (colorMap c) eqn:E; rewrite ?E; simpl; eauto.
Qed.

Lemma typeCounters_ensure_typeCounters c :
  is_Some (typeCounters (ensure_typeCounters c)).
Proof.
  unfold ensure_typeCounters.
  destruct (typeCounters c) eqn:E; rewrite ?E; simpl; eauto.
Qed.

(** On a heap that holds a counter state behind [currentCounters], the call
    returns the id the value-level function computes, and a reference to a
    private copy that holds the updated counters. *)
Lemma generate_h_spec t col currentCounters h c :
  read_counters h currentCounters = Some c →
  ∃ l' h',
    generateNewIdAndUpdateCounters_h t col currentCounters h
    = Some (newId (generateNewIdAndUpdateCounters t col c), l', h')
    ∧ private_copy h h' l'
        (updatedCounters (generateNewIdAndUpdateCounters t col c)).
Proof.
  intros Hread. unfold generateNewIdAndUpdateCounters_h, JSON_stringify.
  rewrite Hread. cbn [fmap option_fmap option_map mbind option_bind].
  pose proof (JSON_parse_private (json_copy c) h) as P0.
  set (parsed := JSON_parse (json_copy c) h) in *.
  destruct (ensure_colorMap_h_spec _ _ _ _ P0) as (h1 & -> & P1).
  cbn [mbind option_bind].
  destruct (ensure_typeCounters_h_spec _ _ _ _ P1) as (h2 & -> & P2).
  cbn [mbind option_bind].
  destruct (ensure_typeCounter_h_spec (typeCode t) _ _ _ _ P2
              (typeCounters_ensure_typeCounters _)) as (h3 & -> & P3).
  cbn [mbind option_bind].
  set (c3 := ensure_typeCounter (typeCode t)
               (ensure_typeCounters (ensure_colorMap (json_copy c)))) in *.
  assert (is_Some (colorMap c3)) as Hcm3.
  { unfold c3.
    rewrite (proj1 (colorMap_ensure_typeCounter _ _)),
      (proj1 (colorMap_ensure_typeCounters _)).
    apply colorMap_ensure_colorMap. }
  destruct (assign_colorCode_h_spec (colorKey col) _ _ _ _ P3 Hcm3)
    as (h4 & -> & P4).
  cbn [mbind option_bind].
  set (c4 := assign_colorCode (colorKey col) c3) in *.
  assert (typeCounters c4
          = Some (<[typeCode t :=
                      default {| nextSpoolNum := JNum 1 |}
                        (default ∅ (typeCounters (json_copy c)) !! typeCode t)]>
                    (default ∅ (typeCounters (json_copy c))))) as Htc4.
  { unfold c4. rewrite typeCounters_assign_colorCode.
    apply typeCounters_prepared. }
  destruct (take_spoolNum_h_spec (typeCode t) _ _ _ _ _ P4 Htc4)
    as (h5 & -> & P5).
  { rewrite lookup_insert_eq. eauto. }
  cbn [mbind option_bind fst snd].
  assert (is_Some (colorMap (take_spoolNum (typeCode t) c4).2)) as Hcm5.
  { change (colorMap (take_spoolNum ?T ?c).2) with (colorMap c).
    destruct Hcm3 as [m Hm]. unfold c4, assign_colorCode. rewrite Hm.
    rewrite default_Some. destruct (truthy_prop _); [by rewrite Hm; eauto |].
    simpl. eauto. }
  rewrite (read_colorCode_h_spec (colorKey col) _ _ _ _ P5 Hcm5).
  cbn [mbind option_bind].
  exists parsed.1, h5. split; [reflexivity |]. exact P5.
Qed.

(** C10. Let [currentCounters] refer to a counter state [c] in the heap.
    The call returns the id and a reference [l'] that the caller's heap did
    not hold. Every object of the caller's heap is the same after the call
    ([h ⊆ h']), so the caller's counters still have the value [c]; the
    updates are behind the returned reference only, which holds the value
    of [updatedCounters]. *)
Theorem allocate_does_not_mutate_caller t col currentCounters h c :
  read_counters h currentCounters = Some c →
  ∃ l' h',
    generateNewIdAndUpdateCounters_h t col currentCounters h
    = Some (newId (generateNewIdAndUpdateCounters t col c), l', h')
    ∧ h ⊆ h'
    ∧ h !! l' = None
    ∧ read_counters h' currentCounters = Some c
    ∧ read_counters h' l'
      = Some (updatedCounters (generateNewIdAndUpdateCounters t col c)).
Proof.
  intros Hread.
  destruct (generate_h_spec t col _ _ _ Hread) as (l' & h' & Hcall & Hcopy).
  exists l', h'. split; [done |].
  pose proof (private_copy_read _ _ _ _ Hcopy) as Hupd.
  destruct Hcopy as (Hsub & Hnew & _).
  split; [done |]. split; [done |]. split; [|done].
  by eapply read_counters_weaken.
Qed.

End HeapFacts.

(** A call on a heap that holds one counter state. *)
Lemma allocate_does_not_mutate_caller_witness :
  read_counters callerHeap callerRef = Some callerCounters
  ∧ ∃ l' h',
      generateNewIdAndUpdateCounters_h "PETG" "Galaxy Black" callerRef callerHeap
      = Some (newId (generateNewIdAndUpdateCounters "PETG" "Galaxy Black"
                       callerCounters), l', h')
      ∧ callerHeap ⊆ h'
      ∧ callerHeap !! l' = None
      ∧ read_counters h' callerRef = Some callerCounters
      ∧ read_counters h' l'
        = Some (updatedCounters
                  (generateNewIdAndUpdateCounters "PETG" "Galaxy Black"
                     callerCounters)).
Proof.
  assert (read_counters callerHeap callerRef = Some callerCounters) as Hread
    by (by vm_compute).
  split; [exact Hread |].
  exact (allocate_does_not_mutate_caller "PETG" "Galaxy Black" callerRef
           callerHeap callerCounters Hread).
Defined.

(** ** The storage-location tree *)

Section TreeFacts.

Implicit Types (n node : StorageNode) (nodes tree : list StorageNode).
Implicit Types (p nm : string).

(** *** The handlers on a node, in terms of the handlers on its children *)

Lemma traverse_node_eq nm pth ch :
  traverse_node (mkNode nm pth ch) = pth :: traverse ch.
Proof. reflexivity. Qed.

Lemma findAndAdd_node_eq newNode p nm pth ch :
  findAndAdd_node newNode p (mkNode nm pth ch)
  = if String.eqb pth p then (mkNode nm pth (ch ++ [newNode]), true)
    else let '(ch', found) := findAndAdd newNode p ch in
         (mkNode nm pth ch', found).
Proof.
  simpl. destruct (String.eqb pth p); [done |].
  match goal with |- (let '(_, _) := ?a in _) = (let '(_, _) := ?b in _) =>
    assert (a = b) as ->; [|done] end.
  induction ch as [|c ch IH]; simpl; [done |].
  destruct (findAndAdd_node newNode p c) as [c' []]; [done |].
  by rewrite IH.
Qed.

Lemma findAndDelete_node_eq p nm pth ch :
  findAndDelete_node p (mkNode nm pth ch) = mkNode nm pth (findAndDelete ch p).
Proof.
  simpl. f_equal. induction ch as [|c ch IH]; simpl; [done |].
  by destruct (String.eqb (path c) p); rewrite IH.
Qed.

Lemma updateChildPaths_node_eq old new nm pth ch :
  updateChildPaths_node old new (mkNode nm pth ch)
  = pth' ← replace_start old new pth;
    ch' ← updateChildPaths ch old new;
    Some (mkNode nm pth' ch').
Proof.
  simpl. destruct (replace_start old new pth) as [pth'|]; simpl; [|done].
  match goal with |- (?a ≫= _) = (?b ≫= _) => assert (a = b) as ->; [|done] end.
  induction ch as [|c ch IH]; simpl; [done |].
  destruct (updateChildPaths_node old new c); simpl; [|done].
  by rewrite IH.
Qed.

Lemma findAndRename_node_eq newName p nm pth ch :
  findAndRename_node newName p (mkNode nm pth ch)
  = if String.eqb pth p then
      node' ← renameNode newName p (mkNode nm pth ch); Some (node', true)
    else
      '(ch', found) ← findAndRename newName ch p;
      Some (mkNode nm pth ch', found).
Proof.
  simpl. destruct (String.eqb pth p); [done |].
  match goal with |- (?a ≫= _) = (?b ≫= _) => assert (a = b) as ->; [|done] end.
  induction ch as [|c ch IH]; simpl; [done |].
  destruct (findAndRename_node newName p c) as [[c' []]|]; simpl; [done | | done].
  by rewrite IH.
Qed.

(** From here on a handler applied to a node is unfolded by these equations
    only. *)
#[local] Arguments traverse_node : simpl never.
#[local] Arguments findAndAdd_node : simpl never.
#[local] Arguments findAndDelete_node : simpl never.
#[local] Arguments updateChildPaths_node : simpl never.
#[local] Arguments findAndRename_node : simpl never.

Lemma traverse_app nodes1 nodes2 :
  traverse (nodes1 ++ nodes2) = traverse nodes1 ++ traverse nodes2.
Proof.
  induction nodes1 as [|n nodes1 IH]; simpl; [done |].
  by rewrite IH, app_assoc.
Qed.

Lemma includes_true (l : list string) p : includes l p = true ↔ p ∈ l.
Proof.
  unfold includes. rewrite existsb_exists. split.
  - intros (x & Hin & ->%String.eqb_eq). by apply list_elem_of_In.
  - intros Hin. exists p. split; [by apply list_elem_of_In | apply String.eqb_refl].
Qed.

Lemma includes_false (l : list string) p : includes l p = false ↔ p ∉ l.
Proof.
  rewrite <- includes_true. destruct (includes l p); split; congruence.
Qed.

(** *** Adding a node *)

(** [findAndAdd] reports whether a node with the parent path exists; if so
    the forest gains exactly the new node, if not it is left as it is. *)
Lemma findAndAdd_spec newNode p nodes :
  let r := findAndAdd newNode p nodes in
  (r.2 = true ↔ p ∈ traverse nodes)
  ∧ (r.2 = true → traverse r.1 ≡ₚ traverse_node newNode ++ traverse nodes)
  ∧ (r.2 = false → r.1 = nodes).
Proof.
  revert nodes.
  apply (forest_ind2
    (λ n, let r := findAndAdd_node newNode p n in
          (r.2 = true ↔ p ∈ traverse_node n)
          ∧ (r.2 = true →
             traverse_node r.1 ≡ₚ traverse_node newNode ++ traverse_node n)
          ∧ (r.2 = false → r.1 = n))).
  - intros nm pth ch IH. cbv zeta in *.
    rewrite findAndAdd_node_eq, traverse_node_eq.
    destruct (String.eqb_spec pth p) as [-> | Hne]; simpl.
    + rewrite traverse_node_eq, traverse_app; simpl. rewrite app_nil_r.
      split; [split; [intros _; apply list_elem_of_here | done] |].
      split; [|done]. intros _.
      by rewrite (Permutation_app_comm (traverse_node newNode)).
    + destruct (findAndAdd newNode p ch) as [ch' found]; simpl in *.
      destruct IH as (IH1 & IH2 & IH3). rewrite traverse_node_eq.
      split; [|split].
      * rewrite IH1, elem_of_cons. split; [auto |]. by intros [? | ?].
      * intros Hf. rewrite (IH2 Hf). by rewrite Permutation_middle.
      * intros Hf. by rewrite (IH3 Hf).
  - simpl. split; [split; [done | by intros ?%elem_of_nil] | done].
  - intros n rest (H1 & H2 & H3) (R1 & R2 & R3). simpl.
    destruct (findAndAdd_node newNode p n) as [n' found]; simpl in *.
    destruct found; simpl.
    + split; [split; [intros _; apply elem_of_app; left; by apply H1 | done] |].
      split; [|done]. intros _. rewrite (H2 eq_refl). by rewrite app_assoc.
    + destruct (findAndAdd newNode p rest) as [rest' found']; simpl in *.
      split; [|split].
      * rewrite elem_of_app, R1. split; [auto |].
        intros [Hin | Hin]; [|done]. apply H1 in Hin. discriminate.
      * intros Hf. rewrite (R2 Hf).
        rewrite !app_assoc. apply Permutation_app_tail, Permutation_app_comm.
      * intros Hf. by rewrite (R3 Hf).
Qed.

(** *** Deleting a node *)

(** No node with the deleted path is left, and what is left was there. *)
Lemma findAndDelete_spec p nodes :
  (p ∉ traverse (findAndDelete nodes p))
  ∧ (traverse (findAndDelete nodes p) `sublist_of` traverse nodes).
Proof.
  revert nodes.
  apply (forest_ind2
    (λ n, path n ≠ p →
          (p ∉ traverse_node (findAndDelete_node p n))
          ∧ (traverse_node (findAndDelete_node p n)
             `sublist_of` traverse_node n))).
  - intros nm pth ch [IH1 IH2] Hne. simpl in Hne.
    rewrite findAndDelete_node_eq, !traverse_node_eq. split.
    + rewrite elem_of_cons. by intros [? | ?].
    + by apply sublist_skip.
  - simpl. split; [by intros ?%elem_of_nil | done].
  - intros n rest Hn [R1 R2]. simpl.
    destruct (String.eqb_spec (path n) p) as [Heq | Hne].
    + split; [done |]. by apply sublist_inserts_l.
    + destruct (Hn Hne) as [H1 H2]. simpl. split.
      * rewrite elem_of_app. by intros [? | ?].
      * by apply sublist_app.
Qed.

(** *** Renaming a node *)

(** [findAndRename] reports whether a node with the path exists; if so the
    new path is a path of the result, whatever else the forest holds; if
    not the forest is left as it is. *)
Lemma findAndRename_spec newName p nodes nodes' found :
  findAndRename newName nodes p = Some (nodes', found) →
  (found = true ↔ p ∈ traverse nodes)
  ∧ (found = true → joinPath (parentOf p) newName ∈ traverse nodes')
  ∧ (found = false → nodes' = nodes).
Proof.
  revert nodes nodes' found.
  apply (forest_ind2
    (λ n, ∀ n' found,
       findAndRename_node newName p n = Some (n', found) →
       (found = true ↔ p ∈ traverse_node n)
       ∧ (found = true → joinPath (parentOf p) newName ∈ traverse_node n')
       ∧ (found = false → n' = n))
    (λ nodes, ∀ nodes' found,
       findAndRename newName nodes p = Some (nodes', found) →
       (found = true ↔ p ∈ traverse nodes)
       ∧ (found = true → joinPath (parentOf p) newName ∈ traverse nodes')
       ∧ (found = false → nodes' = nodes))).
  - intros nm pth ch IH n' found. rewrite findAndRename_node_eq, traverse_node_eq.
    destruct (String.eqb_spec pth p) as [-> | Hne].
    + unfold renameNode; simpl.
      destruct (updateChildPaths ch p _) as [ch'|]; simpl; [|done].
      intros [= <- <-]. rewrite traverse_node_eq.
      split; [split; [intros _; apply list_elem_of_here | done] |].
      split; [intros _; apply list_elem_of_here | done].
    + destruct (findAndRename newName ch p) as [[ch' f]|] eqn:E; simpl; [|done].
      intros [= <- <-]. destruct (IH _ _ eq_refl) as (IH1 & IH2 & IH3).
      rewrite traverse_node_eq. split; [|split].
      * rewrite IH1, elem_of_cons. split; [auto |]. by intros [? | ?].
      * intros Hf. apply elem_of_cons. right. auto.
      * intros Hf. by rewrite (IH3 Hf).
  - intros nodes' found [= <- <-]. simpl.
    split; [split; [done | by intros ?%elem_of_nil] | done].
  - intros n rest Hn Hrest nodes' found. simpl.
    destruct (findAndRename_node newName p n) as [[n' f]|] eqn:E; simpl; [|done].
    destruct (Hn _ _ eq_refl) as (H1 & H2 & H3). destruct f.
    + intros [= <- <-]. simpl.
      split; [split; [intros _; apply elem_of_app; left; by apply H1 | done] |].
      split; [|done]. intros _. apply elem_of_app. left. auto.
    + destruct (findAndRename newName rest p) as [[rest' f']|] eqn:E'; simpl; [|done].
      intros [= <- <-]. destruct (Hrest _ _ eq_refl) as (R1 & R2 & R3).
      simpl. split; [|split].
      * rewrite elem_of_app, R1. split; [auto |].
        intros [Hin | Hin]; [|done]. apply H1 in Hin. discriminate.
      * intros Hf. apply elem_of_app. right. auto.
      * intros Hf. by rewrite (R3 Hf).
Qed.

(** On a path without regular-expression syntax and a replacement without
    [$], the regular expression replaces the literal prefix. *)
Lemma match_start_plain old s :
  plain old = true →
  ∃ atoms, parse_pattern 0 old = Some atoms
           ∧ match_start atoms s = strip_prefix old s.
Proof.
  revert s; induction old as [|c old IH]; intros s; simpl.
  - intros _. by exists [].
  - intros [Hc Hold]%andb_true_iff. unfold plain_char in Hc.
    apply negb_true_iff in Hc.
    apply orb_false_iff in Hc as [Hc Hdot].
    apply orb_false_iff in Hc as [Hc Hclose].
    apply orb_false_iff in Hc as [Hc Hopen].
    rewrite Hopen, Hclose, Hdot, Hc. destruct s as [|d s]; simpl.
    + destruct (IH "" Hold) as (atoms & -> & _). by exists (AChar c :: atoms).
    + destruct (IH s Hold) as (atoms & -> & Hm).
      exists (AChar c :: atoms). simpl. by rewrite Hm.
Qed.

Lemma replace_start_plain old new q :
  plain old = true → has_dollar new = false →
  replace_start old new q = Some (replace_prefix old new q).
Proof.
  intros Hold Hnew. unfold replace_start, replace_prefix.
  destruct (match_start_plain old q Hold) as (atoms & -> & ->).
  by rewrite Hnew.
Qed.

Lemma map_paths_node_eq f nm pth ch :
  map_paths_node f (mkNode nm pth ch) = mkNode nm (f pth) (map_paths f ch).
Proof.
  simpl. f_equal. induction ch as [|c ch IH]; simpl; [done | by rewrite IH].
Qed.

#[local] Arguments map_paths_node : simpl never.

(** For such paths [updateChildPaths] rewrites the literal prefix of every
    descendant's path. *)
Lemma updateChildPaths_plain old new nodes :
  plain old = true → has_dollar new = false →
  updateChildPaths nodes old new = Some (map_paths (replace_prefix old new) nodes).
Proof.
  intros Hold Hnew. revert nodes.
  apply (forest_ind2
    (λ n, updateChildPaths_node old new n
          = Some (map_paths_node (replace_prefix old new) n))).
  - intros nm pth ch IH.
    rewrite updateChildPaths_node_eq, map_paths_node_eq, IH.
    by rewrite replace_start_plain.
  - done.
  - intros n rest Hn Hrest. simpl. by rewrite Hn, Hrest.
Qed.

(** C5. Scenario C holds on the tree the code builds for it: renaming BoxA
    under Shelf1 to BoxB moves Bin1 to the path of BoxB and leaves the
    sibling BoxA2 alone. The rewriting is not a literal prefix replacement,
    though: the old path is compiled as a regular expression. Take a
    location named "Box (1)" with a bin added below it. The expression
    matches "Box 1", not the path of the bin, so the rename to "Box2"
    leaves the descendant at its old path "Box (1) / Bin1", where a literal
    replacement gives "Box2 / Bin1". *)
Theorem rename_reads_old_path_as_regexp :
  handleAdd (handleAdd (handleAdd (handleAdd [] "" (Some "Shelf1"))
                          "Shelf1" (Some "BoxA"))
               "Shelf1 / BoxA" (Some "Bin1"))
    "Shelf1" (Some "BoxA2")
  = scenarioTree
  ∧ handleRename scenarioTree "Shelf1 / BoxA" "BoxA" (Some "BoxB")
  = Some [ mkNode "Shelf1" "Shelf1"
             [ mkNode "BoxB" "Shelf1 / BoxB"
                 [ mkNode "Bin1" "Shelf1 / BoxB / Bin1" [] ];
               mkNode "BoxA2" "Shelf1 / BoxA2" [] ] ]
  ∧ handleAdd (handleAdd [] "" (Some "Box (1)")) "Box (1)" (Some "Bin1")
    = parenTree
  ∧ handleRename parenTree "Box (1)" "Box (1)" (Some "Box2")
    = Some [ mkNode "Box2" "Box2" [ mkNode "Bin1" "Box (1) / Bin1" [] ] ]
  ∧ replace_prefix "Box (1)" "Box2" "Box (1) / Bin1" = "Box2 / Bin1".
Proof. by vm_compute. Qed.

(** *** The positions of a forest *)

Lemma positions_node_eq (anc : list string) nm pth ch :
  positions_node anc (mkNode nm pth ch)
  = {| ancestors := anc; node_name := nm; node_path := pth |}
    :: positions (anc ++ [pth]) ch.
Proof.
  simpl. f_equal. induction ch as [|c ch IH]; simpl; [done | by rewrite IH].
Qed.

Lemma replace_first_node_eq p g nm pth ch :
  replace_first_node p g (mkNode nm pth ch)
  = if String.eqb pth p then (g (mkNode nm pth ch), true)
    else let '(ch', found) := replace_first p g ch in
         (mkNode nm pth ch', found).
Proof.
  simpl. destruct (String.eqb pth p); [done |].
  match goal with |- (let '(_, _) := ?a in _) = (let '(_, _) := ?b in _) =>
    assert (a = b) as ->; [|done] end.
  induction ch as [|c ch IH]; simpl; [done |].
  destruct (replace_first_node p g c) as [c' []]; [done |].
  by rewrite IH.
Qed.

Lemma find_node_in_eq p nm pth ch :
  find_node_in p (mkNode nm pth ch)
  = if String.eqb pth p then Some (mkNode nm pth ch) else find_node p ch.
Proof.
  unfold find_node_in at 1. fold find_node_in.
  destruct (String.eqb pth p); [done|].
  induction ch as [|c ch IH]; simpl; [done | by rewrite IH].
Qed.

#[local] Arguments positions_node : simpl never.
#[local] Arguments replace_first_node : simpl never.
#[local] Arguments find_node_in : simpl never.

Lemma positions_app (anc : list string) nodes1 nodes2 :
  positions anc (nodes1 ++ nodes2)
  = positions anc nodes1 ++ positions anc nodes2.
Proof.
  induction nodes1 as [|n nodes1 IH]; simpl; [done |].
  by rewrite IH, app_assoc.
Qed.

(** The paths of the positions are the paths of the forest. *)
Lemma positions_paths_both :
  (∀ n (anc : list string),
     node_path <$> positions_node anc n = traverse_node n)
  ∧ (∀ nodes (anc : list string),
       node_path <$> positions anc nodes = traverse nodes).
Proof.
  set (P := λ n, ∀ anc : list string,
                   node_path <$> positions_node anc n = traverse_node n).
  set (Q := λ l, ∀ anc : list string,
                   node_path <$> positions anc l = traverse l).
  assert (∀ nm pth ch, Q ch → P (mkNode nm pth ch)) as Hnode.
  { intros nm pth ch IH anc.
    rewrite positions_node_eq, traverse_node_eq, fmap_cons. simpl.
    by rewrite IH. }
  assert (Q []) as Hnil by done.
  assert (∀ n rest, P n → Q rest → Q (n :: rest)) as Hcons.
  { intros n rest Hn Hrest anc. simpl. by rewrite fmap_app, Hn, Hrest. }
  split; [exact (node_ind2 P Q Hnode Hnil Hcons)
         | exact (forest_ind2 P Q Hnode Hnil Hcons)].
Qed.

Lemma absent_positions p (l : list Position) :
  p ∉ node_path <$> l → Forall (λ e, node_path e ≠ p) l.
Proof.
  intros Hp. apply Forall_forall. intros e He Heq.
  apply Hp, list_elem_of_fmap. by exists e.
Qed.

(** The paths above a forest are above every node of it. *)
Lemma positions_above_both :
  (∀ n (anc : list string) e,
     e ∈ positions_node anc n → anc `prefix_of` ancestors e)
  ∧ (∀ nodes (anc : list string) e,
       e ∈ positions anc nodes → anc `prefix_of` ancestors e).
Proof.
  set (P := λ n, ∀ (anc : list string) e,
                   e ∈ positions_node anc n → anc `prefix_of` ancestors e).
  set (Q := λ l, ∀ (anc : list string) e,
                   e ∈ positions anc l → anc `prefix_of` ancestors e).
  assert (∀ nm pth ch, Q ch → P (mkNode nm pth ch)) as Hnode.
  { intros nm pth ch IH anc e. rewrite positions_node_eq.
    intros [-> | He]%elem_of_cons; [done|].
    etrans; [|exact (IH _ _ He)]. by apply prefix_app_r. }
  assert (Q []) as Hnil. { by intros anc e ?%elem_of_nil. }
  assert (∀ n rest, P n → Q rest → Q (n :: rest)) as Hcons.
  { intros n rest Hn Hrest anc e. simpl.
    intros [He | He]%elem_of_app; [by apply Hn | by apply Hrest]. }
  split; [exact (node_ind2 P Q Hnode Hnil Hcons)
         | exact (forest_ind2 P Q Hnode Hnil Hcons)].
Qed.

Lemma filter_none {A} (P : A → Prop) `{∀ x, Decision (P x)} (l : list A) :
  Forall (λ x, ¬ P x) l → filter P l = [].
Proof.
  induction 1 as [|x l Hx _ IH]; [done|].
  by rewrite filter_cons_False.
Qed.

(** A deletion keeps the positions that are outside the deleted path, and
    those only. *)
Lemma findAndDelete_positions_both p :
  (∀ n (anc : list string),
     p ∉ anc → path n ≠ p →
     positions_node anc (findAndDelete_node p n)
     = filter (λ e, outside p e = true) (positions_node anc n))
  ∧ (∀ nodes (anc : list string),
       p ∉ anc →
       positions anc (findAndDelete nodes p)
       = filter (λ e, outside p e = true) (positions anc nodes)).
Proof.
  set (P := λ n, ∀ anc : list string,
     p ∉ anc → path n ≠ p →
     positions_node anc (findAndDelete_node p n)
     = filter (λ e, outside p e = true) (positions_node anc n)).
  set (Q := λ l, ∀ anc : list string,
     p ∉ anc →
     positions anc (findAndDelete l p)
     = filter (λ e, outside p e = true) (positions anc l)).
  assert (∀ nm pth ch, Q ch → P (mkNode nm pth ch)) as Hnode.
  { intros nm pth ch IH anc Hanc Hne. simpl in Hne.
    rewrite findAndDelete_node_eq, !positions_node_eq.
    rewrite filter_cons_True.
    - f_equal. apply IH. rewrite elem_of_app, list_elem_of_singleton.
      intros [? | ?]; [done | by subst].
    - unfold outside. simpl.
      apply includes_false in Hanc. rewrite Hanc. simpl.
      apply negb_true_iff, String.eqb_neq. done. }
  assert (Q []) as Hnil by done.
  assert (∀ n rest, P n → Q rest → Q (n :: rest)) as Hcons.
  { intros n rest Hn Hrest anc Hanc. cbn [findAndDelete positions].
    rewrite filter_app.
    destruct (String.eqb_spec (path n) p) as [Heq | Hne].
    - rewrite (filter_none _ (positions_node anc n)); [by apply Hrest|].
      apply Forall_forall. intros e He. destruct n as [nm pth ch].
      simpl in Heq. subst pth. rewrite positions_node_eq in He.
      apply elem_of_cons in He as [-> | He]; unfold outside.
      + simpl. rewrite String.eqb_refl, andb_false_r. done.
      + apply (proj2 positions_above_both) in He.
        assert (p ∈ ancestors e) as Hin.
        { destruct He as [k ->]. rewrite !elem_of_app, list_elem_of_singleton.
          auto. }
        apply includes_true in Hin. rewrite Hin. done.
    - simpl. by rewrite (Hn anc Hanc Hne), (Hrest anc Hanc). }
  split; [exact (node_ind2 P Q Hnode Hnil Hcons)
         | exact (forest_ind2 P Q Hnode Hnil Hcons)].
Qed.

(** *** The first node with a path *)

Lemma find_node_None_both p :
  (∀ n, find_node_in p n = None → p ∉ traverse_node n)
  ∧ (∀ nodes, find_node p nodes = None → p ∉ traverse nodes).
Proof.
  set (P := fun n => find_node_in p n = None → p ∉ traverse_node n).
  set (Q := fun l => find_node p l = None → p ∉ traverse l).
  assert (∀ nm pth ch, Q ch → P (mkNode nm pth ch)) as Hnode.
  { intros nm pth ch IH. unfold P. rewrite find_node_in_eq, traverse_node_eq.
    destruct (String.eqb_spec pth p) as [|Hne]; [done|].
    intros Hch. apply not_elem_of_cons. split; [done | by apply IH]. }
  assert (Q []) as Hnil. { intros _. apply not_elem_of_nil. }
  assert (∀ n rest, P n → Q rest → Q (n :: rest)) as Hcons.
  { intros n rest IHn IHrest. unfold Q. simpl.
    destruct (find_node_in p n) eqn:E; [done|].
    intros Hrest. apply not_elem_of_app. split; [by apply IHn | by apply IHrest]. }
  split; [exact (node_ind2 P Q Hnode Hnil Hcons)
         | exact (forest_ind2 P Q Hnode Hnil Hcons)].
Qed.

Lemma find_node_Some_both p :
  (∀ n m, find_node_in p n = Some m → path m = p ∧ p ∈ traverse_node n)
  ∧ (∀ nodes m, find_node p nodes = Some m → path m = p ∧ p ∈ traverse nodes).
Proof.
  set (P := fun n => ∀ m, find_node_in p n = Some m
                          → path m = p ∧ p ∈ traverse_node n).
  set (Q := fun l => ∀ m, find_node p l = Some m
                          → path m = p ∧ p ∈ traverse l).
  assert (∀ nm pth ch, Q ch → P (mkNode nm pth ch)) as Hnode.
  { intros nm pth ch IH m. rewrite find_node_in_eq, traverse_node_eq.
    destruct (String.eqb_spec pth p) as [->|Hne].
    - intros [= <-]. split; [done | apply list_elem_of_here].
    - intros Hm. destruct (IH m Hm) as [? ?].
      split; [done | by apply list_elem_of_further]. }
  assert (Q []) as Hnil by done.
  assert (∀ n rest, P n → Q rest → Q (n :: rest)) as Hcons.
  { intros n rest IHn IHrest m. simpl.
    destruct (find_node_in p n) as [m'|] eqn:E.
    - intros [= <-]. destruct (IHn m' E) as [? ?].
      split; [done | apply elem_of_app; by left].
    - intros Hm. destruct (IHrest m Hm) as [? ?].
      split; [done | apply elem_of_app; by right]. }
  split; [exact (node_ind2 P Q Hnode Hnil Hcons)
         | exact (forest_ind2 P Q Hnode Hnil Hcons)].
Qed.

Lemma find_node_is_Some p nodes : p ∈ traverse nodes → is_Some (find_node p nodes).
Proof.
  intros Hin. destruct (find_node p nodes) eqn:E; [by eexists|].
  by apply find_node_None_both in E.
Qed.

Lemma replace_first_absent_both p g :
  (∀ n, find_node_in p n = None → replace_first_node p g n = (n, false))
  ∧ (∀ nodes, find_node p nodes = None → replace_first p g nodes = (nodes, false)).
Proof.
  set (P := fun n => find_node_in p n = None
                     → replace_first_node p g n = (n, false)).
  set (Q := fun l => find_node p l = None → replace_first p g l = (l, false)).
  assert (∀ nm pth ch, Q ch → P (mkNode nm pth ch)) as Hnode.
  { intros nm pth ch IH. unfold P.
    rewrite find_node_in_eq, replace_first_node_eq.
    destruct (String.eqb pth p); [done|]. intros Hch. by rewrite (IH Hch). }
  assert (Q []) as Hnil by done.
  assert (∀ n rest, P n → Q rest → Q (n :: rest)) as Hcons.
  { intros n rest IHn IHrest. unfold Q. simpl.
    destruct (find_node_in p n) eqn:E; [done|].
    intros Hrest. by rewrite (IHn E), (IHrest Hrest). }
  split; [exact (node_ind2 P Q Hnode Hnil Hcons)
         | exact (forest_ind2 P Q Hnode Hnil Hcons)].
Qed.

(** Replacing the first node with the path [p] changes the positions of
    that node and of the nodes below it, and no other. *)
Lemma replace_first_positions_both p g :
  (∀ n (anc0 : list string) m,
     find_node_in p n = Some m →
     ∃ anc before after,
       positions_node anc0 n = before ++ positions_node anc m ++ after
       ∧ Forall (λ e, node_path e ≠ p) before
       ∧ (replace_first_node p g n).2 = true
       ∧ positions_node anc0 (replace_first_node p g n).1
         = before ++ positions_node anc (g m) ++ after)
  ∧ (∀ nodes (anc0 : list string) m,
       find_node p nodes = Some m →
       ∃ anc before after,
         positions anc0 nodes = before ++ positions_node anc m ++ after
         ∧ Forall (λ e, node_path e ≠ p) before
         ∧ (replace_first p g nodes).2 = true
         ∧ positions anc0 (replace_first p g nodes).1
           = before ++ positions_node anc (g m) ++ after).
Proof.
  set (P := λ n, ∀ (anc0 : list string) m,
     find_node_in p n = Some m →
     ∃ anc before after,
       positions_node anc0 n = before ++ positions_node anc m ++ after
       ∧ Forall (λ e, node_path e ≠ p) before
       ∧ (replace_first_node p g n).2 = true
       ∧ positions_node anc0 (replace_first_node p g n).1
         = before ++ positions_node anc (g m) ++ after).
  set (Q := λ l, ∀ (anc0 : list string) m,
     find_node p l = Some m →
     ∃ anc before after,
       positions anc0 l = before ++ positions_node anc m ++ after
       ∧ Forall (λ e, node_path e ≠ p) before
       ∧ (replace_first p g l).2 = true
       ∧ positions anc0 (replace_first p g l).1
         = before ++ positions_node anc (g m) ++ after).
  assert (∀ nm pth ch, Q ch → P (mkNode nm pth ch)) as Hnode.
  { intros nm pth ch IH anc0 m.
    rewrite find_node_in_eq, replace_first_node_eq.
    destruct (String.eqb_spec pth p) as [-> | Hne].
    - intros [= <-]. exists anc0, [], []. simpl. by rewrite !app_nil_r.
    - intros Hm.
      destruct (IH (anc0 ++ [pth]) m Hm)
        as (anc & before & after & Hpos & Hbefore & Hfound & Hpos').
      destruct (replace_first p g ch) as [ch' found]. simpl in *.
      exists anc,
        ({| ancestors := anc0; node_name := nm; node_path := pth |} :: before),
        after.
      rewrite !positions_node_eq, Hpos, Hpos'.
      split; [done|]. split; [by constructor | done]. }
  assert (Q []) as Hnil by done.
  assert (∀ n rest, P n → Q rest → Q (n :: rest)) as Hcons.
  { intros n rest Hn Hrest anc0 m. cbn [find_node replace_first positions].
    destruct (find_node_in p n) as [m'|] eqn:Hfind.
    - intros [= <-].
      destruct (Hn anc0 m' Hfind)
        as (anc & before & after & Hpos & Hbefore & Hfound & Hpos').
      destruct (replace_first_node p g n) as [n' found]. simpl in *.
      subst found. exists anc, before, (after ++ positions anc0 rest).
      simpl. rewrite Hpos, Hpos', <- !app_assoc. done.
    - intros Hm.
      destruct (Hrest anc0 m Hm)
        as (anc & before & after & Hpos & Hbefore & Hfound & Hpos').
      rewrite (proj1 (replace_first_absent_both p g) n Hfind).
      destruct (replace_first p g rest) as [rest' found]. simpl in *.
      exists anc, (positions_node anc0 n ++ before), after.
      rewrite Hpos, Hpos', <- !app_assoc.
      split; [done|]. split; [|done].
      apply Forall_app. split; [|done]. apply absent_positions.
      rewrite (proj1 positions_paths_both).
      by apply find_node_None_both. }
  split; [exact (node_ind2 P Q Hnode Hnil Hcons)
         | exact (forest_ind2 P Q Hnode Hnil Hcons)].
Qed.

(** [findAndAdd] replaces the first node that has the parent path by that
    node with the new child. *)
Lemma findAndAdd_replace_both newNode p :
  (∀ n, findAndAdd_node newNode p n
        = replace_first_node p (with_child newNode) n)
  ∧ (∀ nodes, findAndAdd newNode p nodes
              = replace_first p (with_child newNode) nodes).
Proof.
  set (P := λ n, findAndAdd_node newNode p n
                 = replace_first_node p (with_child newNode) n).
  set (Q := λ l, findAndAdd newNode p l
                 = replace_first p (with_child newNode) l).
  assert (∀ nm pth ch, Q ch → P (mkNode nm pth ch)) as Hnode.
  { intros nm pth ch IH. unfold P.
    rewrite findAndAdd_node_eq, replace_first_node_eq.
    destruct (String.eqb pth p); [done|]. by rewrite IH. }
  assert (Q []) as Hnil by done.
  assert (∀ n rest, P n → Q rest → Q (n :: rest)) as Hcons.
  { intros n rest Hn Hrest. unfold Q. simpl. by rewrite Hn, Hrest. }
  split; [exact (node_ind2 P Q Hnode Hnil Hcons)
         | exact (forest_ind2 P Q Hnode Hnil Hcons)].
Qed.

(** The positions determine the forest. *)
Lemma positions_inj_both :
  (∀ n (anc : list string) n' (X X' : list Position),
     (∀ e, head X = Some e → List.length (ancestors e) ≤ List.length anc) →
     (∀ e, head X' = Some e → List.length (ancestors e) ≤ List.length anc) →
     positions_node anc n ++ X = positions_node anc n' ++ X' →
     n = n' ∧ X = X')
  ∧ (∀ nodes (anc : list string) nodes' (X X' : list Position),
       (∀ e, head X = Some e → List.length (ancestors e) < List.length anc) →
       (∀ e, head X' = Some e → List.length (ancestors e) < List.length anc) →
       positions anc nodes ++ X = positions anc nodes' ++ X' →
       nodes = nodes' ∧ X = X').
Proof.
  set (P := λ n, ∀ (anc : list string) n' (X X' : list Position),
     (∀ e, head X = Some e → List.length (ancestors e) ≤ List.length anc) →
     (∀ e, head X' = Some e → List.length (ancestors e) ≤ List.length anc) →
     positions_node anc n ++ X = positions_node anc n' ++ X' →
     n = n' ∧ X = X').
  set (Q := λ l, ∀ (anc : list string) l' (X X' : list Position),
     (∀ e, head X = Some e → List.length (ancestors e) < List.length anc) →
     (∀ e, head X' = Some e → List.length (ancestors e) < List.length anc) →
     positions anc l ++ X = positions anc l' ++ X' →
     l = l' ∧ X = X').
  assert (∀ (anc : list string) c r (Z : list Position),
            (∀ e, head Z = Some e
                  → List.length (ancestors e) < List.length anc) →
            ∀ e, head (positions anc (c :: r) ++ Z) = Some e
                 → List.length (ancestors e) ≤ List.length anc) as Hhead.
  { intros anc [nm pth ch] r Z _ e. cbn [positions].
    rewrite positions_node_eq. simpl. by intros [= <-]. }
  assert (∀ nm pth ch, Q ch → P (mkNode nm pth ch)) as Hnode.
  { intros nm pth ch IH anc [nm' pth' ch'] X X' HX HX'.
    rewrite !positions_node_eq. simpl. intros [= -> -> Heq].
    destruct (IH (anc ++ [pth']) ch' X X') as [-> ->]; [| |done|done].
    - intros e He. rewrite length_app. simpl. specialize (HX e He). lia.
    - intros e He. rewrite length_app. simpl. specialize (HX' e He). lia. }
  assert (Q []) as Hnil.
  { intros anc [|[nm' pth' ch'] r'] X X' HX HX'; [simpl; by intros ->|].
    cbn [positions]. rewrite positions_node_eq. simpl. intros ->.
    specialize (HX _ eq_refl). simpl in HX. lia. }
  assert (∀ n rest, P n → Q rest → Q (n :: rest)) as Hcons.
  { intros n rest Hn Hrest anc [|n' rest'] X X' HX HX'.
    - destruct n as [nm pth ch]. cbn [positions].
      rewrite positions_node_eq. simpl. intros <-.
      specialize (HX' _ eq_refl). simpl in HX'. lia.
    - cbn [positions]. rewrite <- !app_assoc. intros Heq.
      assert (∀ r (Z : list Position),
                (∀ e, head Z = Some e
                      → List.length (ancestors e) < List.length anc) →
                ∀ e, head (positions anc r ++ Z) = Some e
                     → List.length (ancestors e) ≤ List.length anc) as Hlvl.
      { intros [|c r] Z HZ e He; [|by eapply Hhead].
        simpl in He. specialize (HZ e He). lia. }
      destruct (Hn anc n' _ _ (Hlvl rest X HX) (Hlvl rest' X' HX') Heq)
        as [-> Heq'].
      by destruct (Hrest anc rest' X X' HX HX' Heq') as [-> ->]. }
  split; [exact (node_ind2 P Q Hnode Hnil Hcons)
         | exact (forest_ind2 P Q Hnode Hnil Hcons)].
Qed.

Lemma positions_inj nodes nodes' :
  positions [] nodes = positions [] nodes' → nodes = nodes'.
Proof.
  intros Heq.
  destruct (proj2 positions_inj_both nodes [] nodes' [] []) as [-> _];
    [done | done | by rewrite !app_nil_r | done].
Qed.

(** On a plain path [findAndRename] replaces the first node that has the
    path by the renamed node. *)
Lemma findAndRename_replace_both newName p :
  plain p = true → has_dollar (joinPath (parentOf p) newName) = false →
  (∀ n, findAndRename_node newName p n
        = Some (replace_first_node p
                  (renamed newName (joinPath (parentOf p) newName)) n))
  ∧ (∀ nodes, findAndRename newName nodes p
              = Some (replace_first p
                        (renamed newName (joinPath (parentOf p) newName))
                        nodes)).
Proof.
  intros Hp Hd. set (p' := joinPath (parentOf p) newName) in *.
  set (P := λ n, findAndRename_node newName p n
                 = Some (replace_first_node p (renamed newName p') n)).
  set (Q := λ l, findAndRename newName l p
                 = Some (replace_first p (renamed newName p') l)).
  assert (∀ nm pth ch, Q ch → P (mkNode nm pth ch)) as Hnode.
  { intros nm pth ch IH. unfold P.
    rewrite findAndRename_node_eq, replace_first_node_eq.
    destruct (String.eqb_spec pth p) as [-> | Hne].
    - unfold renameNode. cbn [children path]. fold p'.
      by rewrite (updateChildPaths_plain _ _ _ Hp Hd).
    - rewrite IH. simpl. by destruct (replace_first p _ ch). }
  assert (Q []) as Hnil by done.
  assert (∀ n rest, P n → Q rest → Q (n :: rest)) as Hcons.
  { intros n rest Hn Hrest. unfold Q. simpl. rewrite Hn. simpl.
    destruct (replace_first_node p _ n) as [n' []]; simpl; [done|].
    rewrite Hrest. simpl. by destruct (replace_first p _ rest). }
  split; [exact (node_ind2 P Q Hnode Hnil Hcons)
         | exact (forest_ind2 P Q Hnode Hnil Hcons)].
Qed.

(** C2 (as the code has it). Neither handler checks for an existing
    path. With a non-empty name, [handleAdd] at the root appends the node
    after the existing roots, and below a parent path of the tree it makes
    the node the last child of the first node, in pre-order, that has the
    parent path; every other node keeps its place. [handleRename] of a
    plain path to a name other than the old one gives the first node with
    the path the new name and the new path, rewrites the paths below it,
    and keeps every other node. Neither statement asks whether the new path
    is in the tree already. The prior tree is returned when the prompt is
    cancelled or left empty, when the renamed node gets its old name, and
    when the parent path of an addition is not in the tree. *)
Theorem add_rename_never_reject tree p nm :
  truthy nm = true →
  handleAdd tree "" (Some nm) = tree ++ [mkNode nm nm []]
  ∧ (p ≠ "" → ∀ m, find_node p tree = Some m →
     ∃ anc before after,
       positions [] tree = before ++ positions_node anc m ++ after
       ∧ Forall (λ e, node_path e ≠ p) before
       ∧ positions [] (handleAdd tree p (Some nm))
         = before
           ++ positions_node anc (with_child (mkNode nm (joinPath p nm) []) m)
           ++ after)
  ∧ (p ≠ "" → p ∉ traverse tree → handleAdd tree p (Some nm) = tree)
  ∧ (∀ oldName m,
       nm ≠ oldName → plain p = true →
       has_dollar (joinPath (parentOf p) nm) = false →
       find_node p tree = Some m →
       ∃ anc before after tree',
         handleRename tree p oldName (Some nm) = Some tree'
         ∧ positions [] tree = before ++ positions_node anc m ++ after
         ∧ Forall (λ e, node_path e ≠ p) before
         ∧ positions [] tree'
           = before
             ++ positions_node anc (renamed nm (joinPath (parentOf p) nm) m)
             ++ after)
  ∧ handleAdd tree p None = tree
  ∧ handleAdd tree p (Some "") = tree
  ∧ ∀ oldName,
      handleRename tree p oldName None = Some tree
      ∧ handleRename tree p oldName (Some "") = Some tree
      ∧ handleRename tree p oldName (Some oldName) = Some tree.
Proof.
  intros Hnm. unfold handleAdd, handleRename. rewrite Hnm; simpl.
  pose proof (findAndAdd_spec (mkNode nm (joinPath p nm) []) p tree)
    as (A1 & A2 & A3).
  split; [done |]. split; [|split; [|split; [|split; [|split]]]]; try done.
  - intros Hp m Hm. destruct (String.eqb_spec p "") as [-> | _]; [done |].
    rewrite (proj2 (findAndAdd_replace_both _ p)).
    destruct (proj2 (replace_first_positions_both p
                       (with_child (mkNode nm (joinPath p nm) []))) tree [] m Hm)
      as (anc & before & after & Hpos & Hbefore & _ & Hpos').
    by exists anc, before, after.
  - intros Hp Hin. destruct (String.eqb_spec p "") as [-> | _]; [done |].
    apply A3. destruct (findAndAdd _ p tree).2 eqn:E; [|done].
    exfalso. by apply Hin, A1.
  - intros oldName m Hne Hplain Hd Hm.
    destruct (String.eqb_spec nm oldName) as [-> | _]; [done |].
    rewrite (proj2 (findAndRename_replace_both nm p Hplain Hd)). simpl.
    destruct (proj2 (replace_first_positions_both p
                       (renamed nm (joinPath (parentOf p) nm))) tree [] m Hm)
      as (anc & before & after & Hpos & Hbefore & _ & Hpos').
    by exists anc, before, after,
      (replace_first p (renamed nm (joinPath (parentOf p) nm)) tree).1.
  - intros oldName. by rewrite String.eqb_refl, orb_true_r.
Qed.

End TreeFacts.

(** ** Committing an edited tree *)

Section AppFacts.
Context `{Host}.

Implicit Types (f : Filament) (st : State) (p : string).
Implicit Types (oldTree newTree : list StorageNode).

Lemma deletedPaths_elem oldTree newTree p :
  p ∈ deletedPaths oldTree newTree ↔ p ∈ traverse oldTree ∧ p ∉ traverse newTree.
Proof.
  unfold deletedPaths. rewrite list_elem_of_filter, includes_false. tauto.
Qed.

Lemma is_deleted_true oldTree newTree f :
  is_deleted (deletedPaths oldTree newTree) f = true ↔ orphaned oldTree newTree f.
Proof.
  unfold is_deleted, orphaned. destruct (locationPath f) as [p|].
  - rewrite includes_true, deletedPaths_elem. split.
    + intros ?. by exists p.
    + by intros (? & [= <-] & ?).
  - split; [done | by intros (? & ? & ?)].
Qed.

(** The commit installs the new tree; a spool is cleared when it is
    orphaned, and is kept as it is otherwise. *)
Lemma handleSaveStorageTree_spec st newTree :
  st_storageTree (handleSaveStorageTree st newTree) = newTree
  ∧ Forall2
      (λ f f', (orphaned (st_storageTree st) newTree f
                → f' = with_locationPath f "")
               ∧ (¬ orphaned (st_storageTree st) newTree f → f' = f))
      (st_filaments st) (st_filaments (handleSaveStorageTree st newTree)).
Proof.
  split; [done |]. unfold handleSaveStorageTree; simpl.
  set (deleted := deletedPaths (st_storageTree st) newTree).
  assert (Forall2
    (λ f f', (orphaned (st_storageTree st) newTree f
              → f' = with_locationPath f "")
             ∧ (¬ orphaned (st_storageTree st) newTree f → f' = f))
    (st_filaments st)
    (map (λ f, if is_deleted deleted f then with_locationPath f "" else f)
       (st_filaments st))) as Hmap.
  { apply Forall2_fmap_r, Forall_Forall2_diag, Forall_forall. intros f _.
    simpl. destruct (is_deleted deleted f) eqn:E.
    - apply is_deleted_true in E. split; [done | by intros []].
    - split; [|done]. intros Ho%is_deleted_true. unfold deleted in E. congruence. }
  destruct deleted as [|d ds] eqn:Ed; simpl; [|done].
  (* nothing was deleted: the map would have kept every spool *)
  erewrite map_ext, map_id in Hmap; [done |].
  intros f. unfold is_deleted. by destruct (locationPath f).
Qed.

(** A confirmed deletion leaves no node with the deleted path and adds
    none; the commit then clears the orphaned spools and no other. *)
Lemma delete_commit_spec st p :
  let newTree := handleDelete (st_storageTree st) p true in
  let st' := handleSaveStorageTree st newTree in
  (p ∉ traverse newTree)
  ∧ (traverse newTree `sublist_of` traverse (st_storageTree st))
  ∧ st_storageTree st' = newTree
  ∧ Forall2
      (λ f f', (orphaned (st_storageTree st) newTree f
                → f' = with_locationPath f "")
               ∧ (¬ orphaned (st_storageTree st) newTree f → f' = f))
      (st_filaments st) (st_filaments st').
Proof.
  intros newTree st'. unfold newTree, handleDelete.
  destruct (findAndDelete_spec p (st_storageTree st)) as [D1 D2].
  split; [done |]. split; [done |]. apply handleSaveStorageTree_spec.
Qed.

End AppFacts.

(** ** Adding, renaming and deleting, then committing *)

Section TreeClaims.

(** C2, counterexample. "Shelf1" is a path of the tree, and adding a root of
    that name is not rejected: the tree gets a second node with the path
    "Shelf1". Likewise renaming BoxA to BoxA2, the name of its sibling, is
    not rejected: two nodes then have the path "Shelf1 / BoxA2". *)
Lemma duplicate_path_not_rejected :
  includes (traverse scenarioTree) (joinPath "" "Shelf1") = true
  ∧ handleAdd scenarioTree "" (Some "Shelf1")
    = scenarioTree ++ [mkNode "Shelf1" "Shelf1" []]
  ∧ handleAdd scenarioTree "" (Some "Shelf1") ≠ scenarioTree
  ∧ includes (traverse scenarioTree) (joinPath "Shelf1" "BoxA2") = true
  ∧ handleRename scenarioTree "Shelf1 / BoxA" "BoxA" (Some "BoxA2")
    = Some [ mkNode "Shelf1" "Shelf1"
               [ mkNode "BoxA2" "Shelf1 / BoxA2"
                   [ mkNode "Bin1" "Shelf1 / BoxA2 / Bin1" [] ];
                 mkNode "BoxA2" "Shelf1 / BoxA2" [] ] ].
Proof. by vm_compute. Qed.

(** Adding a second BoxA below Shelf1 makes it the last child of Shelf1,
    after BoxA and BoxA2, at the path that BoxA already has; renaming BoxA
    to the name of its sibling gives it the sibling's path. *)
Lemma add_rename_never_reject_witness :
  truthy "BoxA" = true
  ∧ "Shelf1" ≠ ""
  ∧ plain "Shelf1 / BoxA" = true
  ∧ has_dollar (joinPath (parentOf "Shelf1 / BoxA") "BoxA2") = false
  ∧ (∃ m anc before after,
       find_node "Shelf1" scenarioTree = Some m
       ∧ positions [] (handleAdd scenarioTree "Shelf1" (Some "BoxA"))
         = before
           ++ positions_node anc
                (with_child (mkNode "BoxA" (joinPath "Shelf1" "BoxA") []) m)
           ++ after)
  ∧ (∃ m anc before after tree',
       find_node "Shelf1 / BoxA" scenarioTree = Some m
       ∧ handleRename scenarioTree "Shelf1 / BoxA" "BoxA" (Some "BoxA2")
         = Some tree'
       ∧ positions [] tree'
         = before
           ++ positions_node anc
                (renamed "BoxA2"
                   (joinPath (parentOf "Shelf1 / BoxA") "BoxA2") m)
           ++ after).
Proof.
  split; [reflexivity |]. split; [discriminate |].
  split; [reflexivity |]. split; [reflexivity |]. split.
  - destruct (proj1 (proj2
       (add_rename_never_reject scenarioTree "Shelf1" "BoxA" eq_refl))
       ltac:(discriminate) _ eq_refl)
      as (anc & before & after & _ & _ & Hpos).
    eexists _, anc, before, after. split; [reflexivity | exact Hpos].
  - destruct (proj1 (proj2 (proj2 (proj2
       (add_rename_never_reject scenarioTree "Shelf1 / BoxA" "BoxA2" eq_refl))))
       "BoxA" _ ltac:(discriminate) eq_refl eq_refl eq_refl)
      as (anc & before & after & tree' & Hren & _ & _ & Hpos).
    eexists _, anc, before, after, tree'.
    split; [reflexivity |]. split; [exact Hren | exact Hpos].
Defined.

(** C3, counterexample. In scenario C one spool is in BoxA and one in its
    Bin1. After the rename of BoxA to BoxB is committed, the two spools are
    at the empty path, not at "Shelf1 / BoxB" and "Shelf1 / BoxB / Bin1". *)
Lemma rename_commit_orphans_items :
  ∃ newTree,
    handleRename (st_storageTree stateCD) "Shelf1 / BoxA" "BoxA" (Some "BoxB")
    = Some newTree
    ∧ includes (traverse newTree) "Shelf1 / BoxB / Bin1" = true
    ∧ map locationPath (st_filaments (handleSaveStorageTree stateCD newTree))
      = [ Some ""; Some ""; Some "Shelf1 / BoxA2";
          Some "Shelf1 / BoxA / Bin2" ]
    ∧ map locationPath (st_filaments (handleSaveStorageTree stateCD newTree))
      ≠ [ Some "Shelf1 / BoxB"; Some "Shelf1 / BoxB / Bin1";
          Some "Shelf1 / BoxA2"; Some "Shelf1 / BoxA / Bin2" ].
Proof.
  exists [ mkNode "Shelf1" "Shelf1"
             [ mkNode "BoxB" "Shelf1 / BoxB"
                 [ mkNode "Bin1" "Shelf1 / BoxB / Bin1" [] ];
               mkNode "BoxA2" "Shelf1 / BoxA2" [] ] ].
  by vm_compute.
Qed.

(** C3 (as the code has it). A commit installs the tree it is given and
    moves no spool to a new path, whatever the tree is, so also when it is
    the result of a rename: a spool whose [locationPath] is a path of the
    old tree that the new tree lacks is cleared to the empty path, and every
    other spool is kept as it is. In scenario C the spools in BoxA and in
    its Bin1 end up without a location. *)
Theorem rename_commit_clears_orphans :
  (∀ (host : Host) (st : State) (newTree : list StorageNode),
     let st' := handleSaveStorageTree st newTree in
     st_storageTree st' = newTree
     ∧ Forall2
         (λ f f', (orphaned (st_storageTree st) newTree f
                   → f' = with_locationPath f "")
                  ∧ (¬ orphaned (st_storageTree st) newTree f → f' = f))
         (st_filaments st) (st_filaments st'))
  ∧ (handleSaveStorageTree stateCD <$>
       handleRename (st_storageTree stateCD) "Shelf1 / BoxA" "BoxA" (Some "BoxB"))
    = Some
        {| st_filaments :=
             [ spool "PLA-0001-001" "PLA" "Galaxy Black" "";
               spool "PLA-0002-001" "PLA" "Galaxy Black" "";
               spool "PLA-0003-001" "PLA" "Galaxy Black" "Shelf1 / BoxA2";
               spool "PLA-0004-001" "PLA" "Galaxy Black" "Shelf1 / BoxA / Bin2" ];
           st_storageTree :=
             [ mkNode "Shelf1" "Shelf1"
                 [ mkNode "BoxB" "Shelf1 / BoxB"
                     [ mkNode "Bin1" "Shelf1 / BoxB / Bin1" [] ];
                   mkNode "BoxA2" "Shelf1 / BoxA2" [] ] ] |}.
Proof.
  split; [|reflexivity].
  intros host st newTree. apply handleSaveStorageTree_spec.
Qed.

(** The spool in Bin1 of scenario C refers to a path that the renamed tree
    lacks, and is cleared. *)
Lemma rename_commit_clears_orphans_witness :
  let renamed_tree :=
    [ mkNode "Shelf1" "Shelf1"
        [ mkNode "BoxB" "Shelf1 / BoxB"
            [ mkNode "Bin1" "Shelf1 / BoxB / Bin1" [] ];
          mkNode "BoxA2" "Shelf1 / BoxA2" [] ] ] in
  let f := spool "PLA-0002-001" "PLA" "Galaxy Black" "Shelf1 / BoxA / Bin1" in
  handleRename scenarioTree "Shelf1 / BoxA" "BoxA" (Some "BoxB")
  = Some renamed_tree
  ∧ orphaned scenarioTree renamed_tree f
  ∧ st_filaments (handleSaveStorageTree stateCD renamed_tree) !! 1
    = Some (with_locationPath f "").
Proof.
  intros renamed_tree f. split; [reflexivity |].
  assert (orphaned scenarioTree renamed_tree f) as Ho.
  { exists "Shelf1 / BoxA / Bin1". split; [reflexivity |].
    split; [apply includes_true | apply includes_false]; reflexivity. }
  split; [exact Ho |].
  pose proof (proj1 rename_commit_clears_orphans refHost stateCD renamed_tree)
    as [_ Hall].
  destruct (Forall2_lookup_l _ _ _ 1 f Hall eq_refl) as (f' & Hf' & Hclear & _).
  rewrite (Hclear Ho) in Hf'. exact Hf'.
Defined.

(** C6, counterexample. The fourth spool of the scenario has the
    [locationPath] "Shelf1 / BoxA / Bin2", which starts with the removed path
    "Shelf1 / BoxA" and is no removed path. After the deletion of BoxA is
    committed it still has that location. *)
Lemma delete_commit_keeps_prefix_matches :
  let newTree := handleDelete (st_storageTree stateCD) "Shelf1 / BoxA" true in
  deletedPaths (st_storageTree stateCD) newTree
  = [ "Shelf1 / BoxA"; "Shelf1 / BoxA / Bin1" ]
  ∧ strip_prefix "Shelf1 / BoxA" "Shelf1 / BoxA / Bin2" = Some " / Bin2"
  ∧ map locationPath (st_filaments (handleSaveStorageTree stateCD newTree))
    = [ Some ""; Some ""; Some "Shelf1 / BoxA2"; Some "Shelf1 / BoxA / Bin2" ].
Proof. by vm_compute. Qed.

(** C6 (as the code has it). A confirmed deletion removes every node
    that has the path, each with its entire subtree, and keeps every other
    node as it is, with its name, its path and its place: the positions of
    the new tree are those positions of the old tree at which neither the
    node nor a node above it has the path. Once the deletion is committed,
    a spool is cleared exactly when its [locationPath] is equal to a path of
    the old tree that the new tree lacks. Every other spool is kept as it
    is, also one whose [locationPath] only starts with a removed path.
    Scenario D: deleting BoxA removes exactly the paths of BoxA and of its
    Bin1, and the spools at those two paths are cleared. *)
Theorem delete_commit_clears_exact_matches :
  (∀ (host : Host) (st : State) (p : string),
     let newTree := handleDelete (st_storageTree st) p true in
     let st' := handleSaveStorageTree st newTree in
     positions [] newTree
     = filter (λ e, outside p e = true) (positions [] (st_storageTree st))
     ∧ (p ∉ traverse newTree)
     ∧ st_storageTree st' = newTree
     ∧ Forall2
         (λ f f', (orphaned (st_storageTree st) newTree f
                   → f' = with_locationPath f "")
                  ∧ (¬ orphaned (st_storageTree st) newTree f → f' = f))
         (st_filaments st) (st_filaments st'))
  ∧ (let newTree := handleDelete (st_storageTree stateCD) "Shelf1 / BoxA" true in
     newTree = [ mkNode "Shelf1" "Shelf1" [ mkNode "BoxA2" "Shelf1 / BoxA2" [] ] ]
     ∧ deletedPaths (st_storageTree stateCD) newTree
       = [ "Shelf1 / BoxA"; "Shelf1 / BoxA / Bin1" ]
     ∧ st_filaments (handleSaveStorageTree stateCD newTree)
       = [ spool "PLA-0001-001" "PLA" "Galaxy Black" "";
           spool "PLA-0002-001" "PLA" "Galaxy Black" "";
           spool "PLA-0003-001" "PLA" "Galaxy Black" "Shelf1 / BoxA2";
           spool "PLA-0004-001" "PLA" "Galaxy Black" "Shelf1 / BoxA / Bin2" ]).
Proof.
  split; [|repeat split; reflexivity].
  intros host st p newTree st'. split.
  - apply (proj2 (findAndDelete_positions_both p)). apply not_elem_of_nil.
  - destruct (delete_commit_spec st p) as (D1 & _ & D3 & D4). done.
Qed.

(** The spool in Bin1 of scenario D refers to a removed path, and is
    cleared. *)
Lemma delete_commit_clears_exact_matches_witness :
  let pruned := handleDelete scenarioTree "Shelf1 / BoxA" true in
  let f := spool "PLA-0002-001" "PLA" "Galaxy Black" "Shelf1 / BoxA / Bin1" in
  orphaned scenarioTree pruned f
  ∧ st_filaments (handleSaveStorageTree stateCD pruned) !! 1
    = Some (with_locationPath f "").
Proof.
  intros pruned f.
  assert (orphaned scenarioTree pruned f) as Ho.
  { exists "Shelf1 / BoxA / Bin1". split; [reflexivity |].
    split; [apply includes_true | apply includes_false]; reflexivity. }
  split; [exact Ho |].
  pose proof (proj1 delete_commit_clears_exact_matches refHost stateCD
                "Shelf1 / BoxA") as (_ & _ & _ & Hall).
  destruct (Forall2_lookup_l _ _ _ 1 f Hall eq_refl) as (f' & Hf' & Hclear & _).
  rewrite (Hclear Ho) in Hf'. exact Hf'.
Defined.

End TreeClaims.

(** ** The schema migration *)

Section MigratorFacts.
Context `{Host}.

Implicit Types (f : Filament) (fs : list Filament) (c : Counters).
Implicit Types (data : Bundle) (k : nat).

(** *** Printers *)

Lemma migratePrinters_idem k k' (ps : list Printer) :
  migratePrinters k' (migratePrinters k ps) = migratePrinters k ps.
Proof.
  revert k; induction ps as [|q ps IH]; intros k; simpl; [done |].
  destruct (truthy_prop (printer_id q)) eqn:E; simpl.
  - rewrite E, IH. by destruct (filamentDiameter q).
  - rewrite randomUUID_truthy, IH. by destruct (filamentDiameter q).
Qed.

(** *** Legacy records *)

Lemma migrateLegacy_current f : is_current (migrateLegacy f) = true.
Proof.
  unfold is_current, migrateLegacy.
  destruct (is_undefined (netWeight f)), (locationPath f),
    (spoolLength f); simpl; by rewrite ?bool_decide_eq_true_2 by eauto.
Qed.

Lemma needsLegacyMigration_false fs :
  forallb is_current fs = true → needsLegacyMigration fs = false.
Proof.
  intros Hall. unfold needsLegacyMigration. apply andb_false_iff. right.
  induction fs as [|f fs IH]; simpl in *; [done |].
  apply andb_true_iff in Hall as [Hf Hfs]. rewrite (IH Hfs), orb_false_r.
  unfold is_current in Hf. apply andb_true_iff in Hf as [-> Hl]; simpl.
  by apply negb_true_iff.
Qed.

Lemma legacy_step_current fs :
  forallb is_current
    (if needsLegacyMigration fs then map migrateLegacy fs else fs) = true.
Proof.
  destruct (needsLegacyMigration fs) eqn:E.
  - apply forallb_forall. intros f (f0 & <- & _)%in_map_iff.
    apply migrateLegacy_current.
  - unfold needsLegacyMigration in E. destruct fs as [|f0 fs0]; [done |].
    simpl (0 <? _)%nat in E. rewrite andb_true_l in E.
    apply forallb_forall. intros f Hin.
    assert (existsb (λ f, negb (bool_decide (is_Some (locationPath f)))
                          || is_undefined (spoolLength f)) (f0 :: fs0) = false)
      as Hex by exact E.
    destruct (is_current f) eqn:Ec; [done | exfalso].
    rewrite <- not_true_iff_false in Hex. apply Hex, existsb_exists.
    exists f. split; [done |]. unfold is_current in Ec.
    destruct (bool_decide _), (is_undefined _); done.
Qed.

(** *** Sorting and renumbering keep the records *)

Lemma insert_sorted_perm f fs : insert_sorted f fs ≡ₚ f :: fs.
Proof.
  induction fs as [|g fs IH]; simpl; [done |].
  destruct (compareFilaments f g); try done;
    by rewrite IH, Permutation_swap.
Qed.

Lemma sortFilaments_perm fs : sortFilaments fs ≡ₚ fs.
Proof.
  unfold sortFilaments.
  enough (∀ acc, fold_left (λ acc x, insert_sorted x acc) fs acc ≡ₚ fs ++ acc)
    as Hgen by (by rewrite Hgen, app_nil_r).
  induction fs as [|f fs IH]; intros acc; simpl; [done |].
  by rewrite IH, insert_sorted_perm, Permutation_middle.
Qed.

Lemma forallb_perm {A} (g : A → bool) (l1 l2 : list A) :
  l1 ≡ₚ l2 → forallb g l1 = true → forallb g l2 = true.
Proof.
  intros Hp. rewrite !forallb_forall. intros Hall x Hin.
  apply Hall. apply list_elem_of_In. rewrite Hp. by apply list_elem_of_In.
Qed.

Lemma regenerateIds_current fs c :
  forallb is_current fs = true →
  forallb is_current (regenerateIds fs c).1 = true.
Proof.
  revert c; induction fs as [|f fs IH]; intros c; simpl; [done |].
  intros [Hf Hfs]%andb_true_iff.
  specialize (IH (object_assign c (updatedCounters
    (generateNewIdAndUpdateCounters (type f) (manufacturerColor f) c))) Hfs).
  destruct (regenerateIds fs _) as [rest' c']; simpl in *.
  by rewrite IH, andb_true_r.
Qed.

(** *** The branches *)

(** An object without keys has no [version], so the bundle counts as
    version 1: whenever the backfill's condition holds, the condition of
    the id regeneration holds too, and that branch comes first. *)
Lemma backfill_unreachable data fs : chooseBranch data fs ≠ BackfillCounters.
Proof.
  unfold chooseBranch, dataVersion, no_keys.
  destruct (idCounters data) as [c|]; simpl.
  - destruct (version c) as [[[|[|[|n]]]| |]|]; simpl;
      destruct (0 <? length fs)%nat; simpl; try done;
      destruct (colorMap c), (nextColorNum c), (typeCounters c); done.
  - by destruct (0 <? length fs)%nat.
Qed.

Lemma migrated_keeps_counters k data fs :
  chooseBranch (as_bundle (migrateData k data)) fs = KeepCounters.
Proof.
  unfold chooseBranch, dataVersion, no_keys; simpl.
  set (c := (match chooseBranch data _ with
             | RegenerateIds => _ | BackfillCounters => _ | KeepCounters => _
             end).2).
  by destruct (colorMap c), (nextColorNum c), (typeCounters c).
Qed.

Lemma migrated_current k data :
  forallb is_current (m_filaments (migrateData k data)) = true.
Proof.
  unfold migrateData; simpl.
  pose proof (legacy_step_current (default [] (filaments data))) as Hleg.
  set (legacy := if needsLegacyMigration _ then _ else _) in *.
  destruct (chooseBranch data legacy); simpl; [|done..].
  apply regenerateIds_current.
  eapply forallb_perm; [symmetry; apply sortFilaments_perm | done].
Qed.

(** C4. Migrating a migrated bundle changes nothing: the printers have
    their ids and diameters, every spool has the current shape, and the
    counters carry version 3, so the second run keeps all of them and
    stamps version 3 again. The equality is that of the whole result,
    version stamp included, and holds wherever the random source stands at
    either call. *)
Theorem migrateData_idempotent k k' data :
  migrateData k' (as_bundle (migrateData k data)) = migrateData k data.
Proof.
  unfold migrateData at 1.
  change (default [] (filaments (as_bundle (migrateData k data))))
    with (m_filaments (migrateData k data)).
  rewrite (needsLegacyMigration_false _ (migrated_current k data)).
  rewrite migrated_keeps_counters.
  cbn [as_bundle storageTree idCounters printers default from_option fst snd].
  unfold migrateData; simpl. by rewrite migratePrinters_idem.
Qed.

End MigratorFacts.

(** ** Scenario E, on the reference host *)

Section MigratorScenarios.

(** C1. The bundle of scenario E has two spools with the version 3 ids
    PLA-0003-002 and ABS-0001-001 and no counters. [migrateData] takes a
    bundle without counters for a bundle older than version 3, so it
    renumbers the spools instead of reading their ids: the spools come back
    as ABS-0001-001 and PLA-0001-002, and the counter of PLA is 2, not 4.
    An empty counter object gives the same result. The backfill itself
    would return the counters of the scenario, PLA at 4, ABS at 2 and the
    next color number 3, but no bundle reaches it. *)
Theorem migrate_renumbers_v3_ids_without_counters :
  map Inventory.id (m_filaments (migrateData 0 bundleE))
  = ["ABS-0001-001"; "PLA-0001-002"]
  ∧ typeCounters (m_idCounters (migrateData 0 bundleE))
    = Some {[ "PLA" := {| nextSpoolNum := JNum 2 |};
              "ABS" := {| nextSpoolNum := JNum 2 |} ]}
  ∧ migrateData 0 bundleE_empty = migrateData 0 bundleE
  ∧ typeCounters (backfill (default [] (filaments bundleE)))
    = Some {[ "PLA" := {| nextSpoolNum := JNum 4 |};
              "ABS" := {| nextSpoolNum := JNum 2 |} ]}
  ∧ nextColorNum (backfill (default [] (filaments bundleE))) = Some (JNum 3)
  ∧ ∀ (host : Host) (data : Bundle) (fs : list Filament),
      chooseBranch data fs ≠ BackfillCounters.
Proof.
  repeat split; try by vm_compute.
  intros host data fs. apply backfill_unreachable.
Qed.

End MigratorScenarios.

(** ** Splitting and joining *)

Section TextFacts.

Implicit Types (s sep p k : string) (c : ascii).

Lemma strip_prefix_Some p s rest :
  strip_prefix p s = Some rest → s = p +:+ rest.
Proof.
  revert s. induction p as [|a p IH]; intros [|b s]; simpl; try congruence.
  destruct (Ascii.eqb_spec a b) as [->|]; [|done].
  intros Hs. by rewrite (IH _ Hs).
Qed.

Lemma strip_prefix_app p rest : strip_prefix p (p +:+ rest) = Some rest.
Proof.
  induction p as [|a p IH]; simpl; [done|]. by rewrite Ascii.eqb_refl.
Qed.

Lemma length_append p rest :
  String.length (p +:+ rest) = String.length p + String.length rest.
Proof. induction p as [|a p IH]; simpl; [done | by rewrite IH]. Qed.

Lemma drop_chars_app p rest : drop_chars (String.length p) (p +:+ rest) = rest.
Proof. induction p as [|a p IH]; simpl; [by destruct rest | done]. Qed.

Lemma split_from_nonempty sep n s : split_from sep n s ≠ [].
Proof.
  revert n. induction s as [|c s IH]; intros n; simpl; [done|].
  destruct n as [|n]; [|apply IH].
  destruct (startsWith _ _); [done|].
  by destruct (split_from sep 0 s).
Qed.

Lemma join_cons_char sep c w ws :
  join sep (String c w :: ws) = String c (join sep (w :: ws)).
Proof. by destruct ws. Qed.

Lemma join_cons sep w ws :
  ws ≠ [] → join sep (w :: ws) = w +:+ sep +:+ join sep ws.
Proof. by destruct ws. Qed.

Lemma join_split_from sep n s :
  sep ≠ "" → n ≤ String.length s →
  join sep (split_from sep n s) = drop_chars n s.
Proof.
  intros Hsep. revert n. induction s as [|c s IH]; intros n Hn; simpl in *.
  { by destruct n. }
  destruct n as [|n]; [|apply IH; lia].
  unfold startsWith.
  destruct (strip_prefix sep (String c s)) as [rest|] eqn:Hp.
  - rewrite join_cons by apply split_from_nonempty.
    destruct sep as [|a sep]; [done|]. simpl in Hp.
    destruct (Ascii.eqb_spec a c) as [->|]; [|done].
    apply strip_prefix_Some in Hp as ->. simpl.
    rewrite Nat.sub_0_r, IH, drop_chars_app; [done|].
    rewrite length_append. lia.
  - specialize (IH 0 ltac:(lia)).
    destruct (split_from sep 0 s) as [|w ws] eqn:Hs.
    { by apply split_from_nonempty in Hs. }
    rewrite join_cons_char. by rewrite IH.
Qed.

Lemma join_split sep s : sep ≠ "" → join sep (split sep s) = s.
Proof.
  intros Hsep. unfold split. rewrite join_split_from by (done || lia).
  by destruct s.
Qed.

Lemma split_from_no_sep sep s :
  str_includes s sep = false → split_from sep 0 s = [s].
Proof.
  induction s as [|c s IH]; simpl; [done|].
  intros [Hhere Hrest]%orb_false_iff. rewrite Hhere.
  by rewrite IH.
Qed.

Lemma map_fmap {A B} (f : A → B) (l : list A) : map f l = f <$> l.
Proof. reflexivity. Qed.

(** *** Sorting and removing duplicates *)

Lemma insert_string_perm x (l : list string) : insert_string x l ≡ₚ x :: l.
Proof.
  induction l as [|y l IH]; simpl; [done|].
  destruct (String.compare x y); try done; by rewrite IH, Permutation_swap.
Qed.

Lemma sort_perm (l : list string) : sort l ≡ₚ l.
Proof.
  unfold sort. rewrite <- (app_nil_r l) at 2. generalize (@nil string).
  induction l as [|x l IH]; intros acc; simpl; [done|].
  rewrite IH, insert_string_perm. by rewrite Permutation_middle.
Qed.

Lemma compare_Lt_le x y : String.compare x y = Lt → String.le x y.
Proof. unfold String.le, String.leb. by intros ->. Qed.

Lemma compare_not_Lt_le x y : String.compare x y ≠ Lt → String.le y x.
Proof.
  unfold String.le, String.leb. rewrite (String.compare_antisym x y).
  by destruct (String.compare y x).
Qed.

Lemma insert_string_sorted x (l : list string) :
  StronglySorted String.le l → StronglySorted String.le (insert_string x l).
Proof.
  induction 1 as [|y l Hl IH Hy]; simpl.
  { repeat constructor. }
  destruct (String.compare x y) eqn:Hc.
  - constructor; [by apply IH|].
    rewrite insert_string_perm. constructor; [|done].
    apply compare_not_Lt_le. by rewrite Hc.
  - constructor; [by constructor|].
    apply compare_Lt_le in Hc. constructor; [done|].
    eapply Forall_impl; [exact Hy|]. intros z Hz. by etrans.
  - constructor; [by apply IH|].
    rewrite insert_string_perm. constructor; [|done].
    apply compare_not_Lt_le. by rewrite Hc.
Qed.

Lemma sort_sorted (l : list string) : StronglySorted String.le (sort l).
Proof.
  unfold sort. assert (StronglySorted String.le []) as Hacc by constructor.
  revert Hacc. generalize (@nil string).
  induction l as [|x l IH]; intros acc Hacc; simpl; [done|].
  by apply IH, insert_string_sorted.
Qed.

Lemma unique_from_spec (seen l : list string) :
  NoDup (unique_from seen l)
  ∧ ∀ x, x ∈ unique_from seen l ↔ x ∈ l ∧ x ∉ seen.
Proof.
  revert seen. induction l as [|y l IH]; intros seen; simpl.
  { split; [constructor|]. intros x. split; [by intros ?%elem_of_nil|].
    by intros [?%elem_of_nil _]. }
  destruct (includes seen y) eqn:Hy.
  - apply includes_true in Hy. destruct (IH seen) as [Hnd Hel].
    split; [done|]. intros x. rewrite Hel, elem_of_cons.
    split; [by intros [? ?]; auto|].
    intros [[->|Hx] Hs]; [done | by split].
  - apply includes_false in Hy. destruct (IH (y :: seen)) as [Hnd Hel].
    split.
    + constructor; [|done]. rewrite Hel, elem_of_cons. intros [_ Hn]. auto.
    + intros x. rewrite !elem_of_cons, Hel, elem_of_cons. split.
      * intros [->|[Hx Hn]]; [by auto|]. split; [by right|]. auto.
      * intros [[->|Hx] Hs]; [by left|].
        destruct (decide (x = y)) as [->|Hne]; [by left|].
        right. split; [done|]. by intros [?|?].
Qed.

Lemma unique_spec (l : list string) :
  NoDup (unique l) ∧ ∀ x, x ∈ unique l ↔ x ∈ l.
Proof.
  destruct (unique_from_spec [] l) as [Hnd Hel]. split; [done|].
  intros x. unfold unique. rewrite Hel. split; [by intros [? _]|].
  intros Hx. split; [done|]. by intros ?%elem_of_nil.
Qed.

End TextFacts.

(** ** Scanning a label *)

Section ScanFacts.
Context `{Host}.

Import AppHandlers Labels.

Implicit Types (s : AppState) (i p t : string).

Lemma split_spool_label i :
  split "::" (spoolQrContent i) = "FMT_SPOOL" :: split "::" i.
Proof. reflexivity. Qed.

Lemma split_location_label p :
  split "::" (locationQrContent p) = "FMT_LOCATION" :: split "::" p.
Proof. reflexivity. Qed.

Lemma split_length sep t : 1 ≤ List.length (split sep t).
Proof.
  pose proof (split_from_nonempty sep 0 t) as Hne. unfold split.
  destruct (split_from sep 0 t); [done | simpl; lia].
Qed.

Lemma existsb_id_eq (fs : list Spool.Filament) i :
  existsb (fun f => String.eqb (Spool.id f) i) fs = true
  ↔ i ∈ map Spool.id fs.
Proof.
  rewrite existsb_exists, list_elem_of_fmap. split.
  - intros (f & Hf%list_elem_of_In & Heq%String.eqb_eq). by exists f.
  - intros (f & -> & Hf). exists f. split; [by apply list_elem_of_In|].
    apply String.eqb_refl.
Qed.

(** X1. Scanning the QR code of a spool label opens the detail view of
    that spool when the inventory holds a spool with the id, and reports
    that the spool was not found otherwise; this holds for every id, also
    one in which "::" occurs. Nothing but the view is changed. *)
Theorem scan_spool_label s i :
  let s0 := setIsScanning false s in
  handleGlobalScan s (spoolQrContent i)
  = (if existsb (fun f => String.eqb (Spool.id f) i) (filaments s)
     then (handleViewDetail s0 i, None)
     else (s0, Some SpoolNotFound))
  ∧ (i ∈ map Spool.id (filaments s) →
     let s' := (handleGlobalScan s (spoolQrContent i)).1 in
     (handleGlobalScan s (spoolQrContent i)).2 = None
     ∧ mode s' = mode_detail ∧ currentFilamentId s' = Some i
     ∧ filaments s' = filaments s ∧ idCounters s' = idCounters s)
  ∧ (i ∉ map Spool.id (filaments s) →
     handleGlobalScan s (spoolQrContent i) = (s0, Some SpoolNotFound)).
Proof.
  intros s0.
  assert (handleGlobalScan s (spoolQrContent i)
          = (if existsb (fun f => String.eqb (Spool.id f) i) (filaments s)
             then (handleViewDetail s0 i, None)
             else (s0, Some SpoolNotFound))) as Heq.
  { unfold handleGlobalScan. rewrite split_spool_label.
    cbn [List.length head tail default from_option].
    pose proof (split_length "::" i).
    destruct (Nat.ltb_spec (S (List.length (split "::" i))) 2); [lia|].
    rewrite join_split by done. reflexivity. }
  split; [exact Heq|]. rewrite Heq. split.
  - intros Hi%existsb_id_eq. cbn zeta. rewrite Hi. done.
  - intros Hi. destruct (existsb _ _) eqn:He; [|done].
    by apply existsb_id_eq in He.
Qed.

Lemma includes_perm (l1 l2 : list string) p :
  l1 ≡ₚ l2 → includes l1 p = includes l2 p.
Proof.
  intros Hp. destruct (includes l2 p) eqn:H2.
  - apply includes_true. apply includes_true in H2. by rewrite Hp.
  - apply includes_false. apply includes_false in H2. by rewrite Hp.
Qed.

(** X2. Scanning the QR code of a location label selects that location
    in the overview when the storage tree has a node with the path, or when
    the path is empty; otherwise it reports that the location was not
    found. The inventory is left as it is. *)
Theorem scan_location_label s p :
  let s0 := setIsScanning false s in
  handleGlobalScan s (locationQrContent p)
  = (if includes (traverse (storageTree s)) p || String.eqb p ""
     then (handleGoToOverview (setLocationFilter p s0), None)
     else (s0, Some LocationNotFound))
  ∧ (p ∈ traverse (storageTree s) →
     let s' := (handleGlobalScan s (locationQrContent p)).1 in
     (handleGlobalScan s (locationQrContent p)).2 = None
     ∧ locationFilter s' = p ∧ mode s' = mode_list
     ∧ currentFilamentId s' = None ∧ filaments s' = filaments s).
Proof.
  intros s0.
  assert (handleGlobalScan s (locationQrContent p)
          = (if includes (traverse (storageTree s)) p || String.eqb p ""
             then (handleGoToOverview (setLocationFilter p s0), None)
             else (s0, Some LocationNotFound))) as Heq.
  { unfold handleGlobalScan. rewrite split_location_label.
    cbn [List.length head tail default from_option].
    pose proof (split_length "::" p).
    destruct (Nat.ltb_spec (S (List.length (split "::" p))) 2); [lia|].
    rewrite join_split by done.
    change (String.eqb "FMT_LOCATION" "FMT_SPOOL") with false. cbv iota.
    change (String.eqb "FMT_LOCATION" "FMT_LOCATION") with true. cbv iota.
    unfold allLocationPaths.
    by rewrite (includes_perm _ _ _ (sort_perm _)). }
  split; [exact Heq|]. rewrite Heq.
  intros Hp%includes_true. cbn zeta. rewrite Hp. done.
Qed.

(** X3. A scanned text in which "::" does not occur is reported as an
    unknown format, and the scan changes nothing but the scanner flag. *)
Theorem scan_without_separator s t :
  str_includes t "::" = false →
  handleGlobalScan s t = (setIsScanning false s, Some (UnknownFormat t)).
Proof.
  intros Ht. unfold handleGlobalScan, split.
  by rewrite (split_from_no_sep _ _ Ht).
Qed.

End ScanFacts.

Lemma scan_spool_label_witness :
  "PLA-0002-002" ∈ map Spool.id (AppHandlers.filaments Workshop.shop)
  ∧ AppHandlers.mode
      (AppHandlers.handleGlobalScan Workshop.shop "FMT_SPOOL::PLA-0002-002").1
    = AppHandlers.mode_detail
  ∧ AppHandlers.currentFilamentId
      (AppHandlers.handleGlobalScan Workshop.shop "FMT_SPOOL::PLA-0002-002").1
    = Some "PLA-0002-002".
Proof.
  assert ("PLA-0002-002" ∈ map Spool.id (AppHandlers.filaments Workshop.shop))
    as Hin.
  { apply list_elem_of_In. simpl. auto. }
  split; [exact Hin|].
  destruct (proj1 (proj2 (scan_spool_label Workshop.shop "PLA-0002-002")) Hin)
    as (_ & Hmode & Hcur & _).
  split; [exact Hmode | exact Hcur].
Defined.

Lemma scan_location_label_witness :
  "Shelf1 / BoxA"
    ∈ traverse (AppHandlers.storageTree Workshop.shop)
  ∧ AppHandlers.locationFilter
      (AppHandlers.handleGlobalScan Workshop.shop
         (Labels.locationQrContent "Shelf1 / BoxA")).1
    = "Shelf1 / BoxA".
Proof.
  assert ("Shelf1 / BoxA" ∈ traverse (AppHandlers.storageTree Workshop.shop))
    as Hin.
  { apply includes_true. reflexivity. }
  split; [exact Hin|].
  exact (proj1 (proj2 (proj2 (scan_location_label Workshop.shop
                                "Shelf1 / BoxA") Hin))).
Defined.

Lemma scan_without_separator_witness :
  str_includes "https://example.org" "::" = false
  ∧ AppHandlers.handleGlobalScan Workshop.shop "https://example.org"
    = (AppHandlers.setIsScanning false Workshop.shop,
       Some (AppHandlers.UnknownFormat "https://example.org")).
Proof.
  split; [reflexivity|].
  apply (scan_without_separator Workshop.shop "https://example.org").
  reflexivity.
Defined.

(** ** Saving, deleting and editing a spool *)

Section SpoolFacts.
Context `{Host}.

Import AppHandlers.

Implicit Types (s : AppState) (d clean : Spool.FilamentData).
Implicit Types (f g : Spool.Filament) (fs : list Spool.Filament).
Implicit Types (c : Counters) (i p : string).

(** What the setters leave alone. *)
Lemma markUnsaved_data s :
  filaments (markUnsaved s) = filaments s
  ∧ idCounters (markUnsaved s) = idCounters s
  ∧ printers (markUnsaved s) = printers s
  ∧ storageTree (markUnsaved s) = storageTree s
  ∧ mode (markUnsaved s) = mode s
  ∧ currentFilamentId (markUnsaved s) = currentFilamentId s
  ∧ appStatus (markUnsaved s) = appStatus s.
Proof. unfold markUnsaved. by destruct (appStatus s) eqn:E. Qed.

Lemma setFilaments_filaments upd s :
  filaments (setFilaments upd s) = upd (filaments s).
Proof. unfold setFilaments. by rewrite (proj1 (markUnsaved_data _)). Qed.

Lemma setFilaments_idCounters upd s :
  idCounters (setFilaments upd s) = idCounters s.
Proof.
  unfold setFilaments. by rewrite (proj1 (proj2 (markUnsaved_data _))).
Qed.

Lemma setIdCounters_filaments c s :
  filaments (setIdCounters c s) = filaments s.
Proof. unfold setIdCounters. by rewrite (proj1 (markUnsaved_data _)). Qed.

Lemma setIdCounters_idCounters c s : idCounters (setIdCounters c s) = c.
Proof.
  unfold setIdCounters. by rewrite (proj1 (proj2 (markUnsaved_data _))).
Qed.

Lemma cleanFilamentData_keeps d :
  Spool.id (cleanFilamentData d) = Spool.id d
  ∧ Spool.type (cleanFilamentData d) = Spool.type d
  ∧ Spool.manufacturerColor (cleanFilamentData d) = Spool.manufacturerColor d
  ∧ Spool.onPrinter (cleanFilamentData d) = Spool.onPrinter d.
Proof. unfold cleanFilamentData. by destruct (Spool.onPrinter d) eqn:E. Qed.

Lemma cleanFilamentData_printer d p :
  Spool.assignedPrinterId (cleanFilamentData d) = Some p →
  Spool.onPrinter (cleanFilamentData d) = true.
Proof.
  unfold cleanFilamentData. by destruct (Spool.onPrinter d) eqn:E.
Qed.

(** The inventory and the counters after [saveFilament], branch by
    branch. *)
Lemma saveFilament_cases s d confirmed :
  let clean := cleanFilamentData d in
  let r := generateNewIdAndUpdateCounters
             (Spool.type clean) (Spool.manufacturerColor clean)
             (idCounters s) in
  let s' := saveFilament s d confirmed in
  s' = s
  ∨ (∃ original,
       renumbers s d
       ∧ original ∈ filaments s ∧ Some (Spool.id original) = Spool.id d
       ∧ filaments s'
         = map (fun f => if String.eqb (Spool.id f) (Spool.id original)
                         then Spool.with_id clean (newId r) else f)
             (filaments s)
       ∧ idCounters s' = updatedCounters r)
  ∨ (∃ original,
       original ∈ filaments s ∧ Some (Spool.id original) = Spool.id d
       ∧ filaments s' = map (editInPlace clean) (filaments s)
       ∧ idCounters s' = idCounters s)
  ∨ (truthy_prop (Spool.id d) = false
     ∧ filaments s' = appendNew (Spool.with_id clean (newId r)) (filaments s)
     ∧ idCounters s' = updatedCounters r).
Proof.
  intros clean r s'. subst s'. unfold saveFilament. fold clean. fold r.
  destruct (cleanFilamentData_keeps d) as (Hid & Hty & Hcol & _).
  fold clean in Hid, Hty, Hcol.
  destruct (truthy_prop (Spool.id d)) eqn:Hedit.
  - rewrite Hid.
    destruct (find_by_id (filaments s) (Spool.id d)) as [orig|] eqn:Hfind;
      [|by left].
    pose proof Hfind as Hfind'.
    apply find_some in Hfind' as [Hin%list_elem_of_In Hsame].
    unfold same_id in Hsame. apply bool_decide_eq_true in Hsame.
    destruct (negb _ || negb _) eqn:Hcore.
    + destruct confirmed; [|by left]. right; left. exists orig.
      split.
      { exists orig. split; [done|]. split; [done|].
        rewrite Hty, Hcol in Hcore.
        apply orb_true_iff in Hcore
          as [Hc%negb_true_iff%String.eqb_neq | Hc%negb_true_iff%String.eqb_neq];
          auto. }
      cbn [filaments idCounters setIsDirty setInitialDataForForm setMode
           setCurrentFilamentId negb].
      by rewrite setFilaments_filaments, setFilaments_idCounters,
        setIdCounters_filaments, setIdCounters_idCounters.
    + right; right; left. exists orig.
      cbn [filaments idCounters setIsDirty setInitialDataForForm setMode
           setCurrentFilamentId].
      by rewrite setFilaments_filaments, setFilaments_idCounters.
  - right; right; right.
    cbn [filaments idCounters setIsDirty setInitialDataForForm setMode
         setCurrentFilamentId].
    by rewrite setFilaments_filaments, setFilaments_idCounters,
      setIdCounters_filaments, setIdCounters_idCounters.
Qed.

(** *** The ids stay distinct *)

Lemma issued_mono t col c i :
  issued c i →
  issued (updatedCounters (generateNewIdAndUpdateCounters t col c)) i.
Proof.
  intros (T & n & code & HT & -> & Hn). exists T, n, code.
  split; [done|]. split; [done|].
  pose proof (nextSpool_mono t col c T). lia.
Qed.

Lemma newId_issued t col c :
  issued (updatedCounters (generateNewIdAndUpdateCounters t col c))
    (newId (generateNewIdAndUpdateCounters t col c)).
Proof.
  destruct (generate_spec t col c) as (code & Hid & _).
  exists (typeCode t), (nextSpool (typeCode t) c), code.
  split; [apply typeCode_no_dash|]. split; [done|].
  rewrite nextSpool_same. lia.
Qed.

Lemma newId_not_issued t col c :
  ¬ issued c (newId (generateNewIdAndUpdateCounters t col c)).
Proof.
  destruct (generate_spec t col c) as (code & Hid & _).
  intros (T & n & code' & HT & Heq & Hn). rewrite Hid in Heq.
  apply compose_id_inj in Heq as [<- <-];
    [lia | apply typeCode_no_dash | done].
Qed.

Lemma appendNew_ids (nf : Spool.Filament) fs :
  map Spool.id (appendNew nf fs) = map Spool.id fs ++ [Spool.id nf].
Proof.
  unfold appendNew. rewrite map_app. f_equal.
  destruct (_ && _); [|done]. rewrite map_map. apply map_ext.
  intros f. by destruct (bool_decide _).
Qed.

Lemma editInPlace_id clean f : Spool.id (editInPlace clean f) = Spool.id f.
Proof.
  unfold editInPlace. destruct (_ && _ && _); [done|].
  destruct (same_id f (Spool.id clean)) eqn:Hs; [|done].
  unfold same_id in Hs. apply bool_decide_eq_true in Hs. by rewrite <- Hs.
Qed.

Lemma ids_consistent_same_ids c fs fs' :
  map Spool.id fs' = map Spool.id fs →
  ids_consistent c fs → ids_consistent c fs'.
Proof.
  intros Hids [Hnd Hall]. split; [by rewrite Hids|].
  apply Forall_forall. intros f' Hf'.
  assert (Spool.id f' ∈ map Spool.id fs) as Hin.
  { rewrite <- Hids. apply list_elem_of_fmap. by exists f'. }
  apply list_elem_of_fmap in Hin as (f & -> & Hf).
  by eapply Forall_forall in Hall.
Qed.

Lemma ids_consistent_filter (P : Spool.Filament → Prop)
    `{∀ f, Decision (P f)} c fs :
  ids_consistent c fs → ids_consistent c (filter P fs).
Proof.
  intros [Hnd Hall]. split.
  - eapply sublist_NoDup; [exact Hnd|]. apply fmap_sublist, sublist_filter.
  - apply Forall_forall. intros f [_ Hf]%list_elem_of_filter.
    by eapply Forall_forall in Hall.
Qed.

Lemma NoDup_replace_fresh (ids : list string) old new :
  NoDup ids → new ∉ ids →
  NoDup (map (fun x => if String.eqb x old then new else x) ids).
Proof.
  intros Hnd Hnew. induction Hnd as [|x l Hx Hnd IH]; simpl; [constructor|].
  apply not_elem_of_cons in Hnew as [Hne Hnew].
  constructor; [|by apply IH].
  intros (y & Hy & Hin)%list_elem_of_fmap.
  destruct (String.eqb_spec x old) as [Hxo|Hxo];
    destruct (String.eqb_spec y old) as [Hyo|Hyo]; congruence.
Qed.

Lemma replace_ids fs old new (nf : Spool.Filament) :
  Spool.id nf = new →
  map Spool.id (map (fun f => if String.eqb (Spool.id f) old then nf else f) fs)
  = map (fun x => if String.eqb x old then new else x) (map Spool.id fs).
Proof.
  intros <-. rewrite !map_map. apply map_ext. intros f.
  by destruct (String.eqb _ _).
Qed.

(** X4. The ids stay pairwise distinct. If the ids of the inventory are
    distinct and each of them is an id the allocator issued before the
    counters reached their present values, and the next increment of the
    spool counters is exact, then the ids are distinct and issued again
    after a spool is saved (added, edited in place, or given a new id
    because its type or manufacturer color changed), after a spool is
    deleted, after a weight is updated and after the printers are
    committed. *)
Theorem inventory_updates_keep_ids_distinct s :
  ids_consistent (idCounters s) (filaments s) →
  exact_counting 1 (idCounters s) →
  (∀ d confirmed,
     let s' := saveFilament s d confirmed in
     ids_consistent (idCounters s') (filaments s'))
  ∧ (∀ i confirmed,
       let s' := deleteFilament s i confirmed in
       ids_consistent (idCounters s') (filaments s'))
  ∧ (∀ i w,
       let s' := handleUpdateWeight s i w in
       ids_consistent (idCounters s') (filaments s'))
  ∧ (∀ newPrinters,
       let s' := handleSavePrinters s newPrinters in
       ids_consistent (idCounters s') (filaments s')).
Proof.
  intros Hinv _. split; [|split; [|split]].
  - intros d confirmed s'. subst s'.
    destruct (saveFilament_cases s d confirmed)
      as [-> | [(orig & _ & Hin & Hid & -> & ->)
         | [(orig & Hin & Hid & -> & ->) | (Hnew & -> & ->)]]]; [done | | | ].
    + destruct Hinv as [Hnd Hall].
      set (r := generateNewIdAndUpdateCounters _ _ _).
      assert (newId r ∉ map Spool.id (filaments s)) as Hfresh.
      { intros (f & Hf & Hfin)%list_elem_of_fmap.
        eapply Forall_forall in Hall; [|exact Hfin].
        rewrite <- Hf in Hall. by apply newId_not_issued in Hall. }
      split.
      * rewrite (replace_ids _ _ (newId r)) by done.
        by apply NoDup_replace_fresh.
      * apply Forall_forall. intros f' (f & -> & Hf)%list_elem_of_fmap.
        destruct (String.eqb _ _); [apply newId_issued|].
        apply issued_mono. by eapply Forall_forall in Hall.
    + eapply ids_consistent_same_ids; [|exact Hinv].
      rewrite map_map. apply map_ext. intros f. apply editInPlace_id.
    + destruct Hinv as [Hnd Hall].
      set (r := generateNewIdAndUpdateCounters _ _ _).
      split.
      * rewrite appendNew_ids. apply NoDup_app. split; [done|].
        split; [|apply NoDup_singleton].
        intros i Hi ->%list_elem_of_singleton.
        apply list_elem_of_fmap in Hi as (f & Hf & Hfin).
        eapply Forall_forall in Hall; [|exact Hfin].
        cbn in Hf. rewrite <- Hf in Hall. by apply newId_not_issued in Hall.
      * apply Forall_forall. intros f' Hf'.
        assert (Spool.id f' ∈ map Spool.id
                  (appendNew (Spool.with_id (cleanFilamentData d) (newId r))
                     (filaments s))) as Hi.
        { apply list_elem_of_fmap. by exists f'. }
        rewrite appendNew_ids in Hi.
        apply elem_of_app in Hi as [Hi | ->%list_elem_of_singleton].
        -- apply list_elem_of_fmap in Hi as (f & -> & Hf).
           apply issued_mono. by eapply Forall_forall in Hall.
        -- apply newId_issued.
  - intros i [] s'; subst s'; unfold deleteFilament; [|done].
    cbn [filaments idCounters setIsDirty setCurrentFilamentId setMode].
    rewrite setFilaments_filaments, setFilaments_idCounters.
    by apply ids_consistent_filter.
  - intros i w s'. subst s'. unfold handleUpdateWeight.
    cbn [filaments idCounters setIsDirty].
    rewrite setFilaments_filaments, setFilaments_idCounters.
    eapply ids_consistent_same_ids; [|exact Hinv].
    rewrite map_map. apply map_ext. intros f. by destruct (String.eqb _ _).
  - intros newPrinters s'. subst s'. unfold handleSavePrinters.
    cbn [filaments idCounters setIsDirty setMode].
    unfold setPrinters.
    rewrite (proj1 (markUnsaved_data _)),
      (proj1 (proj2 (markUnsaved_data _))).
    cbn [filaments idCounters setPrintersInternal].
    destruct (_ <? _)%nat; [|done].
    rewrite setFilaments_filaments, setFilaments_idCounters.
    eapply ids_consistent_same_ids; [|exact Hinv].
    rewrite map_map. apply map_ext. intros f.
    by destruct (on_deleted_printer _ _).
Qed.

(** X5. When an id changes. Saving an edited spool whose type and
    manufacturer color are those it had keeps every id and the counters;
    an edit that changes one of them and is not confirmed, or that names a
    spool the inventory does not have, changes nothing at all; and a spool
    that is added gets the id the allocator issues, at the end of the
    inventory. *)
Theorem saveFilament_changes_ids_only_on_core_change s d confirmed :
  let s' := saveFilament s d confirmed in
  let r := generateNewIdAndUpdateCounters
             (Spool.type d) (Spool.manufacturerColor d) (idCounters s) in
  (truthy_prop (Spool.id d) = true → ¬ renumbers s d →
   map Spool.id (filaments s') = map Spool.id (filaments s)
   ∧ idCounters s' = idCounters s)
  ∧ (renumbers s d → confirmed = false → s' = s)
  ∧ (truthy_prop (Spool.id d) = true →
     find_by_id (filaments s) (Spool.id d) = None → s' = s)
  ∧ (truthy_prop (Spool.id d) = false →
     map Spool.id (filaments s') = map Spool.id (filaments s) ++ [newId r]
     ∧ idCounters s' = updatedCounters r).
Proof.
  intros s' r. subst s'.
  destruct (cleanFilamentData_keeps d) as (Hid & Hty & Hcol & _).
  split; [|split; [|split]].
  - intros Hedit Hsame.
    destruct (saveFilament_cases s d confirmed)
      as [-> | [(orig & Hren & _) | [(orig & Hin & Hido & -> & ->)
         | (Hnew & _)]]]; [done | done | | congruence].
    split; [|done]. rewrite map_map. apply map_ext. intros f.
    apply editInPlace_id.
  - intros (orig & Hedit & Hfind & Hcore) ->. unfold saveFilament.
    rewrite Hedit, Hid, Hfind, Hty, Hcol.
    assert (negb (String.eqb (Spool.type orig) (Spool.type d))
            || negb (String.eqb (Spool.manufacturerColor orig)
                                (Spool.manufacturerColor d)) = true) as ->;
      [|done].
    apply orb_true_iff.
    destruct Hcore as [Hc|Hc]; [left|right];
      by apply negb_true_iff, String.eqb_neq.
  - intros Hedit Hfind. unfold saveFilament. by rewrite Hedit, Hid, Hfind.
  - intros Hnew. unfold saveFilament. rewrite Hnew.
    cbn [filaments idCounters setIsDirty setInitialDataForForm setMode
         setCurrentFilamentId].
    rewrite setFilaments_filaments, setFilaments_idCounters,
      setIdCounters_filaments, setIdCounters_idCounters, appendNew_ids.
    subst r. by rewrite Hty, Hcol.
Qed.

(** *** One spool on a printer *)

Lemma usedPrinterIds_elem fs (initialId : option string) p :
  p ∈ FilamentForm.usedPrinterIds fs initialId
  ↔ ∃ g, g ∈ fs ∧ Some (Spool.id g) ≠ initialId
         ∧ Spool.assignedPrinterId g = Some p ∧ truthy p = true.
Proof.
  unfold FilamentForm.usedPrinterIds. rewrite list_elem_of_omap.
  split.
  - intros (g & Hg & Hsel). exists g. split; [done|].
    destruct (bool_decide_reflect (Some (Spool.id g) = initialId));
      simpl in Hsel; [done|].
    destruct (Spool.assignedPrinterId g) as [q|] eqn:Hq; simpl in Hsel;
      [|done].
    destruct (truthy q) eqn:Ht; simplify_eq. done.
  - intros (g & Hg & Hne & Hp & Ht). exists g. split; [done|].
    rewrite bool_decide_eq_false_2 by done. rewrite Hp. simpl. by rewrite Ht.
Qed.

Lemma editInPlace_printer d f p :
  Spool.assignedPrinterId (editInPlace (cleanFilamentData d) f) = Some p →
  (Some (Spool.id f) = Spool.id d
   ∧ Spool.assignedPrinterId (cleanFilamentData d) = Some p)
  ∨ (Some (Spool.id f) ≠ Spool.id d
     ∧ Spool.assignedPrinterId f = Some p
     ∧ Spool.assignedPrinterId (cleanFilamentData d) ≠ Some p).
Proof.
  destruct (cleanFilamentData_keeps d) as (Hid & _).
  unfold editInPlace, same_id. rewrite Hid.
  destruct (bool_decide_reflect (Some (Spool.id f) = Spool.id d)) as [Hs|Hs].
  - rewrite andb_false_r. simpl. auto.
  - rewrite andb_true_r.
    destruct (Spool.onPrinter (cleanFilamentData d)) eqn:Hon; simpl.
    + destruct (bool_decide_reflect
                  (Spool.assignedPrinterId f
                   = Spool.assignedPrinterId (cleanFilamentData d)))
        as [Hp|Hp]; simpl; [done|].
      intros Hf. right. split; [done|]. split; [done|]. congruence.
    + intros Hf. right. split; [done|]. split; [done|].
      intros Hc%cleanFilamentData_printer. congruence.
Qed.

Lemma appendNew_lookup (nf : Spool.Filament) fs (k : nat) f' q :
  (∀ q, Spool.assignedPrinterId nf = Some q → Spool.onPrinter nf = true) →
  appendNew nf fs !! k = Some f' →
  Spool.assignedPrinterId f' = Some q → truthy q = true →
  (fs !! k = Some f' ∧ Spool.assignedPrinterId nf ≠ Some q)
  ∨ (k = List.length fs ∧ f' = nf).
Proof.
  intros Hnf Hk Hq Ht. unfold appendNew in Hk.
  apply lookup_app_Some in Hk as [Hk|[Hkl Hk]].
  - left.
    destruct (Spool.onPrinter nf) eqn:Hon; cbn [andb] in Hk.
    + destruct (truthy_prop (Spool.assignedPrinterId nf)) eqn:Htp.
      * rewrite map_fmap, list_lookup_fmap in Hk.
        destruct (fs !! k) as [f|]; [|done]. simpl in Hk.
        destruct (bool_decide_reflect
                    (Spool.assignedPrinterId f
                     = Spool.assignedPrinterId nf)) as [Hfp|Hfp];
          simplify_eq.
        split; [done|]. congruence.
      * split; [done|]. intros Hn. rewrite Hn in Htp. simpl in Htp.
        congruence.
    + split; [done|]. intros Hn%Hnf. congruence.
  - right. apply list_lookup_singleton_Some in Hk as [Hk <-].
    split; [|done].
    assert (List.length (if Spool.onPrinter nf
                            && truthy_prop (Spool.assignedPrinterId nf)
                         then map (fun f =>
                                if bool_decide (Spool.assignedPrinterId f
                                                = Spool.assignedPrinterId nf)
                                then Spool.unassign f else f) fs
                         else fs) = List.length fs) as Hlen.
    { destruct (_ && _); [apply length_map | done]. }
    rewrite Hlen in Hkl, Hk. lia.
Qed.

Lemma same_ids_same_index fs (m n : nat) f g :
  NoDup (map Spool.id fs) →
  fs !! m = Some f → fs !! n = Some g → Spool.id f = Spool.id g → m = n.
Proof.
  intros Hnd Hi Hj Heq.
  eapply NoDup_lookup; [exact Hnd| |].
  - by rewrite map_fmap, list_lookup_fmap, Hi.
  - rewrite map_fmap, list_lookup_fmap, Hj. simpl. by rewrite Heq.
Qed.

(** X6. At most one spool is loaded on a printer, and saving a spool keeps
    it so: a spool that is added or edited in place takes its printer away
    from the spool that was loaded on it, which is set back to
    "Angebrochen". An edit that changes type or manufacturer color, and
    with it the id, leaves the other spools alone; there the property is
    kept when the printer is one that no other spool uses, as the printers
    offered by the form are. *)
Theorem saveFilament_one_spool_per_printer s d confirmed :
  NoDup (map Spool.id (filaments s)) →
  one_spool_per_printer (filaments s) →
  (renumbers s d →
   ∀ p, Spool.assignedPrinterId (cleanFilamentData d) = Some p →
        p ∉ FilamentForm.usedPrinterIds (filaments s) (Spool.id d)) →
  one_spool_per_printer (filaments (saveFilament s d confirmed)).
Proof.
  intros Hnd Hone Hfree.
  destruct (saveFilament_cases s d confirmed)
    as [-> | [(orig & Hren & Hin & Hid & -> & _)
       | [(orig & Hin & Hid & -> & _) | (Hnew & -> & _)]]]; [done | | | ].
  - (* a new id *)
    specialize (Hfree Hren).
    set (r := generateNewIdAndUpdateCounters _ _ _).
    intros i j f' g' p Hi Hj Hf Hg Hp.
    rewrite map_fmap, list_lookup_fmap in Hi, Hj.
    destruct (filaments s !! i) as [f|] eqn:Hfi; [|done].
    destruct (filaments s !! j) as [g|] eqn:Hgj; [|done].
    cbn [fmap option_fmap option_map] in Hi, Hj. simplify_eq.
    destruct (String.eqb_spec (Spool.id f) (Spool.id orig)) as [Hfo|Hfo];
      destruct (String.eqb_spec (Spool.id g) (Spool.id orig)) as [Hgo|Hgo].
    + eapply same_ids_same_index; [done..|congruence].
    + exfalso. apply (Hfree p Hf), usedPrinterIds_elem.
      exists g. split; [by eapply list_elem_of_lookup_2|].
      split; [congruence|done].
    + exfalso. apply (Hfree p Hg), usedPrinterIds_elem.
      exists f. split; [by eapply list_elem_of_lookup_2|].
      split; [congruence|done].
    + by eapply Hone.
  - (* in place *)
    intros i j f' g' p Hi Hj Hf Hg Hp.
    rewrite map_fmap, list_lookup_fmap in Hi, Hj.
    destruct (filaments s !! i) as [f|] eqn:Hfi; [|done].
    destruct (filaments s !! j) as [g|] eqn:Hgj; [|done].
    cbn [fmap option_fmap option_map] in Hi, Hj. simplify_eq.
    apply editInPlace_printer in Hf as [[Hfs Hfc]|(Hfs & Hfp & Hfc)];
      apply editInPlace_printer in Hg as [[Hgs Hgc]|(Hgs & Hgp & Hgc)];
      try done.
    + eapply same_ids_same_index; [done..|congruence].
    + by eapply Hone.
  - (* a new spool *)
    set (r := generateNewIdAndUpdateCounters _ _ _).
    set (nf := Spool.with_id (cleanFilamentData d) (newId r)).
    assert (∀ q, Spool.assignedPrinterId nf = Some q →
                 Spool.onPrinter nf = true) as Hnf.
    { intros q Hq. by apply cleanFilamentData_printer in Hq. }
    intros i j f' g' p Hi Hj Hf Hg Hp.
    destruct (appendNew_lookup nf _ _ _ p Hnf Hi Hf Hp)
      as [(Hi' & Hfn)|[Hil ->]];
      destruct (appendNew_lookup nf _ _ _ p Hnf Hj Hg Hp)
        as [(Hj' & Hgn)|[Hjl ->]]; try done.
    + by eapply Hone.
    + lia.
Qed.

End SpoolFacts.

Lemma inventory_updates_keep_ids_distinct_witness :
  let d : Spool.FilamentData :=
    Spool.with_id
      (Workshop.item "" "Originalverpackt" "PLA" "Signal Red" "" None) None in
  ids_consistent (AppHandlers.idCounters Workshop.shop)
    (AppHandlers.filaments Workshop.shop)
  ∧ exact_counting 1 (AppHandlers.idCounters Workshop.shop)
  ∧ map Spool.id
      (AppHandlers.filaments (AppHandlers.saveFilament Workshop.shop d false))
    = ["PLA-0001-001"; "PLA-0002-002"; "PETG-0001-001"; "PLA-0003-003"]
  ∧ ids_consistent
      (AppHandlers.idCounters (AppHandlers.saveFilament Workshop.shop d false))
      (AppHandlers.filaments (AppHandlers.saveFilament Workshop.shop d false)).
Proof.
  intros d.
  assert (ids_consistent (AppHandlers.idCounters Workshop.shop)
            (AppHandlers.filaments Workshop.shop)) as Hinv.
  { split.
    - apply (bool_decide_unpack _). by vm_compute.
    - repeat constructor.
      + exists "PLA", 1, "001". repeat split. vm_compute. lia.
      + exists "PLA", 2, "002". repeat split. vm_compute. lia.
      + exists "PETG", 1, "001". repeat split. vm_compute. lia. }
  assert (exact_counting 1 (AppHandlers.idCounters Workshop.shop)) as Hex.
  { split; [reflexivity|]. apply (bool_decide_unpack _). by vm_compute. }
  split; [exact Hinv|]. split; [exact Hex|]. split; [by vm_compute|].
  exact (proj1 (inventory_updates_keep_ids_distinct Workshop.shop Hinv Hex)
           d false).
Defined.

Lemma saveFilament_one_spool_per_printer_witness :
  let d : Spool.FilamentData :=
    Spool.with_id
      (Workshop.item "" "Auf Drucker" "ABS" "Galaxy Black" "" (Some "mini"))
      (Some "PLA-0001-001") in
  NoDup (map Spool.id (AppHandlers.filaments Workshop.shop))
  ∧ one_spool_per_printer (AppHandlers.filaments Workshop.shop)
  ∧ renumbers Workshop.shop d
  ∧ ("mini" ∉ FilamentForm.usedPrinterIds
                (AppHandlers.filaments Workshop.shop) (Spool.id d))
  ∧ one_spool_per_printer
      (AppHandlers.filaments (AppHandlers.saveFilament Workshop.shop d true)).
Proof.
  intros d.
  assert (NoDup (map Spool.id (AppHandlers.filaments Workshop.shop))) as Hnd.
  { apply (bool_decide_unpack _). by vm_compute. }
  assert (one_spool_per_printer (AppHandlers.filaments Workshop.shop))
    as Hone.
  { intros [|[|[|i]]] [|[|[|j]]] f g p Hi Hj Hf Hg Hp;
      cbn in Hi, Hj; simplify_eq; cbn in *; simplify_eq; done. }
  assert ("mini" ∉ FilamentForm.usedPrinterIds
                     (AppHandlers.filaments Workshop.shop) (Spool.id d))
    as Hfree.
  { apply includes_false. reflexivity. }
  split; [exact Hnd|]. split; [exact Hone|]. split.
  { eexists. split; [reflexivity|]. split; [reflexivity|].
    left. discriminate. }
  split; [exact Hfree|].
  apply (saveFilament_one_spool_per_printer Workshop.shop d true Hnd Hone).
  intros _ p [= <-]. exact Hfree.
Defined.

Lemma saveFilament_changes_ids_only_on_core_change_witness :
  let kept : Spool.FilamentData :=
    Spool.with_id
      (Workshop.item "" "Angebrochen" "PLA" "Galaxy Black" "Shelf1" None)
      (Some "PLA-0001-001") in
  let changed : Spool.FilamentData :=
    Spool.with_id
      (Workshop.item "" "Angebrochen" "ABS" "Galaxy Black" "Shelf1" None)
      (Some "PLA-0001-001") in
  let added : Spool.FilamentData :=
    Spool.with_id
      (Workshop.item "" "Originalverpackt" "PLA" "Signal Red" "" None) None in
  (¬ renumbers Workshop.shop kept
   ∧ map Spool.id
       (AppHandlers.filaments (AppHandlers.saveFilament Workshop.shop kept true))
     = map Spool.id (AppHandlers.filaments Workshop.shop))
  ∧ (renumbers Workshop.shop changed
     ∧ AppHandlers.saveFilament Workshop.shop changed false = Workshop.shop)
  ∧ map Spool.id
      (AppHandlers.filaments (AppHandlers.saveFilament Workshop.shop added true))
    = map Spool.id (AppHandlers.filaments Workshop.shop) ++ ["PLA-0003-003"].
Proof.
  intros kept changed added.
  assert (¬ renumbers Workshop.shop kept) as Hkept.
  { intros (o & _ & Hfind & Hne).
    change (Some (Workshop.item "PLA-0001-001" "Angebrochen" "PLA"
                    "Galaxy Black" "Shelf1 / BoxA" None) = Some o) in Hfind.
    injection Hfind as <-. by destruct Hne as [Hne|Hne]; apply Hne. }
  assert (renumbers Workshop.shop changed) as Hchanged.
  { eexists. split; [reflexivity|]. split; [reflexivity|].
    left. discriminate. }
  split; [|split].
  - split; [exact Hkept|].
    exact (proj1 (proj1 (saveFilament_changes_ids_only_on_core_change
                           Workshop.shop kept true) eq_refl Hkept)).
  - split; [exact Hchanged|].
    exact (proj1 (proj2 (saveFilament_changes_ids_only_on_core_change
                           Workshop.shop changed false)) Hchanged eq_refl).
  - exact (proj1 (proj2 (proj2 (proj2
             (saveFilament_changes_ids_only_on_core_change
                Workshop.shop added true))) eq_refl)).
Defined.

(** ** Committing the printers *)

Section PrinterFacts.
Context `{Host}.

Import AppHandlers.

Implicit Types (s : AppState) (f g : Spool.Filament).
Implicit Types (fs : list Spool.Filament) (ps : list Device.Printer).
Implicit Types (i p : string).

Lemma existsb_printer_id ps p :
  existsb (fun newP => String.eqb (Device.id newP) p) ps = true
  ↔ p ∈ map Device.id ps.
Proof.
  rewrite existsb_exists, list_elem_of_fmap. split.
  - intros (q & Hq%list_elem_of_In & Heq%String.eqb_eq). by exists q.
  - intros (q & -> & Hq). exists q. split; [by apply list_elem_of_In|].
    apply String.eqb_refl.
Qed.

Lemma deletedPrinterIds_elem (oldPrinters newPrinters : list Device.Printer) p :
  p ∈ deletedPrinterIds oldPrinters newPrinters
  ↔ p ∈ map Device.id oldPrinters ∧ p ∉ map Device.id newPrinters.
Proof.
  unfold deletedPrinterIds. split.
  - intros (q & -> & [Hq Hin]%list_elem_of_filter)%list_elem_of_fmap.
    split; [apply list_elem_of_fmap; by exists q|].
    intros Hn%existsb_printer_id. congruence.
  - intros [(q & -> & Hq)%list_elem_of_fmap Hn].
    apply list_elem_of_fmap. exists q. split; [done|].
    apply list_elem_of_filter. split; [|done].
    destruct (existsb _ _) eqn:He; [|done].
    by apply existsb_printer_id in He.
Qed.

(** The spool is loaded on a printer that the commit removes. *)
Lemma on_deleted_printer_true (oldPrinters newPrinters : list Device.Printer) f :
  on_deleted_printer (deletedPrinterIds oldPrinters newPrinters) f = true
  ↔ ∃ p, Spool.assignedPrinterId f = Some p ∧ truthy p = true
         ∧ p ∈ map Device.id oldPrinters ∧ p ∉ map Device.id newPrinters.
Proof.
  unfold on_deleted_printer. destruct (Spool.assignedPrinterId f) as [p|].
  - rewrite andb_true_iff, includes_true, deletedPrinterIds_elem. split.
    + intros [Ht Hd]. by exists p.
    + intros (q & [= <-] & Ht & Hd). done.
  - split; [done|]. by intros (q & [=] & _).
Qed.

Lemma handleSavePrinters_filaments s (newPrinters : list Device.Printer) :
  filaments (handleSavePrinters s newPrinters)
  = map (fun f =>
           if on_deleted_printer
                (deletedPrinterIds (printers s) newPrinters) f
           then Spool.unassign f else f) (filaments s).
Proof.
  unfold handleSavePrinters. cbn [filaments setIsDirty setMode].
  unfold setPrinters. rewrite (proj1 (markUnsaved_data _)).
  cbn [filaments setPrintersInternal].
  destruct (Nat.ltb_spec 0 (List.length
              (deletedPrinterIds (printers s) newPrinters))) as [Hlt|Hle].
  - by rewrite setFilaments_filaments.
  - destruct (deletedPrinterIds _ _) as [|? ?]; [|simpl in Hle; lia].
    rewrite <- (map_id (filaments s)) at 1. apply map_ext. intros f.
    unfold on_deleted_printer. destruct (Spool.assignedPrinterId f); [|done].
    by rewrite andb_false_r.
Qed.

Lemma handleSavePrinters_printers s (newPrinters : list Device.Printer) :
  printers (handleSavePrinters s newPrinters) = newPrinters.
Proof.
  unfold handleSavePrinters. cbn [printers setIsDirty setMode].
  unfold setPrinters.
  by rewrite (proj1 (proj2 (proj2 (markUnsaved_data _)))).
Qed.

(** X7. Committing an edited printer list keeps the spools consistent with
    it: if every printer that a spool is loaded on is in the old list, then
    after the commit every printer that a spool is loaded on is in the new
    list. A spool on a printer that the new list lacks is set back to
    "Angebrochen" without a printer, and every other spool is kept as it
    is. *)
Theorem handleSavePrinters_keeps_printers_known s
    (newPrinters : list Device.Printer) :
  printers_known (printers s) (filaments s) →
  let s' := handleSavePrinters s newPrinters in
  printers s' = newPrinters
  ∧ printers_known newPrinters (filaments s')
  ∧ Forall2
      (fun f f' =>
         match Spool.assignedPrinterId f with
         | Some p =>
             if truthy p && bool_decide (p ∉ map Device.id newPrinters)
             then f' = Spool.unassign f else f' = f
         | None => f' = f
         end)
      (filaments s) (filaments s').
Proof.
  intros Hknown s'. subst s'.
  rewrite handleSavePrinters_printers, handleSavePrinters_filaments.
  split; [done|]. split.
  - intros f' p (f & -> & Hf)%list_elem_of_fmap Hp Ht.
    destruct (on_deleted_printer _ f) eqn:Hd; [done|].
    pose proof (Hknown f p Hf Hp Ht) as Hold.
    destruct (decide (p ∈ map Device.id newPrinters)) as [|Hn]; [done|].
    assert (on_deleted_printer
              (deletedPrinterIds (printers s) newPrinters) f = true)
      as Hd'; [|congruence].
    apply on_deleted_printer_true. by exists p.
  - apply Forall2_fmap_r, Forall_Forall2_diag, Forall_forall.
    intros f Hf. unfold compose. cbn beta.
    destruct (Spool.assignedPrinterId f) as [p|] eqn:Hp.
    + destruct (truthy p) eqn:Ht; cbn [andb].
      * destruct (bool_decide_reflect (p ∉ map Device.id newPrinters))
          as [Hn|Hn].
        -- assert (on_deleted_printer
                     (deletedPrinterIds (printers s) newPrinters) f = true)
             as ->; [|done].
           apply on_deleted_printer_true. exists p.
           split; [done|]. split; [done|]. split; [|done]. by eapply Hknown.
        -- destruct (on_deleted_printer _ f) eqn:Hd; [|done].
           apply on_deleted_printer_true in Hd as (q & Hq & _ & _ & Hnq).
           simplify_eq. by destruct Hn.
      * destruct (on_deleted_printer _ f) eqn:Hd; [|done].
        apply on_deleted_printer_true in Hd as (q & Hq & Htq & _).
        congruence.
    + destruct (on_deleted_printer _ f) eqn:Hd; [|done].
      apply on_deleted_printer_true in Hd as (q & Hq & _). congruence.
Qed.

(** X8. Deleting a printer in the printer manager and committing the list
    unloads the spools that were on it, as the confirmation dialog
    announces: the printer is gone from the list, a spool that was loaded
    on it is set back to "Angebrochen" without a printer, and every other
    spool is kept as it is. *)
Theorem delete_printer_unloads_spools s i :
  truthy i = true → i ∈ map Device.id (printers s) →
  let s' :=
    handleSavePrinters s (PrinterManager.handleDelete (printers s) i true) in
  (i ∉ map Device.id (printers s'))
  ∧ Forall2
      (fun f f' =>
         if bool_decide (Spool.assignedPrinterId f = Some i)
         then f' = Spool.unassign f else f' = f)
      (filaments s) (filaments s').
Proof.
  intros Ht Hi s'. subst s'.
  rewrite handleSavePrinters_printers, handleSavePrinters_filaments.
  unfold PrinterManager.handleDelete.
  assert (∀ p, p ∈ map Device.id (filter (fun q => Device.id q ≠ i) (printers s))
               ↔ p ∈ map Device.id (printers s) ∧ p ≠ i) as Hkept.
  { intros p. split.
    - intros (q & -> & [Hq Hin]%list_elem_of_filter)%list_elem_of_fmap.
      split; [apply list_elem_of_fmap; by exists q|done].
    - intros [(q & -> & Hq)%list_elem_of_fmap Hne].
      apply list_elem_of_fmap. exists q. split; [done|].
      by apply list_elem_of_filter. }
  split.
  - rewrite Hkept. by intros [_ []].
  - apply Forall2_fmap_r, Forall_Forall2_diag, Forall_forall.
    intros f Hf. unfold compose. cbn beta.
    destruct (bool_decide_reflect (Spool.assignedPrinterId f = Some i))
      as [Hp|Hp].
    + assert (on_deleted_printer
                (deletedPrinterIds (printers s)
                   (filter (fun q => Device.id q ≠ i) (printers s))) f = true)
        as ->; [|done].
      apply on_deleted_printer_true. exists i.
      split; [done|]. split; [done|]. split; [done|].
      rewrite Hkept. by intros [_ []].
    + destruct (on_deleted_printer _ f) eqn:Hd; [|done].
      apply on_deleted_printer_true in Hd as (q & Hq & _ & Hold & Hnq).
      rewrite Hkept in Hnq.
      destruct (decide (q = i)) as [->|Hne]; [done|]. by destruct Hnq.
Qed.

(** X9. Editing the fields of a printer or adding a printer in the printer
    manager, and committing the list, changes no spool: the ids of the
    printers are kept by [handleUpdate] and by [handleAdd], which only
    appends a printer. *)
Theorem update_printer_keeps_spools s :
  (∀ (parseFloat_or_0 : string → num) i field value,
     map Device.id
       (PrinterManager.handleUpdate parseFloat_or_0 (printers s) i field value)
     = map Device.id (printers s)
     ∧ filaments
         (handleSavePrinters s
            (PrinterManager.handleUpdate parseFloat_or_0 (printers s)
               i field value))
       = filaments s)
  ∧ (∀ k,
       map Device.id (PrinterManager.handleAdd k (printers s))
       = map Device.id (printers s) ++ [randomUUID k]
       ∧ filaments
           (handleSavePrinters s (PrinterManager.handleAdd k (printers s)))
         = filaments s).
Proof.
  assert (∀ newPrinters : list Device.Printer,
            (∀ p, p ∈ map Device.id (printers s) →
                  p ∈ map Device.id newPrinters) →
            filaments (handleSavePrinters s newPrinters) = filaments s)
    as Hsame.
  { intros newPrinters Hsub. rewrite handleSavePrinters_filaments.
    rewrite <- (map_id (filaments s)) at 2. apply map_ext. intros f.
    destruct (on_deleted_printer _ f) eqn:Hd; [|done].
    apply on_deleted_printer_true in Hd as (q & _ & _ & Hold & Hnq).
    by apply Hsub in Hold. }
  split.
  - intros pf i field value.
    assert (map Device.id
              (PrinterManager.handleUpdate pf (printers s) i field value)
            = map Device.id (printers s)) as Hids.
    { unfold PrinterManager.handleUpdate. rewrite map_map.
      apply map_ext. intros p. destruct (String.eqb _ _); [|done].
      by destruct field. }
    split; [done|]. apply Hsame. intros p. by rewrite Hids.
  - intros k.
    assert (map Device.id (PrinterManager.handleAdd k (printers s))
            = map Device.id (printers s) ++ [randomUUID k]) as Hids.
    { unfold PrinterManager.handleAdd. by rewrite map_app. }
    split; [done|]. apply Hsame. intros p Hp. rewrite Hids.
    apply elem_of_app. by left.
Qed.

End PrinterFacts.

Lemma handleSavePrinters_keeps_printers_known_witness :
  printers_known (AppHandlers.printers Workshop.shop)
    (AppHandlers.filaments Workshop.shop)
  ∧ printers_known [Workshop.printer "mini" "Mini"]
      (AppHandlers.filaments
         (AppHandlers.handleSavePrinters Workshop.shop
            [Workshop.printer "mini" "Mini"])).
Proof.
  assert (printers_known (AppHandlers.printers Workshop.shop)
            (AppHandlers.filaments Workshop.shop)) as Hknown.
  { intros f p Hf Hp _. apply list_elem_of_In in Hf.
    destruct Hf as [<-|[<-|[<-|[]]]]; cbn in Hp; simplify_eq.
    apply list_elem_of_In. simpl. auto. }
  split; [exact Hknown|].
  exact (proj1 (proj2 (handleSavePrinters_keeps_printers_known Workshop.shop
                         [Workshop.printer "mini" "Mini"] Hknown))).
Defined.

Lemma delete_printer_unloads_spools_witness :
  truthy "mk4" = true
  ∧ "mk4" ∈ map Device.id (AppHandlers.printers Workshop.shop)
  ∧ map (fun f => (Spool.status f, Spool.assignedPrinterId f))
      (AppHandlers.filaments
         (AppHandlers.handleSavePrinters Workshop.shop
            (PrinterManager.handleDelete
               (AppHandlers.printers Workshop.shop) "mk4" true)))
    = [ ("Angebrochen", None); ("Angebrochen", None);
        ("Originalverpackt", None) ]
  ∧ "mk4" ∉ map Device.id
              (AppHandlers.printers
                 (AppHandlers.handleSavePrinters Workshop.shop
                    (PrinterManager.handleDelete
                       (AppHandlers.printers Workshop.shop) "mk4" true))).
Proof.
  assert ("mk4" ∈ map Device.id (AppHandlers.printers Workshop.shop)) as Hin.
  { apply list_elem_of_In. simpl. auto. }
  split; [reflexivity|]. split; [exact Hin|]. split; [reflexivity|].
  exact (proj1 (delete_printer_unloads_spools Workshop.shop "mk4"
                  eq_refl Hin)).
Defined.

(** ** The overview: filters and derived lists *)

Section OverviewFacts.
Context `{Host}.

Import AppHandlers.

Implicit Types (s : AppState) (f : Spool.Filament) (p t : string).

Lemma startsWith_true (str p : string) :
  startsWith str p = true ↔ ∃ rest, str = p +:+ rest.
Proof.
  unfold startsWith. split.
  - destruct (strip_prefix p str) as [rest|] eqn:Hs; [|done].
    intros _. exists rest. by apply strip_prefix_Some.
  - intros [rest ->]. by rewrite strip_prefix_app.
Qed.

Lemma lower_upper_char (c : ascii) : lower_char (upper_char c) = lower_char c.
Proof. by destruct c as [[] [] [] [] [] [] [] []]. Qed.

Lemma toLowerCase_toUpperCase (str : string) :
  toLowerCase (toUpperCase str) = toLowerCase str.
Proof.
  induction str as [|c str IH]; simpl; [done|].
  by rewrite lower_upper_char, IH.
Qed.

Lemma filter_true_id {A} (P : A → Prop) `{∀ x, Decision (P x)} (l : list A) :
  (∀ x, x ∈ l → P x) → filter P l = l.
Proof.
  induction l as [|x l IH]; intros Hall; [done|].
  rewrite filter_cons_True by (apply Hall; left).
  f_equal. apply IH. intros y Hy. apply Hall. by right.
Qed.

(** X10. The location filter of the overview. With a location selected and
    no type or color filter set, the overview shows exactly the spools
    whose [locationPath] starts with the selected path, in the order of the
    inventory: the spools stored at the location, those stored below it,
    and also those at a location whose path only begins with the same
    characters. With "__UNSORTED__" selected it shows exactly the spools
    without a location, and with nothing selected it shows every spool. *)
Theorem location_filter_shows_prefix_matches s :
  typeFilter s = "" → colorFilter s = "" →
  (filteredFilaments s `sublist_of` filaments s)
  ∧ (locationFilter s = "" → filteredFilaments s = filaments s)
  ∧ (locationFilter s = "__UNSORTED__" →
     ∀ f, f ∈ filteredFilaments s
          ↔ f ∈ filaments s ∧ Spool.locationPath f = "")
  ∧ (locationFilter s ≠ "" → locationFilter s ≠ "__UNSORTED__" →
     ∀ f, f ∈ filteredFilaments s
          ↔ f ∈ filaments s
            ∧ ∃ rest, Spool.locationPath f = locationFilter s +:+ rest).
Proof.
  intros Hty Hcol. unfold filteredFilaments. rewrite Hty, Hcol.
  rewrite (filter_true_id (fun f => matchesColor "" f = true)) by done.
  rewrite (filter_true_id (fun f => matchesType "" f = true)) by done.
  split; [apply sublist_filter|]. split; [|split].
  - intros ->. by apply filter_true_id.
  - intros -> f. rewrite list_elem_of_filter. unfold matchesLocation.
    cbn [truthy negb]. rewrite String.eqb_refl, negb_true_iff.
    split.
    + intros [Hl Hf]. split; [done|]. by destruct (Spool.locationPath f).
    + intros [Hf Hl]. split; [|done]. by rewrite Hl.
  - intros Hne Hun f. rewrite list_elem_of_filter. unfold matchesLocation.
    destruct (locationFilter s) as [|c p] eqn:Hp; [done|].
    cbn [truthy negb].
    destruct (String.eqb_spec (String c p) "__UNSORTED__") as [|_]; [done|].
    rewrite andb_true_iff, startsWith_true.
    split; [by intros [[_ Hp'] Hf] | intros [Hf Hp']].
    split; [|done]. split; [|done]. by destruct Hp' as [rest ->].
Qed.

(** X11. The type and color filters ignore case: on ASCII texts, a filter
    text and its upper-case form select the same spools. *)
Theorem type_color_filters_ignore_case f t :
  ascii_only t = true →
  ascii_only (Spool.type f) = true →
  ascii_only (Spool.manufacturerColor f) = true →
  ascii_only (Spool.color f) = true →
  matchesType (toUpperCase t) f = matchesType t f
  ∧ matchesColor (toUpperCase t) f = matchesColor t f.
Proof.
  intros _ _ _ _.
  unfold matchesType, matchesColor. rewrite toLowerCase_toUpperCase.
  by destruct t.
Qed.

(** X12. The lists derived from the state. [allTypes] holds every type of
    the inventory that is not empty, once, in ascending order of the
    character codes; [allLocationPaths] holds the paths of the storage
    tree, as often as the tree has them, in that order. *)
Theorem derived_lists_sorted s :
  StronglySorted String.le (allTypes s)
  ∧ NoDup (allTypes s)
  ∧ (∀ t, t ∈ allTypes s ↔ t ≠ "" ∧ ∃ f, f ∈ filaments s ∧ Spool.type f = t)
  ∧ StronglySorted String.le (allLocationPaths s)
  ∧ allLocationPaths s ≡ₚ traverse (storageTree s).
Proof.
  unfold allTypes, allLocationPaths.
  split; [apply sort_sorted|]. split; [|split; [|split]].
  - rewrite sort_perm. apply unique_spec.
  - intros t. rewrite sort_perm, (proj2 (unique_spec _)).
    rewrite list_elem_of_filter, map_fmap, list_elem_of_fmap.
    split.
    + intros [Ht (f & -> & Hf)]. split; [|by exists f].
      by destruct (Spool.type f).
    + intros [Ht (f & Hf & <-)]. split; [|by exists f].
      by destruct (Spool.type f).
  - apply sort_sorted.
  - apply sort_perm.
Qed.

End OverviewFacts.

Lemma type_color_filters_ignore_case_witness :
  let f := Workshop.item "PLA-0001-001" "Angebrochen" "PLA" "Galaxy Black"
             "Shelf1 / BoxA" None in
  ascii_only "galaxy" = true
  ∧ AppHandlers.matchesColor "GALAXY" f = true
  ∧ AppHandlers.matchesColor "galaxy" f = true
  ∧ AppHandlers.matchesType "GALAXY" f = AppHandlers.matchesType "galaxy" f.
Proof.
  intros f. split; [reflexivity|].
  pose proof (type_color_filters_ignore_case f "galaxy"
                eq_refl eq_refl eq_refl eq_refl) as [Ht Hc].
  split; [reflexivity|]. split; [reflexivity|]. exact Ht.
Defined.

Lemma location_filter_shows_prefix_matches_witness :
  let s := AppHandlers.setLocationFilter "Shelf1 / BoxA" Workshop.shop in
  AppHandlers.typeFilter s = ""
  ∧ AppHandlers.colorFilter s = ""
  ∧ map Spool.id (AppHandlers.filteredFilaments s)
    = ["PLA-0001-001"; "PETG-0001-001"]
  ∧ (AppHandlers.filteredFilaments s `sublist_of` AppHandlers.filaments s).
Proof.
  intros s. split; [reflexivity|]. split; [reflexivity|].
  split; [reflexivity|].
  exact (proj1 (location_filter_shows_prefix_matches s eq_refl eq_refl)).
Defined.

(** ** The labels *)

Section LabelFacts.

Import Labels.

Implicit Types (s t : string) (c : ascii).

Lemma has_char_append cls s t :
  has_char cls (s +:+ t) = has_char cls s || has_char cls t.
Proof.
  induction s as [|c s IH]; simpl; [done|]. by rewrite IH, orb_assoc.
Qed.

Lemma fileNamePart_clean s : has_char is_reserved (fileNamePart s) = false.
Proof.
  unfold fileNamePart.
  induction s as [|c s IH]; simpl; [done|]. rewrite IH, orb_false_r.
  by destruct (is_reserved c) eqn:Hc.
Qed.

Lemma fileNamePart_length s : String.length (fileNamePart s) = String.length s.
Proof.
  unfold fileNamePart.
  induction s as [|c s IH]; simpl; [done | by rewrite IH].
Qed.

(** X13. The file name that the label view proposes for the SVG holds none
    of the characters slash, backslash, question mark, percent sign,
    asterisk, colon, bar, double quote, angle brackets and ampersand,
    whatever the type, the manufacturer and the manufacturer color of the
    spool are; each of them keeps its length. *)
Theorem svgFilename_has_no_reserved_character
    (type manufacturer manufacturerColor : string) :
  has_char is_reserved (svgFilename type manufacturer manufacturerColor)
  = false
  ∧ String.length (svgFilename type manufacturer manufacturerColor)
    = String.length type + String.length manufacturer
      + String.length manufacturerColor + 6.
Proof.
  unfold svgFilename. split.
  - rewrite !has_char_append, !fileNamePart_clean. reflexivity.
  - rewrite !length_append, !fileNamePart_length. simpl. lia.
Qed.

(** Decide the next comparison of [c] with a literal character. *)
Ltac case_char c :=
  match goal with
  | |- context [Ascii.eqb c ?x] =>
      destruct (Ascii.eqb_spec c x) as [->|?]
  end.

Lemma escape_char_markup c : has_char is_markup (escape_char c) = false.
Proof.
  unfold escape_char. repeat (case_char c; [reflexivity|]).
  simpl. rewrite orb_false_r. unfold is_markup. simpl.
  repeat (case_char c; [done|]). done.
Qed.

Lemma escape_char_inj_app c1 c2 r1 r2 :
  escape_char c1 +:+ r1 = escape_char c2 +:+ r2 → c1 = c2 ∧ r1 = r2.
Proof.
  unfold escape_char.
  repeat case_char c1; repeat case_char c2;
    simpl; intros Heq; simplify_eq; done.
Qed.

(** X14. The escaping of the label texts. The escaped text holds no angle
    bracket and no quote, so that it cannot end the element or the
    attribute it is written into, and escaping loses nothing: two texts
    with the same escaped form are equal. *)
Theorem escape_is_safe_and_injective :
  (∀ s, has_char is_markup (escape s) = false)
  ∧ (∀ s t, escape s = escape t → s = t).
Proof.
  split.
  - induction s as [|c s IH]; simpl; [done|].
    by rewrite has_char_append, escape_char_markup, IH.
  - induction s as [|c s IH]; intros [|c' t]; simpl; [done| | |].
    + intros Heq. exfalso. revert Heq. unfold escape_char.
      repeat (case_char c'; [done|]). done.
    + intros Heq. exfalso. revert Heq. unfold escape_char.
      repeat (case_char c; [done|]). done.
    + intros [-> Heq]%escape_char_inj_app. by rewrite (IH _ Heq).
Qed.

End LabelFacts.

(** ** The length formula *)

Section LengthFacts.

Import Length.

Context {F : Type}.
Context (is_truthy : F → bool) (le_zero : F → bool).
Context (zero pi two ten hundred : F).
Context (div mul : F → F → F) (square : F → F).
Context (DENSITIES : string → F).

(** X15. How [calculateLength] reads a material type written in ASCII.
    The type is matched without regard to case; a type in which none of the
    known material names occurs is computed with the density of PLA; and a
    type in which "pla" occurs is computed with the density of PLA,
    whatever other material names occur in it. This holds for every
    arithmetic of the host. *)
Theorem calculateLength_reads_type (filamentWeight diameter : F)
    (type : string) :
  ascii_only type = true →
  calculateLength is_truthy le_zero zero pi two ten hundred div mul square
    DENSITIES filamentWeight diameter (toUpperCase type)
  = calculateLength is_truthy le_zero zero pi two ten hundred div mul square
      DENSITIES filamentWeight diameter type
  ∧ (densityKey type = None →
     calculateLength is_truthy le_zero zero pi two ten hundred div mul square
       DENSITIES filamentWeight diameter type
     = calculateLength is_truthy le_zero zero pi two ten hundred div mul
         square DENSITIES filamentWeight diameter "pla")
  ∧ (str_includes (toLowerCase type) "pla" = true →
     calculateLength is_truthy le_zero zero pi two ten hundred div mul square
       DENSITIES filamentWeight diameter type
     = calculateLength is_truthy le_zero zero pi two ten hundred div mul
         square DENSITIES filamentWeight diameter "pla").
Proof.
  intros _.
  unfold calculateLength, densityKey. rewrite toLowerCase_toUpperCase.
  split; [done|]. split.
  - by intros ->.
  - intros Hpla. unfold density_keys. cbn [List.find]. by rewrite Hpla.
Qed.

End LengthFacts.

Lemma calculateLength_reads_type_witness :
  let length_of :=
    Length.calculateLength (fun x => negb (x =? 0)%Z) (fun x => (x <=? 0)%Z)
      0%Z 3%Z 2%Z 10%Z 100%Z Z.div Z.mul (fun x => (x * x)%Z)
      (fun k => if String.eqb k "pla" then 124%Z else 127%Z) 1000%Z 175%Z in
  ascii_only "Wood" = true
  ∧ ascii_only "PETG+PLA" = true
  ∧ Length.densityKey "Wood" = None
  ∧ str_includes (toLowerCase "PETG+PLA") "pla" = true
  ∧ length_of "Wood" = length_of "pla"
  ∧ length_of "PETG+PLA" = length_of "pla".
Proof.
  intros length_of. split; [reflexivity|]. split; [reflexivity|].
  split; [reflexivity|]. split; [reflexivity|]. split.
  - exact (proj1 (proj2 (calculateLength_reads_type _ _ _ _ _ _ _ _ _ _ _
                           1000%Z 175%Z "Wood" eq_refl)) eq_refl).
  - exact (proj2 (proj2 (calculateLength_reads_type _ _ _ _ _ _ _ _ _ _ _
                           1000%Z 175%Z "PETG+PLA" eq_refl)) eq_refl).
Defined.

(** ** The tree view *)

Section TreeViewFacts.

Import StorageTreeView.

Implicit Types (expanded : gset string) (p cur : string).
Implicit Types (parts : list string).

Lemma walk_truthy cur part parts :
  truthy cur = true →
  walk cur (part :: parts)
  = (cur +:+ " / " +:+ part) :: walk (cur +:+ " / " +:+ part) parts.
Proof. intros Hc. simpl. by rewrite Hc. Qed.

Lemma append_truthy cur t : truthy cur = true → truthy (cur +:+ t) = true.
Proof. by destruct cur. Qed.

Lemma append_assoc (a b c : string) : (a +:+ b) +:+ c = a +:+ b +:+ c.
Proof. induction a as [|x a IH]; simpl; [done | by rewrite IH]. Qed.

(** The prefixes walked through after [cur]: [cur] extended by the first
    [k + 1] parts. *)
Lemma walk_lookup cur parts (k : nat) :
  truthy cur = true → k < List.length parts →
  walk cur parts !! k = Some (cur +:+ " / " +:+ join " / " (take (S k) parts)).
Proof.
  revert cur k. induction parts as [|part parts IH]; intros cur k Hc Hk.
  { simpl in Hk. lia. }
  rewrite walk_truthy by done. destruct k as [|k].
  - by destruct parts.
  - cbn [lookup list_lookup]. simpl in Hk.
    rewrite IH by (try apply append_truthy; try done; lia).
    f_equal. rewrite !append_assoc. do 2 f_equal.
    change (take (S (S k)) (part :: parts)) with (part :: take (S k) parts).
    destruct parts as [|q parts]; [simpl in Hk; lia|]. reflexivity.
Qed.

Lemma walk_start parts (k : nat) part :
  truthy part = true → k < S (List.length parts) →
  walk "" (part :: parts) !! k = Some (join " / " (take (S k) (part :: parts))).
Proof.
  intros Hp Hk. cbn [walk truthy]. destruct k as [|k]; [by destruct parts|].
  cbn [lookup list_lookup]. rewrite walk_lookup by (done || lia).
  change (take (S (S k)) (part :: parts)) with (part :: take (S k) parts).
  destruct parts as [|q parts]; [simpl in Hk; lia|]. reflexivity.
Qed.

Lemma split_head_truthy sep p :
  truthy p = true → startsWith p sep = false →
  ∃ part parts, split sep p = part :: parts ∧ truthy part = true.
Proof.
  intros Hp Hs. destruct p as [|c p]; [done|]. unfold split. simpl.
  simpl in Hs. rewrite Hs.
  destruct (split_from sep 0 p) as [|w ws]; eauto.
Qed.

(** X16. Selecting a location opens the way to it in the tree view. For a
    selected path that is not empty and does not begin with the separator,
    the expanded set grows by the path itself and by every path made of
    its first segments, and nothing is removed from it. Toggling a node
    twice gives the expanded set back. *)
Theorem expandSelected_opens_ancestors expanded p :
  truthy p = true → startsWith p " / " = false →
  (expanded ⊆ expandSelected expanded p)
  ∧ p ∈ expandSelected expanded p
  ∧ (∀ k : nat, k < List.length (split " / " p) →
       join " / " (take (S k) (split " / " p)) ∈ expandSelected expanded p)
  ∧ ∀ q, toggleNode (toggleNode expanded q) q = expanded.
Proof.
  intros Hp Hs. unfold expandSelected. rewrite Hp.
  destruct (split_head_truthy " / " p Hp Hs) as (part & parts & Hsplit & Hpart).
  assert (∀ k : nat, k < List.length (split " / " p) →
            join " / " (take (S k) (split " / " p))
              ∈ expanded ∪ list_to_set (walk "" (split " / " p))) as Hall.
  { intros k Hk. apply elem_of_union_r, elem_of_list_to_set.
    rewrite Hsplit in Hk |- *. simpl in Hk.
    eapply list_elem_of_lookup_2. by apply walk_start. }
  split; [apply union_subseteq_l|]. split; [|split; [exact Hall|]].
  - assert (List.length (split " / " p) = S (List.length parts)) as Hlen
      by (by rewrite Hsplit).
    pose proof (Hall (List.length parts) ltac:(lia)) as Hlast.
    rewrite <- Hlen, firstn_all, join_split in Hlast by done. exact Hlast.
  - intros q. unfold toggleNode.
    destruct (bool_decide_reflect (q ∈ expanded)) as [Hq|Hq].
    + rewrite bool_decide_eq_false_2.
      2:{ rewrite elem_of_difference, elem_of_singleton. by intros [_ []]. }
      apply set_eq. intros x.
      rewrite elem_of_union, elem_of_difference, elem_of_singleton.
      split; [by intros [[Hx _]| ->]|]. intros Hx.
      destruct (decide (x = q)) as [->|Hne]; [by right | by left].
    + rewrite bool_decide_eq_true_2.
      2:{ rewrite elem_of_union, elem_of_singleton. by right. }
      apply set_eq. intros x.
      rewrite elem_of_difference, elem_of_union, elem_of_singleton.
      split; [by intros [[Hx| ->] Hne]|]. intros Hx.
      split; [by left|]. by intros ->.
Qed.

End TreeViewFacts.

Lemma expandSelected_opens_ancestors_witness :
  truthy "Shelf1 / BoxA / Bin1" = true
  ∧ startsWith "Shelf1 / BoxA / Bin1" " / " = false
  ∧ "Shelf1 / BoxA" ∈ StorageTreeView.expandSelected ∅ "Shelf1 / BoxA / Bin1".
Proof.
  split; [reflexivity|]. split; [reflexivity|].
  exact (proj1 (proj2 (proj2
           (expandSelected_opens_ancestors ∅ "Shelf1 / BoxA / Bin1"
              eq_refl eq_refl))) 1 ltac:(vm_compute; lia)).
Defined.

(** ** The printers offered by the form *)

Section FormFacts.
Context `{Host}.

Implicit Types (fs : list Spool.Filament) (ps : list Device.Printer).

(** X17. The available printers, and what the select offers. A printer of
    the list is in [availablePrinters] exactly when no spool other than the
    one being edited is loaded on it, and the available printers keep the
    order of the list. The select offers every available printer, and
    besides them only a printer of the list that the data being edited
    already name: an offered printer that those data do not name is the
    printer of no other spool. *)
Theorem availablePrinters_are_free fs ps
    (initialId initialPrinter : option string) :
  (FilamentForm.availablePrinters fs ps initialId `sublist_of` ps)
  ∧ (∀ q, q ∈ FilamentForm.availablePrinters fs ps initialId
          ↔ q ∈ ps
            ∧ ∀ g, g ∈ fs → Some (Spool.id g) ≠ initialId →
                   Spool.assignedPrinterId g = Some (Device.id q) →
                   truthy (Device.id q) = false)
  ∧ (∀ q, q ∈ FilamentForm.availablePrinters fs ps initialId →
          q ∈ FilamentForm.printerOptions fs ps initialId initialPrinter)
  ∧ (∀ q, q ∈ FilamentForm.printerOptions fs ps initialId initialPrinter →
          q ∈ ps
          ∧ (q ∈ FilamentForm.availablePrinters fs ps initialId
             ∨ (initialPrinter = Some (Device.id q)
                ∧ q ∉ FilamentForm.availablePrinters fs ps initialId))).
Proof.
  assert (∀ q, q ∈ FilamentForm.availablePrinters fs ps initialId
               ↔ q ∈ ps
                 ∧ ∀ g, g ∈ fs → Some (Spool.id g) ≠ initialId →
                        Spool.assignedPrinterId g = Some (Device.id q) →
                        truthy (Device.id q) = false) as Havail;
    [|split; [apply sublist_filter | split; [exact Havail | split]]].
  2: { intros q Hq. unfold FilamentForm.printerOptions.
       apply elem_of_app. by right. }
  2: { intros q. unfold FilamentForm.printerOptions.
       intros [Hcur | Hq]%elem_of_app.
       - destruct initialPrinter as [pid|]; [|by apply elem_of_nil in Hcur].
         destruct (truthy pid); simpl in Hcur; [|by apply elem_of_nil in Hcur].
         destruct (existsb _ _) eqn:Hex; simpl in Hcur;
           [by apply elem_of_nil in Hcur|].
         destruct (List.find _ ps) as [cur|] eqn:Hfind; simpl in Hcur;
           [|by apply elem_of_nil in Hcur].
         apply list_elem_of_singleton in Hcur as ->.
         apply find_some in Hfind as [Hin Heq%String.eqb_eq].
         split; [by apply list_elem_of_In|]. right.
         split; [by rewrite Heq|].
         intros Hav. rewrite <- not_true_iff_false in Hex. apply Hex.
         apply existsb_exists. exists cur.
         split; [by apply list_elem_of_In | by apply String.eqb_eq].
       - split; [by apply (proj1 (Havail q)) | by left]. }
  unfold FilamentForm.availablePrinters.
  intros q. rewrite list_elem_of_filter, includes_false, usedPrinterIds_elem.
  split.
  - intros [Hfree Hq]. split; [done|]. intros g Hg Hne Hp.
    destruct (truthy (Device.id q)) eqn:Ht; [|done].
    destruct Hfree. by exists g.
  - intros [Hq Hfree]. split; [|done]. intros (g & Hg & Hne & Hp & Ht).
    specialize (Hfree g Hg Hne Hp). congruence.
Qed.

End FormFacts.

(** ** More on the identity allocator *)

Section AllocatorMore.

Implicit Types (t col T : string) (c : Counters).

#[local] Arguments generateNewIdAndUpdateCounters : simpl never.

Lemma split_dash_no_dash (a : string) : no_dash a = true → split_dash a = [a].
Proof.
  induction a as [|x a IH]; simpl; [done|].
  intros [Hx Ha]%andb_true_iff. apply negb_true_iff in Hx. rewrite Hx.
  by rewrite (IH Ha).
Qed.

Lemma split_dash_app (a b : string) :
  no_dash a = true → split_dash (a +:+ String "-" b) = a :: split_dash b.
Proof.
  induction a as [|x a IH]; simpl; [done|].
  intros [Hx Ha]%andb_true_iff. apply negb_true_iff in Hx. rewrite Hx.
  by rewrite (IH Ha).
Qed.

Lemma parse_digits_uint (d : uint) (acc : nat) :
  parse_digits 10 (Some acc) (NilEmpty.string_of_uint d)
  = Some (Nat.of_uint_acc d acc).
Proof.
  revert acc. induction d; intros acc; simpl; [done|..];
    rewrite IHd; f_equal; f_equal; rewrite Nat.tail_mul_spec; lia.
Qed.

Lemma parse_digits_zeros (k : nat) (s : string) :
  parse_digits 10 (Some 0) (zeros k +:+ s) = parse_digits 10 (Some 0) s.
Proof. induction k as [|k IH]; simpl; [done | exact IH]. Qed.

Lemma parse_digits_padded (k : nat) (d : uint) :
  d ≠ Nil →
  parse_digits 10 None (zeros k +:+ NilEmpty.string_of_uint d)
  = Some (Nat.of_uint d).
Proof.
  intros Hd. destruct k as [|k].
  - destruct d; [done|..]; simpl; rewrite parse_digits_uint; reflexivity.
  - simpl. rewrite parse_digits_zeros. apply parse_digits_uint.
Qed.

(** The characters that follow a sign or a radix prefix in [parseInt] are
    no digits: a string that starts with a digit other than a "0" before
    an "x" is read in radix 10 from its first character. *)
Lemma parseInt_padded (w n : nat) : parseInt (padStart w (dec n)) = JNum n.
Proof.
  unfold padStart, dec, num_toString.
  set (k := w - _). clearbody k.
  pose proof (to_uint_nonnil n) as Hd.
  assert (parseInt (zeros k +:+ NilEmpty.string_of_uint (Nat.to_uint n))
          = match parse_digits 10 None
                    (zeros k +:+ NilEmpty.string_of_uint (Nat.to_uint n)) with
            | Some m => JNum m
            | None => JNaN
            end) as ->.
  { unfold parseInt. destruct k as [|k].
    - simpl. destruct (Nat.to_uint n) as [|d|d|d|d|d|d|d|d|d|d]; try done.
      destruct d; reflexivity.
    - simpl. destruct k as [|k]; simpl.
      + destruct (Nat.to_uint n) as [|d|d|d|d|d|d|d|d|d|d]; done.
      + reflexivity. }
  rewrite parse_digits_padded by done.
  by rewrite DecimalNat.Unsigned.of_to.
Qed.

Lemma padStart_length (w : nat) (str : string) :
  w ≤ String.length (padStart w str).
Proof.
  unfold padStart. rewrite length_append.
  assert (String.length (zeros (w - String.length str))
          = w - String.length str) as ->; [|lia].
  induction (w - String.length str) as [|k IH]; simpl; [done|by rewrite IH].
Qed.

(** X18. An id can be read back. With spool counters whose next increment
    is exact, the id that the allocator returns is the type code, the spool
    number and the color code joined by dashes; the spool number is written
    with at least four digits, and [parseInt] reads it back as the number
    the counter of the type stood at. When the color code holds no dash,
    splitting the id at the dashes gives exactly these three parts. *)
Theorem issued_id_reads_back t col c :
  exact_counting 1 c →
  let r := generateNewIdAndUpdateCounters t col c in
  let n := nextSpool (typeCode t) c in
  ∃ code,
    newId r = compose_id (typeCode t) (padStart 4 (dec n)) code
    ∧ truthy code = true
    ∧ 4 ≤ String.length (padStart 4 (dec n))
    ∧ parseInt (padStart 4 (dec n)) = JNum n
    ∧ (no_dash code = true →
       split_dash (newId r) = [typeCode t; padStart 4 (dec n); code]).
Proof.
  intros _ r n. subst r n.
  destruct (generate_spec t col c) as (code & Hid & _ & _ & Htr).
  exists code. split; [done|]. split; [done|].
  split; [apply padStart_length|]. split; [apply parseInt_padded|].
  intros Hcode. rewrite Hid.
  change (compose_id ?a ?b ?d) with (a +:+ String "-" (b +:+ String "-" d)).
  rewrite (split_dash_app _ _ (typeCode_no_dash t)).
  rewrite (split_dash_app _ _ (padStart_dec_no_dash 4 _)).
  by rewrite split_dash_no_dash.
Qed.

(** X19. Counters that lack [nextColorNum]. When the counters have a color
    map but no [nextColorNum], a color that is not in the map, and is no
    name that the map inherits, gets the code "NaN", and [NaN] is stored as
    the next color number. Read again, this is [null]: the next such color
    gets the code "000", and from then on the codes count up from 1. *)
Theorem missing_nextColorNum_gives_NaN t col c (cm : gmap string string) :
  colorMap c = Some cm → nextColorNum c = None →
  truthy_prop (cm !! colorKey col) = false →
  inherited (colorKey col) = false →
  let r := generateNewIdAndUpdateCounters t col c in
  (∃ spoolNum, newId r = compose_id (typeCode t) spoolNum "NaN")
  ∧ colorMap (updatedCounters r) = Some (<[colorKey col := "NaN"]> cm)
  ∧ nextColorNum (updatedCounters r) = Some JNaN
  ∧ ∀ t2 col2,
      colorKey col2 ≠ colorKey col →
      truthy_prop (cm !! colorKey col2) = false →
      inherited (colorKey col2) = false →
      let r2 := generateNewIdAndUpdateCounters t2 col2 (updatedCounters r) in
      (∃ spoolNum, newId r2 = compose_id (typeCode t2) spoolNum "000")
      ∧ nextColorNum (updatedCounters r2) = Some (JNum 1).
Proof.
  intros Hcm Hnext Hnew _ r.
  assert (∀ t' col' c' (m : gmap string string) x code,
            colorMap c' = Some m → nextColorNum c' = x →
            truthy_prop (m !! colorKey col') = false →
            code = padStart 3 (num_toString (toNumber (json_num <$> x))) →
            let r' := generateNewIdAndUpdateCounters t' col' c' in
            (∃ spoolNum, newId r' = compose_id (typeCode t') spoolNum code)
            ∧ colorMap (updatedCounters r') = Some (<[colorKey col' := code]> m)
            ∧ nextColorNum (updatedCounters r')
              = Some (succ (toNumber (json_num <$> x)))) as Hgen.
  { clear. intros t col c m x code Hcm Hnext Hnew -> r.
    subst r. unfold generateNewIdAndUpdateCounters, newId, updatedCounters.
    cbn [fst snd].
    set (T := typeCode t).
    set (c3 := ensure_typeCounter T (ensure_typeCounters
                 (ensure_colorMap (json_copy c)))).
    assert (colorMap c3 = Some m ∧ nextColorNum c3 = json_num <$> x)
      as [Hc3 Hn3].
    { unfold c3.
      rewrite (proj1 (colorMap_ensure_typeCounter _ _)),
        (proj1 (colorMap_ensure_typeCounters _)),
        (proj2 (colorMap_ensure_typeCounter _ _)),
        (proj2 (colorMap_ensure_typeCounters _)).
      unfold ensure_colorMap, json_copy. cbn [colorMap nextColorNum].
      rewrite Hcm. cbn [colorMap nextColorNum]. by rewrite Hnext. }
    assert (assign_colorCode (colorKey col) c3
            = {| colorMap :=
                   Some (<[colorKey col := padStart 3
                                    (num_toString
                                       (toNumber (json_num <$> x)))]> m);
                 nextColorNum := Some (succ (toNumber (json_num <$> x)));
                 typeCounters := typeCounters c3;
                 version := version c3 |}) as Hassign.
    { unfold assign_colorCode. rewrite Hc3, Hn3, !default_Some.
      rewrite Hnew. reflexivity. }
    rewrite Hassign. unfold take_spoolNum, read_colorCode, post_incr.
    cbn [fst snd colorMap nextColorNum typeCounters version].
    rewrite !default_Some, lookup_insert_eq, default_Some.
    split; [by eexists|]. done. }
  destruct (Hgen t col c cm None _ Hcm Hnext Hnew eq_refl)
    as (Hid & Hmap & Hnum).
  fold r in Hid, Hmap, Hnum.
  split; [exact Hid|]. split; [exact Hmap|]. split; [exact Hnum|].
  intros t2 col2 Hne Hnew2 _ r2.
  assert (truthy_prop (<[colorKey col := "NaN"]> cm !! colorKey col2) = false)
    as Hnew2' by (by rewrite lookup_insert_ne).
  destruct (Hgen t2 col2 (updatedCounters r) _ (Some JNaN) _ Hmap Hnum Hnew2'
              eq_refl) as (Hid2 & _ & Hnum2).
  split; [exact Hid2 | exact Hnum2].
Qed.

End AllocatorMore.

Lemma missing_nextColorNum_gives_NaN_witness :
  let c := {| colorMap := Some {[ "Galaxy Black" := "001" ]};
              nextColorNum := None; typeCounters := None;
              version := None |} in
  truthy_prop (({[ "Galaxy Black" := "001" ]} : gmap string string)
                 !! colorKey "Arctic White") = false
  ∧ inherited (colorKey "Arctic White") = false
  ∧ newId (generateNewIdAndUpdateCounters "PLA" "Arctic White" c)
    = "PLA-0001-NaN"
  ∧ nextColorNum
      (updatedCounters (generateNewIdAndUpdateCounters "PLA" "Arctic White" c))
    = Some JNaN.
Proof.
  intros c. split; [reflexivity|]. split; [reflexivity|].
  split; [by vm_compute|].
  exact (proj1 (proj2 (proj2
           (missing_nextColorNum_gives_NaN "PLA" "Arctic White" c
              {[ "Galaxy Black" := "001" ]} eq_refl eq_refl eq_refl
              eq_refl)))).
Defined.


Lemma issued_id_reads_back_witness :
  exact_counting 1 Workshop.shopCounters
  ∧ ∃ code,
      no_dash code = true
      ∧ split_dash
          (newId (generateNewIdAndUpdateCounters "PLA" "Signal Red"
                    Workshop.shopCounters))
        = ["PLA"; "0003"; code].
Proof.
  assert (exact_counting 1 Workshop.shopCounters) as Hex.
  { split; [reflexivity|]. apply (bool_decide_unpack _). by vm_compute. }
  split; [exact Hex|].
  destruct (issued_id_reads_back "PLA" "Signal Red" Workshop.shopCounters Hex)
    as (code & Hid & _ & _ & _ & Hsplit).
  vm_compute in Hid. injection Hid as <-.
  exists "003". split; [reflexivity|]. exact (Hsplit eq_refl).
Defined.

(** ** More on the schema migration *)

Section MigratorMore.
Context `{Host}.

Implicit Types (f : Filament) (fs : list Filament) (c : Counters).
Implicit Types (data : Bundle) (k : nat).

#[local] Arguments generateNewIdAndUpdateCounters : simpl never.

Lemma migratePrinters_complete k (ps : list Printer) :
  List.length (migratePrinters k ps) = List.length ps
  ∧ Forall (fun p => truthy_prop (printer_id p) = true
                     ∧ ∃ x, filamentDiameter p = Val x)
      (migratePrinters k ps).
Proof.
  revert k. induction ps as [|q ps IH]; intros k; simpl.
  { split; [done | constructor]. }
  destruct (truthy_prop (printer_id q)) eqn:E; simpl;
    [destruct (IH k) as [Hlen Hall] | destruct (IH (S k)) as [Hlen Hall]];
    (split; [by rewrite Hlen|]); constructor; try done; simpl;
    (split; [by rewrite ?randomUUID_truthy|]);
    destruct (filamentDiameter q); eauto.
Qed.

(** What the allocator returns holds every property that
    [Object.assign] could take from the target. *)
Lemma object_assign_updated t col c :
  object_assign c (updatedCounters (generateNewIdAndUpdateCounters t col c))
  = updatedCounters (generateNewIdAndUpdateCounters t col c).
Proof.
  unfold generateNewIdAndUpdateCounters, updatedCounters. cbn [snd].
  set (c3 := ensure_typeCounter _ (ensure_typeCounters
               (ensure_colorMap (json_copy c)))).
  assert (is_Some (colorMap c3)
          ∧ (nextColorNum c3 = None → nextColorNum c = None)
          ∧ version c3 = json_num <$> version c) as (Hcm & Hn & Hv).
  { unfold c3.
    rewrite (proj1 (colorMap_ensure_typeCounter _ _)),
      (proj1 (colorMap_ensure_typeCounters _)),
      (proj2 (colorMap_ensure_typeCounter _ _)),
      (proj2 (colorMap_ensure_typeCounters _)).
    assert (∀ T c', version (ensure_typeCounter T c') = version c') as ->.
    { intros T c'. unfold ensure_typeCounter. by destruct (_ !! T). }
    assert (∀ c', version (ensure_typeCounters c') = version c') as ->.
    { intros c'. unfold ensure_typeCounters. by destruct (typeCounters c'). }
    unfold ensure_colorMap, json_copy. cbn [colorMap nextColorNum version].
    destruct (colorMap c); cbn [colorMap nextColorNum version];
      (split; [by eauto|]); (split; [|done]); [|done].
    by destruct (nextColorNum c). }
  unfold take_spoolNum, post_incr, object_assign.
  cbn [snd colorMap nextColorNum typeCounters version].
  unfold assign_colorCode.
  destruct (truthy_prop _); cbn [colorMap nextColorNum typeCounters version].
  - destruct Hcm as [m ->]. rewrite Hv.
    destruct (nextColorNum c3) eqn:En.
    + f_equal. by destruct (version c).
    + rewrite (Hn eq_refl). f_equal. by destruct (version c).
  - rewrite Hv. f_equal. by destruct (version c).
Qed.

Lemma regenerateIds_spec fs c :
  map Inventory.id (regenerateIds fs c).1
  = (allocate_all
       (map (fun f => (Inventory.type f, Inventory.manufacturerColor f)) fs)
       c).1
  ∧ map (fun f => with_id f "") (regenerateIds fs c).1
    = map (fun f => with_id f "") fs.
Proof.
  revert c. induction fs as [|f fs IH]; intros c; [done|].
  cbn [regenerateIds map]. rewrite object_assign_updated.
  rewrite allocate_all_cons. cbn [fst].
  specialize (IH (updatedCounters
    (generateNewIdAndUpdateCounters (Inventory.type f)
       (Inventory.manufacturerColor f) c))) as [IH1 IH2].
  destruct (regenerateIds fs _) as [rest' c']. cbn [fst map] in *.
  by rewrite IH1, IH2.
Qed.

Lemma regenerateIds_length fs c :
  List.length (regenerateIds fs c).1 = List.length fs.
Proof.
  pose proof (proj2 (regenerateIds_spec fs c)) as Heq.
  apply (f_equal (@List.length _)) in Heq. by rewrite !length_map in Heq.
Qed.

(** X20. What every migrated bundle looks like. Whatever the document
    holds, the result of [migrateData] carries version 3, has the storage
    tree of the document, as many spools and printers as the document,
    every spool with a [locationPath] and a [spoolLength], and every
    printer with an id and a filament diameter. A document that carries
    version 3 or later and has no legacy records keeps its spools and its
    counters as they are. *)
Theorem migrateData_result_shape k data :
  let m := migrateData k data in
  let rawFilaments := default [] (filaments data) in
  version (m_idCounters m) = Some (JNum 3)
  ∧ m_storageTree m = default [] (storageTree data)
  ∧ List.length (m_filaments m) = List.length rawFilaments
  ∧ List.length (m_printers m) = List.length (default [] (printers data))
  ∧ forallb is_current (m_filaments m) = true
  ∧ Forall (fun p => truthy_prop (printer_id p) = true
                     ∧ ∃ x, filamentDiameter p = Val x) (m_printers m)
  ∧ (3 ≤ dataVersion data → forallb is_current rawFilaments = true →
     m_filaments m = rawFilaments
     ∧ m_idCounters m = stamp (default empty_counters (idCounters data))).
Proof.
  intros m rawFilaments.
  split; [done|]. split; [done|]. split; [|split; [|split; [|split]]].
  - subst m. unfold migrateData. cbn [m_filaments].
    fold rawFilaments.
    set (legacy := if needsLegacyMigration _ then _ else _).
    assert (List.length legacy = List.length rawFilaments) as Hlen.
    { unfold legacy. destruct (needsLegacyMigration _); [|done].
      apply length_map. }
    destruct (chooseBranch data legacy); cbn [fst]; [|done..].
    rewrite regenerateIds_length, <- Hlen.
    apply Permutation_length, sortFilaments_perm.
  - apply migratePrinters_complete.
  - apply migrated_current.
  - apply migratePrinters_complete.
  - intros Hv Hcur. subst m. unfold migrateData.
    fold rawFilaments. rewrite (needsLegacyMigration_false _ Hcur).
    assert (chooseBranch data rawFilaments = KeepCounters) as ->; [|done].
    pose proof (backfill_unreachable data rawFilaments) as Hb.
    unfold chooseBranch in *.
    destruct (Nat.ltb_spec (dataVersion data) 3); [lia|].
    cbn [andb] in *. by destruct (_ && _).
Qed.

(** X21. Renumbering a bundle older than version 3. The spools of the
    result have pairwise distinct ids, and they are the spools of the
    document after the legacy migration, each with a new id and in the order
    of the sort: no spool is lost and none is added. *)
Theorem migrateData_renumbers_distinctly k data :
  dataVersion data < 3 →
  let m := migrateData k data in
  let rawFilaments := default [] (filaments data) in
  let legacy :=
    if needsLegacyMigration rawFilaments
    then map migrateLegacy rawFilaments else rawFilaments in
  NoDup (map Inventory.id (m_filaments m))
  ∧ map (fun f => with_id f "") (m_filaments m)
    ≡ₚ map (fun f => with_id f "") legacy.
Proof.
  intros Hv m rawFilaments legacy. subst m. unfold migrateData.
  cbn [m_filaments]. fold rawFilaments. fold legacy.
  unfold chooseBranch.
  destruct (Nat.ltb_spec (dataVersion data) 3) as [_|]; [|lia].
  cbn [andb].
  destruct (Nat.ltb_spec 0 (List.length legacy)) as [Hne|Hempty].
  - cbn [fst].
    destruct (regenerateIds_spec (sortFilaments legacy) fresh_counters)
      as [Hids Hrest].
    split.
    + rewrite Hids. apply allocate_all_NoDup.
    + rewrite Hrest. apply Permutation_map, sortFilaments_perm.
  - destruct legacy as [|f legacy]; [|simpl in Hempty; lia].
    assert ((if no_keys (default empty_counters (idCounters data)) && false
             then BackfillCounters else KeepCounters) = KeepCounters) as ->.
    { by rewrite andb_false_r. }
    cbn [fst]. split; [constructor | done].
Qed.

End MigratorMore.

Lemma migrateData_renumbers_distinctly_witness :
  dataVersion bundleE < 3
  ∧ NoDup (map Inventory.id (m_filaments (migrateData 0 bundleE))).
Proof.
  assert (dataVersion bundleE < 3) as Hv by (vm_compute; lia).
  split; [exact Hv|].
  exact (proj1 (migrateData_renumbers_distinctly 0 bundleE Hv)).
Defined.


Lemma migrateData_result_shape_witness :
  let data :=
    {| filaments := filaments bundleE; storageTree := None;
       idCounters := Some Workshop.shopCounters; printers := None |} in
  3 ≤ dataVersion data
  ∧ forallb is_current (default [] (filaments data)) = true
  ∧ m_filaments (migrateData 0 data) = default [] (filaments data)
  ∧ m_idCounters (migrateData 0 data) = stamp Workshop.shopCounters.
Proof.
  intros data.
  assert (3 ≤ dataVersion data) as Hv by (vm_compute; lia).
  split; [exact Hv|]. split; [reflexivity|].
  exact (proj2 (proj2 (proj2 (proj2 (proj2 (proj2
           (migrateData_result_shape 0 data)))))) Hv eq_refl).
Defined.

(** ** More on the storage tree *)

Section TreeMore.

Implicit Types (n node : StorageNode) (nodes tree : list StorageNode).
Implicit Types (p q nm : string).

#[local] Arguments traverse_node : simpl never.
#[local] Arguments findAndAdd_node : simpl never.
#[local] Arguments findAndDelete_node : simpl never.
#[local] Arguments updateChildPaths_node : simpl never.
#[local] Arguments findAndRename_node : simpl never.

Lemma path_in_traverse_node n : path n ∈ traverse_node n.
Proof. destruct n as [nm pth ch]. rewrite traverse_node_eq. by left. Qed.

Lemma findAndDelete_app nodes1 nodes2 q :
  findAndDelete (nodes1 ++ nodes2) q
  = findAndDelete nodes1 q ++ findAndDelete nodes2 q.
Proof.
  induction nodes1 as [|n nodes1 IH]; simpl; [done|].
  destruct (String.eqb (path n) q); by rewrite IH.
Qed.

Lemma findAndDelete_absent_both q :
  (∀ n, q ∉ traverse_node n → findAndDelete_node q n = n)
  ∧ (∀ nodes, q ∉ traverse nodes → findAndDelete nodes q = nodes).
Proof.
  set (P := fun n => q ∉ traverse_node n → findAndDelete_node q n = n).
  set (Q := fun l => q ∉ traverse l → findAndDelete l q = l).
  assert (∀ nm pth ch, Q ch → P (mkNode nm pth ch)) as Hnode.
  { intros nm pth ch IH Hq. rewrite findAndDelete_node_eq.
    rewrite traverse_node_eq in Hq. apply not_elem_of_cons in Hq as [_ Hq].
    by rewrite IH. }
  assert (Q []) as Hnil by done.
  assert (∀ n rest, P n → Q rest → Q (n :: rest)) as Hcons.
  { intros n rest IHn IHrest Hq. simpl in Hq |- *.
    apply not_elem_of_app in Hq as [Hn Hrest].
    destruct (String.eqb_spec (path n) q) as [<-|_].
    { destruct Hn. apply path_in_traverse_node. }
    by rewrite IHn, IHrest. }
  split; [exact (node_ind2 P Q Hnode Hnil Hcons)
         | exact (forest_ind2 P Q Hnode Hnil Hcons)].
Qed.

Lemma findAndDelete_absent nodes q :
  q ∉ traverse nodes → findAndDelete nodes q = nodes.
Proof. apply findAndDelete_absent_both. Qed.

Lemma findAndAdd_node_path newNode p n :
  path (findAndAdd_node newNode p n).1 = path n.
Proof.
  destruct n as [nm pth ch]. rewrite findAndAdd_node_eq.
  destruct (String.eqb pth p); [done|]. by destruct (findAndAdd newNode p ch).
Qed.

Lemma findAndAdd_then_delete newNode p nodes :
  path newNode ∉ traverse nodes →
  findAndDelete (findAndAdd newNode p nodes).1 (path newNode) = nodes.
Proof.
  set (q := path newNode). revert nodes.
  refine (forest_ind2
            (fun n => q ∉ traverse_node n →
                      findAndDelete_node q (findAndAdd_node newNode p n).1 = n)
            (fun l => q ∉ traverse l →
                      findAndDelete (findAndAdd newNode p l).1 q = l) _ _ _).
  - intros nm pth ch IH Hq. rewrite findAndAdd_node_eq.
    rewrite traverse_node_eq in Hq. apply not_elem_of_cons in Hq as [_ Hq].
    destruct (String.eqb pth p).
    + cbn [fst]. rewrite findAndDelete_node_eq, findAndDelete_app.
      rewrite (findAndDelete_absent _ _ Hq). simpl.
      fold q. rewrite String.eqb_refl. by rewrite app_nil_r.
    + specialize (IH Hq). destruct (findAndAdd newNode p ch) as [ch' found].
      cbn [fst] in *. by rewrite findAndDelete_node_eq, IH.
  - done.
  - intros n rest IHn IHrest Hq. simpl in Hq.
    apply not_elem_of_app in Hq as [Hn Hrest].
    specialize (IHn Hn). specialize (IHrest Hrest).
    assert (String.eqb (path n) q = false) as Hpn.
    { apply String.eqb_neq. intros Heq. destruct Hn. rewrite <- Heq.
      apply path_in_traverse_node. }
    cbn [findAndAdd].
    pose proof (findAndAdd_node_path newNode p n) as Hpath.
    destruct (findAndAdd_node newNode p n) as [n' found]. cbn [fst] in *.
    destruct found.
    + cbn [fst findAndDelete]. rewrite Hpath, Hpn, IHn.
      by rewrite (findAndDelete_absent _ _ Hrest).
    + destruct (findAndAdd newNode p rest) as [rest' found'].
      cbn [fst findAndDelete] in *. rewrite Hpn, IHrest.
      by rewrite (proj1 (findAndDelete_absent_both q) _ Hn).
Qed.

Lemma findAndRename_absent_both newName p :
  (∀ n, p ∉ traverse_node n →
        findAndRename_node newName p n = Some (n, false))
  ∧ (∀ nodes, p ∉ traverse nodes →
              findAndRename newName nodes p = Some (nodes, false)).
Proof.
  set (P := fun n => p ∉ traverse_node n →
                     findAndRename_node newName p n = Some (n, false)).
  set (Q := fun l => p ∉ traverse l →
                     findAndRename newName l p = Some (l, false)).
  assert (∀ nm pth ch, Q ch → P (mkNode nm pth ch)) as Hnode.
  { intros nm pth ch IH Hp. rewrite findAndRename_node_eq.
    rewrite traverse_node_eq in Hp. apply not_elem_of_cons in Hp as [Hne Hp].
    destruct (String.eqb_spec pth p) as [->|_]; [done|].
    by rewrite (IH Hp). }
  assert (Q []) as Hnil by done.
  assert (∀ n rest, P n → Q rest → Q (n :: rest)) as Hcons.
  { intros n rest IHn IHrest Hp. simpl in Hp.
    apply not_elem_of_app in Hp as [Hn Hrest].
    cbn [findAndRename]. rewrite (IHn Hn). simpl. by rewrite (IHrest Hrest). }
  split; [exact (node_ind2 P Q Hnode Hnil Hcons)
         | exact (forest_ind2 P Q Hnode Hnil Hcons)].
Qed.

(** X22. Deleting and renaming a path that the tree does not have. Both
    handlers leave the tree as it is, whatever the user answers; the
    rename does not even read the path as a pattern. Deleting the same
    path a second time changes nothing either. *)
Theorem edit_of_absent_path_changes_nothing tree p :
  p ∉ traverse tree →
  (∀ confirmed, handleDelete tree p confirmed = tree)
  ∧ (∀ oldName answer, handleRename tree p oldName answer = Some tree)
  ∧ ∀ q, handleDelete (handleDelete tree q true) q true
         = handleDelete tree q true.
Proof.
  intros Hp. split; [|split].
  - intros []; [|done]. by apply findAndDelete_absent.
  - intros oldName [newName|]; [|done]. unfold handleRename.
    destruct (_ || _); [done|].
    by rewrite (proj2 (findAndRename_absent_both newName p) _ Hp).
  - intros q. unfold handleDelete. apply findAndDelete_absent.
    apply findAndDelete_spec.
Qed.

(** X23. Adding a location and deleting it again gives the tree back,
    provided the path of the new location is not yet a path of the tree.
    This holds under every parent, also one that the tree does not have,
    and whatever name the user typed. *)
Theorem add_then_delete_restores_tree tree p (answer : option string) :
  joinPath p (default "" answer) ∉ traverse tree →
  handleDelete (handleAdd tree p answer) (joinPath p (default "" answer)) true
  = tree.
Proof.
  intros Hq. unfold handleDelete, handleAdd.
  destruct answer as [nm|]; cbn [default from_option] in *;
    [|by apply findAndDelete_absent].
  destruct (truthy nm); cbn [negb]; [|by apply findAndDelete_absent].
  destruct (String.eqb p "").
  - rewrite findAndDelete_app, (findAndDelete_absent _ _ Hq). simpl.
    rewrite String.eqb_refl. by rewrite app_nil_r.
  - exact (findAndAdd_then_delete (mkNode nm (joinPath p nm) []) p tree Hq).
Qed.

Lemma traverse_findAndAdd_incl newNode p nodes q :
  q ∈ traverse nodes → q ∈ traverse (findAndAdd newNode p nodes).1.
Proof.
  intros Hq. destruct (findAndAdd_spec newNode p nodes) as (_ & Hfound & Hnot).
  destruct (findAndAdd newNode p nodes).2 eqn:E.
  - rewrite (Hfound eq_refl). apply elem_of_app. by right.
  - by rewrite (Hnot eq_refl).
Qed.

End TreeMore.

Section TreeCommitMore.
Context `{Host}.

Implicit Types (st : State) (p : string).

Lemma commit_superset_keeps_spools st (newTree : list StorageNode) :
  (∀ q, q ∈ traverse (st_storageTree st) → q ∈ traverse newTree) →
  handleSaveStorageTree st newTree
  = {| st_filaments := st_filaments st; st_storageTree := newTree |}.
Proof.
  intros Hsub. unfold handleSaveStorageTree.
  assert (deletedPaths (st_storageTree st) newTree = []) as ->; [|done].
  unfold deletedPaths.
  induction (traverse (st_storageTree st)) as [|q l IH]; [done|].
  rewrite filter_cons_False.
  - apply IH. intros q' Hq'. apply Hsub. by right.
  - rewrite includes_false. intros Hq. apply Hq, Hsub. by left.
Qed.

(** X24. Committing a tree to which locations were only added clears no
    spool: after [handleAdd], with whatever parent and answer, and
    [handleSaveStorageTree], every spool has the location it had, and the
    state holds the new tree. *)
Theorem add_commit_keeps_spools st p (answer : option string) :
  handleSaveStorageTree st (handleAdd (st_storageTree st) p answer)
  = {| st_filaments := st_filaments st;
       st_storageTree := handleAdd (st_storageTree st) p answer |}.
Proof.
  apply commit_superset_keeps_spools. intros q Hq. unfold handleAdd.
  destruct answer as [nm|]; [|done].
  destruct (truthy nm); cbn [negb]; [|done].
  destruct (String.eqb p "").
  - rewrite traverse_app. apply elem_of_app. by left.
  - by apply traverse_findAndAdd_incl.
Qed.

End TreeCommitMore.

Lemma edit_of_absent_path_changes_nothing_witness :
  ("Shelf9" ∉ traverse scenarioTree)
  ∧ handleRename scenarioTree "Shelf9" "Shelf9" (Some "Shelf (9)")
    = Some scenarioTree.
Proof.
  assert ("Shelf9" ∉ traverse scenarioTree) as Hp.
  { apply includes_false. reflexivity. }
  split; [exact Hp|].
  exact (proj1 (proj2 (edit_of_absent_path_changes_nothing scenarioTree
                         "Shelf9" Hp)) "Shelf9" (Some "Shelf (9)")).
Defined.

Lemma add_then_delete_restores_tree_witness :
  (joinPath "Shelf1 / BoxA" (default "" (Some "Bin2")) ∉ traverse scenarioTree)
  ∧ handleDelete (handleAdd scenarioTree "Shelf1 / BoxA" (Some "Bin2"))
      "Shelf1 / BoxA / Bin2" true
    = scenarioTree.
Proof.
  assert (joinPath "Shelf1 / BoxA" (default "" (Some "Bin2"))
            ∉ traverse scenarioTree) as Hq.
  { apply includes_false. reflexivity. }
  split; [exact Hq|].
  exact (add_then_delete_restores_tree scenarioTree "Shelf1 / BoxA"
           (Some "Bin2") Hq).
Defined.

(** ** Renaming a location and renaming it back *)

Section RenameBack.

Implicit Types (n node : StorageNode) (nodes tree : list StorageNode).
Implicit Types (p q nm : string).

#[local] Arguments traverse_node : simpl never.
#[local] Arguments findAndRename_node : simpl never.
#[local] Arguments map_paths_node : simpl never.
#[local] Arguments find_node_in : simpl never.

Lemma plain_no_dollar (str : string) : plain str = true → has_dollar str = false.
Proof.
  induction str as [|c str IH]; simpl; [done|].
  intros [Hc Hs]%andb_true_iff. rewrite (IH Hs), orb_false_r.
  unfold plain_char, is_other_syntax in Hc. simpl in Hc.
  destruct (Ascii.eqb c "$"); [|done].
  by rewrite !orb_true_r in Hc.
Qed.

Lemma replace_prefix_back (old new q : string) :
  strip_prefix new q = None →
  replace_prefix new old (replace_prefix old new q) = q.
Proof.
  intros Hfresh. unfold replace_prefix at 2.
  destruct (strip_prefix old q) as [rest|] eqn:Hq.
  - unfold replace_prefix. rewrite strip_prefix_app.
    by rewrite <- (strip_prefix_Some _ _ _ Hq).
  - unfold replace_prefix. by rewrite Hfresh.
Qed.

Lemma map_paths_back (old new : string) nodes :
  (∀ q, q ∈ traverse nodes → strip_prefix new q = None) →
  map_paths (replace_prefix new old) (map_paths (replace_prefix old new) nodes)
  = nodes.
Proof.
  revert nodes.
  refine (forest_ind2
    (fun n => (∀ q, q ∈ traverse_node n → strip_prefix new q = None) →
              map_paths_node (replace_prefix new old)
                (map_paths_node (replace_prefix old new) n) = n)
    (fun l => (∀ q, q ∈ traverse l → strip_prefix new q = None) →
              map_paths (replace_prefix new old)
                (map_paths (replace_prefix old new) l) = l) _ _ _).
  - intros nm pth ch IH Hfresh. rewrite !map_paths_node_eq.
    rewrite replace_prefix_back, IH; [done| |].
    + intros q Hq. apply Hfresh. rewrite traverse_node_eq. by right.
    + apply Hfresh. rewrite traverse_node_eq. by left.
  - done.
  - intros n rest IHn IHrest Hfresh. simpl. rewrite IHn, IHrest; [done| |].
    + intros q Hq. apply Hfresh. simpl. apply elem_of_app. by right.
    + intros q Hq. apply Hfresh. simpl. apply elem_of_app. by left.
Qed.

Lemma rename_back_both (newName oldName p : string) :
  let p' := joinPath (parentOf p) newName in
  plain p = true → plain p' = true →
  joinPath (parentOf p') oldName = p →
  (∀ n, (∀ q, q ∈ traverse_node n → strip_prefix p' q = None) →
        ∀ m, find_node_in p n = Some m → name m = oldName →
        ∃ n', findAndRename_node newName p n = Some (n', true)
              ∧ findAndRename_node oldName p' n' = Some (n, true))
  ∧ (∀ nodes, (∀ q, q ∈ traverse nodes → strip_prefix p' q = None) →
        ∀ m, find_node p nodes = Some m → name m = oldName →
        ∃ nodes', findAndRename newName nodes p = Some (nodes', true)
                  ∧ findAndRename oldName nodes' p' = Some (nodes, true)).
Proof.
  intros p' Hp Hp' Hback.
  pose proof (plain_no_dollar _ Hp) as Hd. pose proof (plain_no_dollar _ Hp') as Hd'.
  assert (∀ q, strip_prefix p' q = None → q ≠ p') as Hne.
  { intros q Hq ->. clear -Hq. induction p' as [|c r IH]; [done|].
    simpl in Hq. rewrite Ascii.eqb_refl in Hq. by apply IH. }
  set (P := fun n =>
    (∀ q, q ∈ traverse_node n → strip_prefix p' q = None) →
    ∀ m, find_node_in p n = Some m → name m = oldName →
    ∃ n', findAndRename_node newName p n = Some (n', true)
          ∧ findAndRename_node oldName p' n' = Some (n, true)).
  set (Q := fun l =>
    (∀ q, q ∈ traverse l → strip_prefix p' q = None) →
    ∀ m, find_node p l = Some m → name m = oldName →
    ∃ l', findAndRename newName l p = Some (l', true)
          ∧ findAndRename oldName l' p' = Some (l, true)).
  assert (∀ nm pth ch, Q ch → P (mkNode nm pth ch)) as Hnode.
  { intros nm pth ch IH Hfresh m. rewrite find_node_in_eq.
    rewrite !findAndRename_node_eq.
    destruct (String.eqb_spec pth p) as [->|Hpth].
    - intros [= <-] Hnm. simpl in Hnm. subst nm.
      unfold renameNode. cbn [children path]. fold p'.
      rewrite (updateChildPaths_plain _ _ _ Hp Hd'). cbn.
      eexists. split; [done|].
      rewrite findAndRename_node_eq, String.eqb_refl.
      unfold renameNode. cbn [children path]. rewrite Hback.
      rewrite (updateChildPaths_plain _ _ _ Hp' Hd). cbn.
      rewrite map_paths_back; [done|].
      intros q Hq. apply Hfresh. rewrite traverse_node_eq. by right.
    - intros Hm Hnm.
      destruct (IH (fun q Hq => Hfresh q ltac:(rewrite traverse_node_eq; by right))
                  m Hm Hnm) as (ch' & Hfw & Hbw).
      rewrite Hfw. cbn. eexists. split; [done|].
      rewrite findAndRename_node_eq.
      destruct (String.eqb_spec pth p') as [Heq|_].
      { exfalso. apply (Hne pth); [|done]. apply Hfresh.
        rewrite traverse_node_eq. by left. }
      by rewrite Hbw. }
  assert (Q []) as Hnil by done.
  assert (∀ n rest, P n → Q rest → Q (n :: rest)) as Hcons.
  { intros n rest IHn IHrest Hfresh m. cbn [find_node findAndRename].
    assert (∀ q, q ∈ traverse_node n → strip_prefix p' q = None) as Hfn.
    { intros q Hq. apply Hfresh. simpl. apply elem_of_app. by left. }
    assert (∀ q, q ∈ traverse rest → strip_prefix p' q = None) as Hfr.
    { intros q Hq. apply Hfresh. simpl. apply elem_of_app. by right. }
    destruct (find_node_in p n) as [m'|] eqn:Hfind.
    - intros [= <-] Hnm.
      destruct (IHn Hfn m' Hfind Hnm) as (n' & Hfw & Hbw).
      rewrite Hfw. cbn. eexists. split; [done|].
      cbn [findAndRename]. by rewrite Hbw.
    - intros Hm Hnm.
      destruct (IHrest Hfr m Hm Hnm) as (rest' & Hfw & Hbw).
      apply find_node_None_both in Hfind.
      rewrite (proj1 (findAndRename_absent_both newName p) _ Hfind). cbn.
      rewrite Hfw. cbn. eexists. split; [done|].
      cbn [findAndRename].
      assert (p' ∉ traverse_node n) as Hp'n.
      { intros Hin. by apply (Hne p' (Hfn _ Hin)). }
      rewrite (proj1 (findAndRename_absent_both oldName p') _ Hp'n). cbn.
      by rewrite Hbw. }
  split; [exact (node_ind2 P Q Hnode Hnil Hcons)
         | exact (forest_ind2 P Q Hnode Hnil Hcons)].
Qed.

(** X25. Renaming a location and renaming it back gives the tree back.
    Let the path of the location and its new path hold no character that a
    regular expression reads as syntax, let the path end with the name of
    the location, and let no path of the tree begin with the new path.
    Then the rename succeeds, and renaming the location at its new path
    to its old name restores every name and every path of the tree. *)
Theorem rename_back_restores_tree tree p oldName newName :
  let p' := joinPath (parentOf p) newName in
  plain p = true → plain p' = true →
  truthy newName = true → truthy oldName = true → newName ≠ oldName →
  name <$> find_node p tree = Some oldName →
  joinPath (parentOf p') oldName = p →
  (∀ q, q ∈ traverse tree → strip_prefix p' q = None) →
  ∃ tree',
    handleRename tree p oldName (Some newName) = Some tree'
    ∧ handleRename tree' p' newName (Some oldName) = Some tree.
Proof.
  intros p' Hp Hp' Hnew Hold Hne Hname Hback Hfresh.
  destruct (find_node p tree) as [m|] eqn:Hm; [|done].
  injection Hname as Hname.
  destruct (proj2 (rename_back_both newName oldName p Hp Hp' Hback)
              tree Hfresh m Hm Hname) as (tree' & Hfw & Hbw).
  exists tree'. unfold handleRename. rewrite Hnew, Hold. cbn [negb orb].
  destruct (String.eqb_spec newName oldName) as [|_]; [done|].
  destruct (String.eqb_spec oldName newName) as [|_]; [done|].
  cbv zeta in Hbw. subst p'. by rewrite Hfw; cbn; rewrite Hbw.
Qed.

End RenameBack.

Lemma rename_back_restores_tree_witness :
  plain "Shelf1 / BoxA" = true
  ∧ plain (joinPath (parentOf "Shelf1 / BoxA") "BoxB") = true
  ∧ name <$> find_node "Shelf1 / BoxA" scenarioTree = Some "BoxA"
  ∧ ∃ tree',
      handleRename scenarioTree "Shelf1 / BoxA" "BoxA" (Some "BoxB")
      = Some tree'
      ∧ handleRename tree' "Shelf1 / BoxB" "BoxB" (Some "BoxA")
        = Some scenarioTree.
Proof.
  split; [reflexivity|]. split; [reflexivity|]. split; [reflexivity|].
  apply (rename_back_restores_tree scenarioTree "Shelf1 / BoxA" "BoxA" "BoxB");
    try reflexivity; try discriminate.
  intros q Hq. apply list_elem_of_In in Hq. simpl in Hq.
  destruct Hq as [<-|[<-|[<-|[<-|[]]]]]; reflexivity.
Defined.

(** ** Wrapping the text of a label *)

Section WrapFacts.

Import LabelText.

Implicit Types (words : list string) (line cur : string) (m : nat).

Lemma join_space_cons cur (w : string) words :
  join " " ((cur +:+ " " +:+ w) :: words) = join " " (cur :: w :: words).
Proof.
  destruct words as [|x words]; cbn [join]; [done|].
  by rewrite !append_assoc.
Qed.

Lemma wrap_loop_nonempty m cur words : wrap_loop m cur words ≠ [].
Proof.
  revert cur. induction words as [|w words IH]; intros cur; simpl; [done|].
  destruct (_ && _); [done | apply IH].
Qed.

Lemma wrap_loop_join m cur words :
  join " " (wrap_loop m cur words) = join " " (cur :: words).
Proof.
  revert cur. induction words as [|w words IH]; intros cur; [done|].
  cbn [wrap_loop]. destruct (_ && _).
  - rewrite join_cons by apply wrap_loop_nonempty. by rewrite IH.
  - by rewrite IH, join_space_cons.
Qed.

Lemma wrap_loop_lines m (all : list string) cur words :
  line_ok m all cur → (∀ w, w ∈ words → w ∈ all) →
  Forall (line_ok m all) (wrap_loop m cur words).
Proof.
  revert cur. induction words as [|w words IH]; intros cur Hcur Hsub.
  { by constructor. }
  cbn [wrap_loop].
  destruct (Nat.ltb_spec m (String.length (cur +:+ " " +:+ w))) as [Hlong|Hfit];
    cbn [andb].
  - destruct (Nat.ltb_spec 0 (String.length cur)) as [Hne|Hempty].
    + constructor; [done|]. apply IH.
      * right; left. apply Hsub. by left.
      * intros x Hx. apply Hsub. by right.
    + apply IH.
      * destruct cur; [|simpl in Hempty; lia].
        right; right. exists w. split; [apply Hsub; by left | done].
      * intros x Hx. apply Hsub. by right.
  - apply IH; [by left|]. intros x Hx. apply Hsub. by right.
Qed.

Lemma split_ws_from_nonempty (b : bool) (s : string) : split_ws_from b s ≠ [].
Proof.
  revert b. induction s as [|c s IH]; intros b; simpl; [done|].
  destruct (is_space c); [destruct b; [apply IH | done]|].
  by destruct (split_ws_from false s).
Qed.

(** X26. Wrapping the text of a label. The lines of a location label,
    joined by single spaces, are the words of the text joined by single
    spaces: wrapping loses no word and adds none. A line is longer than
    the limit only when it holds a single word. The spool label shows a
    text that fits as it is, and of a longer text the first two of those
    lines, so that what follows them is not printed. *)
Theorem wrap_keeps_the_words (text : string) (maxChars : nat) :
  join " " (wrap_location text maxChars) = join " " (split_ws text)
  ∧ Forall (line_ok maxChars (split_ws text)) (wrap_location text maxChars)
  ∧ List.length (wrap_spool text maxChars) ≤ 2
  ∧ (String.length text ≤ maxChars → wrap_spool text maxChars = [text])
  ∧ (maxChars < String.length text →
     wrap_spool text maxChars = take 2 (wrap_location text maxChars)).
Proof.
  unfold wrap_location, wrap_spool, wrap_lines.
  pose proof (split_ws_from_nonempty false text) as Hne.
  fold (split_ws text) in Hne.
  destruct (split_ws text) as [|first words] eqn:Hs; [done|].
  split; [apply wrap_loop_join|]. split.
  { apply wrap_loop_lines; [right; left; by left|].
    intros w Hw. by right. }
  split; [|split].
  - destruct (_ || _); [simpl; lia|]. rewrite length_take. lia.
  - intros Hfit. destruct (Nat.leb_spec (String.length text) maxChars); [|lia].
    by rewrite orb_true_r.
  - intros Hlong.
    destruct (Nat.leb_spec (String.length text) maxChars); [lia|].
    destruct text; [simpl in Hlong; lia | done].
Qed.

End WrapFacts.

Lemma wrap_keeps_the_words_witness :
  String.length "PLA" ≤ 16
  ∧ 16 < String.length "Shelf1 / BoxA / Bin1"
  ∧ LabelText.wrap_spool "PLA" 16 = ["PLA"]
  ∧ LabelText.wrap_spool "Shelf1 / BoxA / Bin1" 16
    = take 2 (LabelText.wrap_location "Shelf1 / BoxA / Bin1" 16).
Proof.
  assert (String.length "PLA" ≤ 16) as H1 by (vm_compute; lia).
  assert (16 < String.length "Shelf1 / BoxA / Bin1") as H2
    by (vm_compute; lia).
  split; [exact H1|]. split; [exact H2|]. split.
  - exact (proj1 (proj2 (proj2 (proj2 (wrap_keeps_the_words "PLA" 16)))) H1).
  - exact (proj2 (proj2 (proj2 (proj2
             (wrap_keeps_the_words "Shelf1 / BoxA / Bin1" 16)))) H2).
Defined.
